(** * RtMidi17, JACK backend ([rtmidi17/detail/jack.hpp])

    A shallow embedding of the JACK input and output backends and of the
    two real-time process callbacks, followed by the properties of the
    design document that can be stated over it.

    The backend is stateful code over an external server.  Every
    operation is a function of a [world]: the instance's [jack_data], the
    application-side [in_data], the state of the JACK server, and the log
    of the calls made to the server, to the ringbuffers, to the semaphores
    and to the warning and error channels.  Operations run in a small
    state-and-error monad [M]. *)

From Stdlib Require Import ZArith String List Bool Lia.
From Stdlib Require Import Strings.Byte DecimalString.
From Stdlib Require Import Floats.SpecFloat.
Import ListNotations.
Local Open Scope Z_scope.

(* ================================================================= *)
(** ** Machine integers and bytes *)

Definition byte := Byte.byte.

(** [jack_time_t] and [size_t] are unsigned 64-bit integers. *)
Definition uint64 (z : Z) : Z := z mod 2 ^ 64.

(** [int] is a signed 32-bit integer. *)
Definition int32 (z : Z) : Z := (z + 2 ^ 31) mod 2 ^ 32 - 2 ^ 31.

Definition byte_of_Z (z : Z) : byte :=
  match Byte.of_N (Z.to_N (z mod 256)) with
  | Some b => b
  | None => Byte.x00
  end.

Definition Z_of_byte (b : byte) : Z := Z.of_N (Byte.to_N b).

(** The object representation of an [int] (the four bytes at [&nBytes]),
    least significant first. *)
Definition int_to_bytes (n : Z) : list byte :=
  [ byte_of_Z n; byte_of_Z (Z.shiftr n 8);
    byte_of_Z (Z.shiftr n 16); byte_of_Z (Z.shiftr n 24) ].

Fixpoint le_value (bs : list byte) : Z :=
  match bs with
  | [] => 0
  | b :: r => Z_of_byte b + 256 * le_value r
  end.

(** Reading bytes over an [int] that was initialised to zero
    ([int space{}]): the bytes read fill the low addresses, the others stay
    zero. *)
Definition int_of_bytes (bs : list byte) : Z := int32 (le_value (firstn 4 bs)).

(* ================================================================= *)
(** ** Messages and timestamps *)

(** [double] is IEEE-754 binary64, taken from the Standard Library's
    specification of floating-point numbers. *)
Definition double := spec_float.
Definition prec : Z := 53.
Definition emax : Z := 1024.

Definition double_zero : double := S754_zero false.

(** The literal [0.000001], rounded to the nearest binary64 value. *)
Definition double_1e_6 : double := S754_finite false 4722366482869645 (-72).

(** Conversion of an unsigned 64-bit integer to [double]. *)
Definition double_of_uint64 (z : Z) : double := binary_normalize prec emax z 0 false.

Definition double_mul (x y : double) : double := SFmul prec emax x y.

(** Modelled from the spec: the message value of [rtmidi17/message.hpp],
    which is not part of the sources at hand; its bytes and its timestamp,
    the timestamp of a freshly constructed message being zero. *)
Record message := { bytes : list byte; timestamp : double }.

Definition message_default : message := {| bytes := []; timestamp := double_zero |}.

(* ================================================================= *)
(** ** The JACK ringbuffer *)

(** Modelled from the spec: the single-producer single-consumer byte
    ringbuffer of the server library ([jack/ringbuffer.h]), of fixed
    capacity; reads and writes never block and transfer as many bytes as
    fit. *)
Record jack_ringbuffer_t := { rb_size : Z; rb_data : list byte }.

Definition jack_ringbuffer_create_pure (sz : Z) : jack_ringbuffer_t :=
  {| rb_size := sz; rb_data := [] |}.

Definition rb_read_space (rb : jack_ringbuffer_t) : Z :=
  Z.of_nat (length (rb_data rb)).

Definition rb_write_space (rb : jack_ringbuffer_t) : Z :=
  Z.max 0 (rb_size rb - rb_read_space rb).

(** Writing [cnt] bytes from [src]: the number of bytes transferred and the
    buffer afterwards. *)
Definition rb_write (rb : jack_ringbuffer_t) (src : list byte) (cnt : Z)
  : Z * jack_ringbuffer_t :=
  let n := Z.min cnt (rb_write_space rb) in
  (n, {| rb_size := rb_size rb;
         rb_data := rb_data rb ++ firstn (Z.to_nat n) src |}).

(** Reading [cnt] bytes: the bytes transferred and the buffer afterwards. *)
Definition rb_read (rb : jack_ringbuffer_t) (cnt : Z)
  : list byte * jack_ringbuffer_t :=
  let n := Z.min cnt (rb_read_space rb) in
  (firstn (Z.to_nat n) (rb_data rb),
   {| rb_size := rb_size rb; rb_data := skipn (Z.to_nat n) (rb_data rb) |}).

(* ================================================================= *)
(** ** The shared state block and the application input binding *)

Definition jack_client_t := nat.
Definition jack_port_t := nat.

Definition ringbuffer_size : Z := 16384.

(** Modelled from the spec: the binary semaphore of
    [rtmidi17/detail/semaphore.hpp], which is not part of the sources at
    hand; un-signalled when constructed. *)
Definition semaphore := bool.

(** [struct jack_data].  A null pointer is [None]; the back-reference
    [rtMidiIn] is the [in_data] of the world. *)
Record jack_data := {
  client : option jack_client_t;
  port : option jack_port_t;
  buffSize : option jack_ringbuffer_t;
  buffMessage : option jack_ringbuffer_t;
  lastTime : Z;
  sem_cleanup : semaphore;
  sem_needpost : semaphore
}.

Definition jack_data_init : jack_data :=
  {| client := None; port := None; buffSize := None; buffMessage := None;
     lastTime := 0; sem_cleanup := false; sem_needpost := false |}.

(** Modelled from the spec: [midi_in_api::in_data] of
    [rtmidi17/detail/midi_api.hpp], which is not part of the sources at
    hand: a bounded message queue whose [push] reports success or overflow,
    an optional user callback, the first-message flag and the
    continue-sysex flag. *)
Record in_data := {
  queue : list message;
  queueSizeLimit : nat;
  userCallback : bool;
  firstMessage : bool;
  continueSysex : bool
}.

Definition in_data_init (limit : nat) : in_data :=
  {| queue := []; queueSizeLimit := limit; userCallback := false;
     firstMessage := true; continueSysex := false |}.

(* ================================================================= *)
(** ** The server and the log of calls *)

Inductive direction := JackPortIsInput | JackPortIsOutput.
Inductive process_callback := ProcessIn | ProcessOut.
Inductive sem_id := SemCleanup | SemNeedpost.
Inductive ring_id := BuffSize | BuffMessage.
Inductive thread := UserThread | RtThread.

(** An event reserved in the outbound port buffer: its frame, the size
    reserved, and the bytes that were copied into the reserved region. *)
Record midi_event := { ev_time : Z; ev_size : Z; ev_data : list byte }.

(** A port the client has registered. *)
Record port_entry := { pe_handle : jack_port_t; pe_name : string; pe_dir : direction }.

(** Modelled from the spec: the host server behind the C API of
    [jack/jack.h] and [jack/midiport.h].  The first fields are the
    environment: whether the server runs, which port names it accepts,
    the peer ports by direction flag, the successive readings of its
    clock, and for each timed wait of the user thread the process cycles
    (their frame counts) the server runs before the timeout expires.  The
    others are what the client has built on the server. *)
Record server := {
  srv_running : bool;
  srv_accept : string -> bool;
  srv_peers : direction -> list string;
  srv_clock : list Z;
  srv_cycles : list (list Z);
  srv_next : nat;
  srv_ports : list port_entry;
  srv_callback : option process_callback;
  srv_active : bool;
  srv_inbuf : list (list byte);
  srv_outbuf : list midi_event
}.

(** The calls the backend makes to its collaborators. *)
Inductive call :=
| ClientOpen (name : string) (r : option jack_client_t)
| SetProcessCallback (c : jack_client_t) (cb : process_callback)
| Activate (c : jack_client_t)
| ClientClose (c : jack_client_t)
| PortRegister (c : option jack_client_t) (name : string) (d : direction)
               (r : option jack_port_t)
| PortUnregister (c : option jack_client_t) (p : option jack_port_t)
| PortRename (c : option jack_client_t) (p : option jack_port_t) (name : string)
| PortSetName (p : option jack_port_t) (name : string)
| Connect (c : option jack_client_t) (src dst : string)
| GetPorts (c : option jack_client_t) (d : direction)
| Free
| PortGetBuffer (p : jack_port_t) (nframes : Z)
| MidiClearBuffer
| MidiEventReserve (time size : Z)
| RingbufferCreate (sz : Z)
| RingbufferFree
| RingbufferWrite (rb : ring_id) (src : list byte) (cnt : Z)
| RingbufferRead (rb : ring_id) (cnt : Z)
| SemNotify (s : sem_id)
| SemWaitFor (s : sem_id) (ms : Z) (r : bool)
| SemTryWait (s : sem_id) (r : bool)
| Warning (msg : string)
| Error (msg : string)
| Cerr (msg : string)
| UserCallback (m : message)
| QueuePush (m : message) (r : bool).

Record world := {
  w_data : jack_data;
  w_in : in_data;
  w_srv : server;
  w_clientName : string;
  w_thread : thread;
  w_trace : list (thread * call)
}.

(* ----------------------------------------------------------------- *)
(** *** Field updates *)

Definition with_data (f : jack_data -> jack_data) (w : world) : world :=
  {| w_data := f (w_data w); w_in := w_in w; w_srv := w_srv w;
     w_clientName := w_clientName w; w_thread := w_thread w;
     w_trace := w_trace w |}.

Definition with_in (f : in_data -> in_data) (w : world) : world :=
  {| w_data := w_data w; w_in := f (w_in w); w_srv := w_srv w;
     w_clientName := w_clientName w; w_thread := w_thread w;
     w_trace := w_trace w |}.

Definition with_srv (f : server -> server) (w : world) : world :=
  {| w_data := w_data w; w_in := w_in w; w_srv := f (w_srv w);
     w_clientName := w_clientName w; w_thread := w_thread w;
     w_trace := w_trace w |}.

Definition with_thread (t : thread) (w : world) : world :=
  {| w_data := w_data w; w_in := w_in w; w_srv := w_srv w;
     w_clientName := w_clientName w; w_thread := t;
     w_trace := w_trace w |}.

Definition log (c : call) (w : world) : world :=
  {| w_data := w_data w; w_in := w_in w; w_srv := w_srv w;
     w_clientName := w_clientName w; w_thread := w_thread w;
     w_trace := w_trace w ++ [(w_thread w, c)] |}.

Definition set_client (c : option jack_client_t) (d : jack_data) : jack_data :=
  {| client := c; port := port d; buffSize := buffSize d;
     buffMessage := buffMessage d; lastTime := lastTime d;
     sem_cleanup := sem_cleanup d; sem_needpost := sem_needpost d |}.

Definition set_port (p : option jack_port_t) (d : jack_data) : jack_data :=
  {| client := client d; port := p; buffSize := buffSize d;
     buffMessage := buffMessage d; lastTime := lastTime d;
     sem_cleanup := sem_cleanup d; sem_needpost := sem_needpost d |}.

Definition ring (r : ring_id) (d : jack_data) : option jack_ringbuffer_t :=
  match r with BuffSize => buffSize d | BuffMessage => buffMessage d end.

Definition set_ring (r : ring_id) (rb : option jack_ringbuffer_t) (d : jack_data)
  : jack_data :=
  {| client := client d; port := port d;
     buffSize := match r with BuffSize => rb | BuffMessage => buffSize d end;
     buffMessage := match r with BuffSize => buffMessage d | BuffMessage => rb end;
     lastTime := lastTime d;
     sem_cleanup := sem_cleanup d; sem_needpost := sem_needpost d |}.

Definition set_lastTime (t : Z) (d : jack_data) : jack_data :=
  {| client := client d; port := port d; buffSize := buffSize d;
     buffMessage := buffMessage d; lastTime := t;
     sem_cleanup := sem_cleanup d; sem_needpost := sem_needpost d |}.

Definition sem (s : sem_id) (d : jack_data) : semaphore :=
  match s with SemCleanup => sem_cleanup d | SemNeedpost => sem_needpost d end.

Definition set_sem (s : sem_id) (b : semaphore) (d : jack_data) : jack_data :=
  {| client := client d; port := port d; buffSize := buffSize d;
     buffMessage := buffMessage d; lastTime := lastTime d;
     sem_cleanup := match s with SemCleanup => b | SemNeedpost => sem_cleanup d end;
     sem_needpost := match s with SemCleanup => sem_needpost d | SemNeedpost => b end |}.

Definition set_queue (q : list message) (i : in_data) : in_data :=
  {| queue := q; queueSizeLimit := queueSizeLimit i;
     userCallback := userCallback i; firstMessage := firstMessage i;
     continueSysex := continueSysex i |}.

Definition set_firstMessage (b : bool) (i : in_data) : in_data :=
  {| queue := queue i; queueSizeLimit := queueSizeLimit i;
     userCallback := userCallback i; firstMessage := b;
     continueSysex := continueSysex i |}.

Definition set_srv_clock (c : list Z) (s : server) : server :=
  {| srv_running := srv_running s; srv_accept := srv_accept s;
     srv_peers := srv_peers s; srv_clock := c; srv_cycles := srv_cycles s;
     srv_next := srv_next s; srv_ports := srv_ports s;
     srv_callback := srv_callback s; srv_active := srv_active s;
     srv_inbuf := srv_inbuf s; srv_outbuf := srv_outbuf s |}.

Definition set_srv_cycles (c : list (list Z)) (s : server) : server :=
  {| srv_running := srv_running s; srv_accept := srv_accept s;
     srv_peers := srv_peers s; srv_clock := srv_clock s; srv_cycles := c;
     srv_next := srv_next s; srv_ports := srv_ports s;
     srv_callback := srv_callback s; srv_active := srv_active s;
     srv_inbuf := srv_inbuf s; srv_outbuf := srv_outbuf s |}.

Definition set_srv_next (n : nat) (s : server) : server :=
  {| srv_running := srv_running s; srv_accept := srv_accept s;
     srv_peers := srv_peers s; srv_clock := srv_clock s;
     srv_cycles := srv_cycles s;
     srv_next := n; srv_ports := srv_ports s;
     srv_callback := srv_callback s; srv_active := srv_active s;
     srv_inbuf := srv_inbuf s; srv_outbuf := srv_outbuf s |}.

Definition set_srv_ports (ps : list port_entry) (s : server) : server :=
  {| srv_running := srv_running s; srv_accept := srv_accept s;
     srv_peers := srv_peers s; srv_clock := srv_clock s;
     srv_cycles := srv_cycles s;
     srv_next := srv_next s; srv_ports := ps;
     srv_callback := srv_callback s; srv_active := srv_active s;
     srv_inbuf := srv_inbuf s; srv_outbuf := srv_outbuf s |}.

Definition set_srv_callback (cb : option process_callback) (s : server) : server :=
  {| srv_running := srv_running s; srv_accept := srv_accept s;
     srv_peers := srv_peers s; srv_clock := srv_clock s;
     srv_cycles := srv_cycles s;
     srv_next := srv_next s; srv_ports := srv_ports s;
     srv_callback := cb; srv_active := srv_active s;
     srv_inbuf := srv_inbuf s; srv_outbuf := srv_outbuf s |}.

Definition set_srv_active (b : bool) (s : server) : server :=
  {| srv_running := srv_running s; srv_accept := srv_accept s;
     srv_peers := srv_peers s; srv_clock := srv_clock s;
     srv_cycles := srv_cycles s;
     srv_next := srv_next s; srv_ports := srv_ports s;
     srv_callback := srv_callback s; srv_active := b;
     srv_inbuf := srv_inbuf s; srv_outbuf := srv_outbuf s |}.

Definition set_srv_outbuf (b : list midi_event) (s : server) : server :=
  {| srv_running := srv_running s; srv_accept := srv_accept s;
     srv_peers := srv_peers s; srv_clock := srv_clock s;
     srv_cycles := srv_cycles s;
     srv_next := srv_next s; srv_ports := srv_ports s;
     srv_callback := srv_callback s; srv_active := srv_active s;
     srv_inbuf := srv_inbuf s; srv_outbuf := b |}.


Definition set_srv_inbuf (b : list (list byte)) (s : server) : server :=
  {| srv_running := srv_running s; srv_accept := srv_accept s;
     srv_peers := srv_peers s; srv_clock := srv_clock s;
     srv_cycles := srv_cycles s;
     srv_next := srv_next s; srv_ports := srv_ports s;
     srv_callback := srv_callback s; srv_active := srv_active s;
     srv_inbuf := b; srv_outbuf := srv_outbuf s |}.

(* ================================================================= *)
(** ** The monad of operations *)

Inductive exception := driver_error (msg : string).

(** An operation returns, raises, or has undefined behaviour (an access
    through a null pointer or past the end of an array). *)
Inductive result (A : Type) :=
| Ok (a : A)
| Raise (e : exception)
| Undefined.
Arguments Ok {A} a.
Arguments Raise {A} e.
Arguments Undefined {A}.

Definition M (A : Type) : Type := world -> result A * world.

Definition ret {A} (a : A) : M A := fun w => (Ok a, w).

Definition bind {A B} (m : M A) (k : A -> M B) : M B :=
  fun w =>
    match m w with
    | (Ok a, w') => k a w'
    | (Raise e, w') => (Raise e, w')
    | (Undefined, w') => (Undefined, w')
    end.

Definition gets {A} (f : world -> A) : M A := fun w => (Ok (f w), w).
Definition modify (f : world -> world) : M unit := fun w => (Ok tt, f w).
Definition emit (c : call) : M unit := modify (log c).
Definition raise {A} (e : exception) : M A := fun w => (Raise e, w).
Definition undefined {A} : M A := fun w => (Undefined, w).

Declare Scope monad_scope.
Delimit Scope monad_scope with monad.
Notation "x <- m ;; k" := (bind m (fun x => k))
  (at level 61, m at next level, right associativity) : monad_scope.
Notation "m ;; k" := (bind m (fun _ => k))
  (at level 61, right associativity) : monad_scope.
Local Open Scope monad_scope.

(** The world an operation leaves and the log entries it appends. *)
Definition exec {A} (m : M A) (w : world) : world := snd (m w).
Definition outcome {A} (m : M A) (w : world) : result A := fst (m w).
Definition new_trace (w w' : world) : list (thread * call) :=
  skipn (length (w_trace w)) (w_trace w').

(* ================================================================= *)
(** ** Collaborators *)

Definition nl : string := String (Ascii.ascii_of_nat 10) EmptyString.

Definition string_of_nat (n : nat) : string :=
  NilEmpty.string_of_uint (Nat.to_uint n).

(** Modelled from the spec: [warning] and [error<driver_error>] of
    [rtmidi17/detail/midi_api.hpp], which is not part of the sources at
    hand.  A warning is logged and the operation goes on; a driver error is
    raised at the API boundary. *)
Definition warning (msg : string) : M unit := emit (Warning msg).

Definition error (msg : string) : M unit :=
  emit (Error msg) ;; raise (driver_error msg).

(* ----------------------------------------------------------------- *)
(** *** The server API *)

Definition jack_client_open (name : string) : M (option jack_client_t) :=
  s <- gets w_srv ;;
  if srv_running s then
    modify (with_srv (set_srv_next (S (srv_next s)))) ;;
    emit (ClientOpen name (Some (srv_next s))) ;;
    ret (Some (srv_next s))
  else
    emit (ClientOpen name None) ;;
    ret None.

Definition jack_set_process_callback (c : jack_client_t) (cb : process_callback)
  : M unit :=
  modify (with_srv (set_srv_callback (Some cb))) ;;
  emit (SetProcessCallback c cb).

Definition jack_activate (c : jack_client_t) : M unit :=
  modify (with_srv (set_srv_active true)) ;;
  emit (Activate c).

Definition jack_client_close (c : jack_client_t) : M unit :=
  modify (with_srv (fun s =>
    set_srv_active false (set_srv_callback None (set_srv_ports [] s)))) ;;
  emit (ClientClose c).

Definition name_taken (name : string) (ps : list port_entry) : bool :=
  existsb (fun e => String.eqb (pe_name e) name) ps.

(** Registration fails (a null port) on a null client, on a name the
    server refuses and on a name the client already uses. *)
Definition jack_port_register (c : option jack_client_t) (name : string)
    (d : direction) : M (option jack_port_t) :=
  s <- gets w_srv ;;
  match c with
  | None => emit (PortRegister c name d None) ;; ret None
  | Some _ =>
      if srv_accept s name && negb (name_taken name (srv_ports s)) then
        modify (with_srv (fun s =>
          set_srv_next (S (srv_next s))
            (set_srv_ports
               (srv_ports s ++
                [{| pe_handle := srv_next s; pe_name := name; pe_dir := d |}]) s))) ;;
        emit (PortRegister c name d (Some (srv_next s))) ;;
        ret (Some (srv_next s))
      else
        emit (PortRegister c name d None) ;;
        ret None
  end.

Definition jack_port_unregister (c : option jack_client_t)
    (p : option jack_port_t) : M unit :=
  match c, p with
  | Some _, Some p =>
      modify (with_srv (fun s =>
        set_srv_ports
          (filter (fun e => negb (Nat.eqb (pe_handle e) p)) (srv_ports s)) s)) ;;
      emit (PortUnregister c (Some p))
  | _, _ => emit (PortUnregister c p)
  end.

Definition rename_entry (p : jack_port_t) (name : string) (e : port_entry)
  : port_entry :=
  if Nat.eqb (pe_handle e) p
  then {| pe_handle := pe_handle e; pe_name := name; pe_dir := pe_dir e |}
  else e.

Definition rename_port (p : option jack_port_t) (name : string) : M unit :=
  match p with
  | None => ret tt
  | Some p =>
      modify (with_srv (fun s =>
        set_srv_ports (map (rename_entry p name) (srv_ports s)) s))
  end.

Definition jack_port_rename (c : option jack_client_t) (p : option jack_port_t)
    (name : string) : M unit :=
  emit (PortRename c p name) ;;
  match c with
  | None => ret tt
  | Some _ => rename_port p name
  end.

Definition jack_port_set_name (p : option jack_port_t) (name : string) : M unit :=
  emit (PortSetName p name) ;;
  rename_port p name.

(** The full name of a port, [client:port]. *)
Definition jack_port_name (p : jack_port_t) : M string :=
  s <- gets w_srv ;;
  cn <- gets w_clientName ;;
  match find (fun e => Nat.eqb (pe_handle e) p) (srv_ports s) with
  | Some e => ret (cn ++ ":" ++ pe_name e)%string
  | None => ret EmptyString
  end.

Definition jack_connect (c : option jack_client_t) (src dst : string) : M unit :=
  emit (Connect c src dst).

(** The peer ports carrying flag [d], as a null-terminated array: [None] is
    the null pointer, returned on a null client and when no port matches. *)
Definition jack_get_ports (c : option jack_client_t) (d : direction)
  : M (option (list string)) :=
  s <- gets w_srv ;;
  emit (GetPorts c d) ;;
  match c with
  | None => ret None
  | Some _ =>
      match srv_peers s d with
      | [] => ret None
      | l => ret (Some l)
      end
  end.

Definition jack_free : M unit := emit Free.

(** [ports[i]] on a null-terminated array of [length ports] names: the
    name, the terminator, or a read past the end of the array. *)
Definition array_at (ports : list string) (i : nat) : M (option string) :=
  match nth_error ports i with
  | Some s => ret (Some s)
  | None => if Nat.eqb i (length ports) then ret None else undefined
  end.

Definition jack_get_time : M Z :=
  s <- gets w_srv ;;
  match srv_clock s with
  | [] => ret 0
  | t :: r => modify (with_srv (set_srv_clock r)) ;; ret (uint64 t)
  end.

Definition jack_port_get_buffer (p : jack_port_t) (nframes : Z) : M unit :=
  emit (PortGetBuffer p nframes).

Definition jack_midi_clear_buffer : M unit :=
  modify (with_srv (set_srv_outbuf [])) ;;
  emit MidiClearBuffer.

(* ----------------------------------------------------------------- *)
(** *** Ringbuffers *)

Definition jack_ringbuffer_create (sz : Z) : M (option jack_ringbuffer_t) :=
  emit (RingbufferCreate sz) ;;
  ret (Some (jack_ringbuffer_create_pure sz)).

Definition jack_ringbuffer_free (rb : option jack_ringbuffer_t) : M unit :=
  match rb with
  | None => undefined
  | Some _ => emit RingbufferFree
  end.

Definition jack_ringbuffer_read_space (r : ring_id) : M Z :=
  d <- gets w_data ;;
  match ring r d with
  | None => undefined
  | Some rb => ret (rb_read_space rb)
  end.

(** [cnt] is a [size_t]; copying more bytes than [src] holds reads past
    the source. *)
Definition jack_ringbuffer_write (r : ring_id) (src : list byte) (cnt : Z)
  : M Z :=
  d <- gets w_data ;;
  match ring r d with
  | None => undefined
  | Some rb =>
      let '(n, rb') := rb_write rb src cnt in
      if Z.of_nat (length src) <? n then undefined
      else
        modify (with_data (set_ring r (Some rb'))) ;;
        emit (RingbufferWrite r src cnt) ;;
        ret n
  end.

Definition jack_ringbuffer_read (r : ring_id) (cnt : Z) : M (list byte) :=
  d <- gets w_data ;;
  match ring r d with
  | None => undefined
  | Some rb =>
      let '(bs, rb') := rb_read rb cnt in
      modify (with_data (set_ring r (Some rb'))) ;;
      emit (RingbufferRead r cnt) ;;
      ret bs
  end.

(** Modelled from the spec: [jack_midi_event_reserve] reserves [size]
    bytes at frame [time] of the outbound port buffer; the reserved region
    is filled by the read that follows. *)
Definition jack_midi_event_reserve (time size : Z) : M unit :=
  emit (MidiEventReserve time size).

Definition push_event (e : midi_event) : M unit :=
  modify (with_srv (fun s => set_srv_outbuf (srv_outbuf s ++ [e]) s)).

(* ----------------------------------------------------------------- *)
(** *** Semaphores *)

(** Modelled from the spec: [notify] of the binary semaphore of
    [rtmidi17/detail/semaphore.hpp] signals it. *)
Definition sem_notify (s : sem_id) : M unit :=
  modify (with_data (set_sem s true)) ;;
  emit (SemNotify s).

(** Modelled from the spec: [try_wait] returns [false] when the semaphore
    was signalled and has been consumed. *)
Definition sem_try_wait (s : sem_id) : M bool :=
  d <- gets w_data ;;
  if sem s d then
    modify (with_data (set_sem s false)) ;;
    emit (SemTryWait s false) ;;
    ret false
  else
    emit (SemTryWait s true) ;;
    ret true.

(** Modelled from the spec: [wait_for], a timed wait.  While the user
    thread waits, the server runs the process cycles [cycles] (each with
    its frame count) through [rt]; the wait ends as soon as the semaphore
    is signalled, which it consumes, or when the cycles of the timeout
    window are over. *)
Fixpoint wait_cycles (rt : Z -> M unit) (s : sem_id) (cycles : list Z) : M bool :=
  d <- gets w_data ;;
  if sem s d then
    modify (with_data (set_sem s false)) ;;
    ret true
  else
    match cycles with
    | [] => ret false
    | nframes :: rest => rt nframes ;; wait_cycles rt s rest
    end.

Definition sem_wait_for (rt : Z -> M unit) (s : sem_id) (ms : Z) : M bool :=
  srv <- gets w_srv ;;
  modify (with_srv (set_srv_cycles (tl (srv_cycles srv)))) ;;
  r <- wait_cycles rt s (hd [] (srv_cycles srv)) ;;
  emit (SemWaitFor s ms r) ;;
  ret r.

(** Code run by the server on its real-time thread. *)
Definition on_rt_thread {A} (m : M A) : M A :=
  fun w =>
    let '(r, w') := m (with_thread RtThread w) in
    (r, with_thread (w_thread w) w').

(* ================================================================= *)
(** ** The input backend, [class midi_in_jack] *)

Module midi_in_jack.

(** Modelled from the spec: [midi_queue::push] of
    [rtmidi17/detail/midi_api.hpp], success or overflow of a bounded
    queue. *)
Definition queue_push (m : message) : M bool :=
  i <- gets w_in ;;
  if Nat.ltb (length (queue i)) (queueSizeLimit i) then
    modify (with_in (set_queue (queue i ++ [m]))) ;;
    emit (QueuePush m true) ;;
    ret true
  else
    emit (QueuePush m false) ;;
    ret false.

(** The body of the loop of [jackProcessIn] for the event [event]. *)
Definition process_event (event : list byte) : M unit :=
  let m := message_default in
  let m := {| bytes := event; timestamp := timestamp m |} in
  time <- jack_get_time ;;
  rtData <- gets w_in ;;
  jData <- gets w_data ;;
  m <- (if firstMessage rtData then
          modify (with_in (set_firstMessage false)) ;;
          ret m
        else
          ret {| bytes := bytes m;
                 timestamp :=
                   double_mul (double_of_uint64 (uint64 (time - lastTime jData)))
                              double_1e_6 |}) ;;
  modify (with_data (set_lastTime time)) ;;
  if negb (continueSysex rtData) then
    if userCallback rtData then
      emit (UserCallback m)
    else
      pushed <- queue_push m ;;
      if negb pushed then
        emit (Cerr (nl ++ "MidiInJack: message queue limit reached!!" ++ nl ++ nl))
      else ret tt
  else ret tt.

Fixpoint process_events (events : list (list byte)) : M unit :=
  match events with
  | [] => ret tt
  | event :: rest => process_event event ;; process_events rest
  end.

Definition jackProcessIn (nframes : Z) : M Z :=
  jData <- gets w_data ;;
  match port jData with
  | None => ret 0
  | Some p =>
      jack_port_get_buffer p nframes ;;
      buff <- gets (fun w => srv_inbuf (w_srv w)) ;;
      process_events buff ;;
      ret 0
  end.

Definition connect : M unit :=
  data <- gets w_data ;;
  match client data with
  | Some _ => ret tt
  | None =>
      clientName <- gets w_clientName ;;
      c <- jack_client_open clientName ;;
      modify (with_data (set_client c)) ;;
      match c with
      | None => warning "MidiInJack::initialize: JACK server not running?"
      | Some c =>
          jack_set_process_callback c ProcessIn ;;
          jack_activate c
      end
  end.

Definition get_port_count : M nat :=
  connect ;;
  data <- gets w_data ;;
  match client data with
  | None => ret 0%nat
  | Some _ =>
      ports <- jack_get_ports (client data) JackPortIsOutput ;;
      match ports with
      | None => ret 0%nat
      | Some ports =>
          let count := length ports in
          jack_free ;;
          ret count
      end
  end.

Definition get_port_name (portNumber : nat) : M string :=
  let retStr := EmptyString in
  connect ;;
  data <- gets w_data ;;
  ports <- jack_get_ports (client data) JackPortIsOutput ;;
  match ports with
  | None =>
      warning "MidiInJack::getPortName: no ports available!" ;;
      ret retStr
  | Some ports =>
      entry <- array_at ports portNumber ;;
      retStr <- match entry with
                | None =>
                    warning ("MidiInJack::getPortName: the 'portNumber' argument ("
                             ++ string_of_nat portNumber ++ ") is invalid.") ;;
                    ret retStr
                | Some name => ret name
                end ;;
      jack_free ;;
      ret retStr
  end.

Definition open_port (portNumber : nat) (portName : string) : M unit :=
  connect ;;
  data <- gets w_data ;;
  match port data with
  | None =>
      p <- jack_port_register (client data) portName JackPortIsInput ;;
      modify (with_data (set_port p))
  | Some _ => ret tt
  end ;;
  data <- gets w_data ;;
  match port data with
  | None => error "MidiInJack::openPort: JACK error creating port"
  | Some p =>
      name <- get_port_name portNumber ;;
      local <- jack_port_name p ;;
      jack_connect (client data) name local
  end.

Definition open_virtual_port (portName : string) : M unit :=
  connect ;;
  data <- gets w_data ;;
  match port data with
  | None =>
      p <- jack_port_register (client data) portName JackPortIsInput ;;
      modify (with_data (set_port p))
  | Some _ => ret tt
  end ;;
  data <- gets w_data ;;
  match port data with
  | None => error "MidiInJack::openVirtualPort: JACK error creating virtual port"
  | Some _ => ret tt
  end.

Definition close_port : M unit :=
  data <- gets w_data ;;
  match port data with
  | None => ret tt
  | Some _ =>
      jack_port_unregister (client data) (port data) ;;
      modify (with_data (set_port None))
  end.

Definition set_client_name (clientName : string) : M unit :=
  warning ("MidiInJack::setClientName: this function is not implemented for the "
           ++ "UNIX_JACK API!").

(** [RTMIDI17_JACK_HAS_PORT_RENAME] is a compile-time switch. *)
Definition set_port_name (RTMIDI17_JACK_HAS_PORT_RENAME : bool)
    (portName : string) : M unit :=
  data <- gets w_data ;;
  if RTMIDI17_JACK_HAS_PORT_RENAME
  then jack_port_rename (client data) (port data) portName
  else jack_port_set_name (port data) portName.

(** The instance before the constructor's body runs. *)
Definition fresh (cname : string) (queueSizeLimit : nat) (s : server) : world :=
  {| w_data := jack_data_init; w_in := in_data_init queueSizeLimit;
     w_srv := s; w_clientName := cname; w_thread := UserThread;
     w_trace := [] |}.

(** The constructor. *)
Definition create (cname : string) (queueSizeLimit : nat) (s : server)
  : result unit * world :=
  (modify (with_data (set_port None)) ;;
   modify (with_data (set_client None)) ;;
   connect) (fresh cname queueSizeLimit s).

(** The destructor. *)
Definition destroy : M unit :=
  close_port ;;
  data <- gets w_data ;;
  match client data with
  | Some c => jack_client_close c
  | None => ret tt
  end.

End midi_in_jack.

(* ================================================================= *)
(** ** The output backend, [class midi_out_jack] *)

Module midi_out_jack.

Definition send_message (message : list byte) : M unit :=
  let size := Z.of_nat (length message) in
  let nBytes := int32 size in
  jack_ringbuffer_write BuffMessage message (uint64 nBytes) ;;
  jack_ringbuffer_write BuffSize (int_to_bytes nBytes) 4 ;;
  ret tt.

(** One iteration of the loop of [jackProcessOut]. *)
Definition drain_one : M unit :=
  record <- jack_ringbuffer_read BuffSize 4 ;;
  let space := int_of_bytes record in
  jack_midi_event_reserve 0 (uint64 space) ;;
  midiData <- jack_ringbuffer_read BuffMessage (uint64 space) ;;
  push_event {| ev_time := 0; ev_size := uint64 space; ev_data := midiData |}.

(** The loop [while (jack_ringbuffer_read_space(data.buffSize) > 0)].
    Every iteration takes at least one byte out of the size ringbuffer,
    so the number of readable bytes bounds the number of iterations. *)
Fixpoint drain (fuel : nat) : M unit :=
  match fuel with
  | O => ret tt
  | S fuel' =>
      n <- jack_ringbuffer_read_space BuffSize ;;
      if 0 <? n then drain_one ;; drain fuel' else ret tt
  end.

Definition drain_fuel (w : world) : nat :=
  match buffSize (w_data w) with
  | Some rb => S (length (rb_data rb))
  | None => 1%nat
  end.

Definition jackProcessOut (nframes : Z) : M Z :=
  data <- gets w_data ;;
  match port data with
  | None => ret 0
  | Some p =>
      jack_port_get_buffer p nframes ;;
      jack_midi_clear_buffer ;;
      fuel <- gets drain_fuel ;;
      drain fuel ;;
      acquired <- sem_try_wait SemNeedpost ;;
      (if negb acquired then sem_notify SemCleanup else ret tt) ;;
      ret 0
  end.

(** One process cycle of the server: the registered callback, if the
    client is active, on the real-time thread. *)
Definition process_cycle (nframes : Z) : M unit :=
  s <- gets w_srv ;;
  if srv_active s then
    match srv_callback s with
    | Some ProcessOut => on_rt_thread (jackProcessOut nframes) ;; ret tt
    | Some ProcessIn => on_rt_thread (midi_in_jack.jackProcessIn nframes) ;; ret tt
    | None => ret tt
    end
  else ret tt.

Definition connect : M unit :=
  data <- gets w_data ;;
  match client data with
  | Some _ => ret tt
  | None =>
      rb <- jack_ringbuffer_create ringbuffer_size ;;
      modify (with_data (set_ring BuffSize rb)) ;;
      rb <- jack_ringbuffer_create ringbuffer_size ;;
      modify (with_data (set_ring BuffMessage rb)) ;;
      clientName <- gets w_clientName ;;
      c <- jack_client_open clientName ;;
      modify (with_data (set_client c)) ;;
      match c with
      | None => warning "MidiOutJack::initialize: JACK server not running?"
      | Some c =>
          jack_set_process_callback c ProcessOut ;;
          jack_activate c
      end
  end.

Definition get_port_count : M nat :=
  connect ;;
  data <- gets w_data ;;
  match client data with
  | None => ret 0%nat
  | Some _ =>
      ports <- jack_get_ports (client data) JackPortIsInput ;;
      match ports with
      | None => ret 0%nat
      | Some ports =>
          let count := length ports in
          jack_free ;;
          ret count
      end
  end.

Definition get_port_name (portNumber : nat) : M string :=
  let retStr := EmptyString in
  connect ;;
  data <- gets w_data ;;
  ports <- jack_get_ports (client data) JackPortIsInput ;;
  match ports with
  | None =>
      warning "MidiOutJack::getPortName: no ports available!" ;;
      ret retStr
  | Some ports =>
      entry <- array_at ports portNumber ;;
      retStr <- match entry with
                | None =>
                    warning ("MidiOutJack::getPortName: the 'portNumber' argument ("
                             ++ string_of_nat portNumber ++ ") is invalid.") ;;
                    ret retStr
                | Some name => ret name
                end ;;
      jack_free ;;
      ret retStr
  end.

Definition open_port (portNumber : nat) (portName : string) : M unit :=
  connect ;;
  data <- gets w_data ;;
  match port data with
  | None =>
      p <- jack_port_register (client data) portName JackPortIsOutput ;;
      modify (with_data (set_port p))
  | Some _ => ret tt
  end ;;
  data <- gets w_data ;;
  match port data with
  | None => error "MidiOutJack::openPort: JACK error creating port"
  | Some p =>
      name <- get_port_name portNumber ;;
      local <- jack_port_name p ;;
      jack_connect (client data) local name
  end.

Definition open_virtual_port (portName : string) : M unit :=
  connect ;;
  data <- gets w_data ;;
  match port data with
  | None =>
      p <- jack_port_register (client data) portName JackPortIsOutput ;;
      modify (with_data (set_port p))
  | Some _ => ret tt
  end ;;
  data <- gets w_data ;;
  match port data with
  | None => error "MidiOutJack::openVirtualPort: JACK error creating virtual port"
  | Some _ => ret tt
  end.

Definition close_port : M unit :=
  data <- gets w_data ;;
  match port data with
  | None => ret tt
  | Some _ =>
      sem_notify SemNeedpost ;;
      sem_wait_for process_cycle SemCleanup 1000 ;;
      data <- gets w_data ;;
      jack_port_unregister (client data) (port data) ;;
      modify (with_data (set_port None))
  end.

Definition set_client_name (clientName : string) : M unit :=
  warning ("MidiOutJack::setClientName: this function is not implemented for the "
           ++ "UNIX_JACK API!").

Definition set_port_name (RTMIDI17_JACK_HAS_PORT_RENAME : bool)
    (portName : string) : M unit :=
  data <- gets w_data ;;
  if RTMIDI17_JACK_HAS_PORT_RENAME
  then jack_port_rename (client data) (port data) portName
  else jack_port_set_name (port data) portName.

Definition fresh (cname : string) (s : server) : world :=
  {| w_data := jack_data_init; w_in := in_data_init 0;
     w_srv := s; w_clientName := cname; w_thread := UserThread;
     w_trace := [] |}.

(** The constructor. *)
Definition create (cname : string) (s : server) : result unit * world :=
  (modify (with_data (set_port None)) ;;
   modify (with_data (set_client None)) ;;
   connect) (fresh cname s).

(** The destructor. *)
Definition destroy : M unit :=
  close_port ;;
  data <- gets w_data ;;
  jack_ringbuffer_free (buffSize data) ;;
  jack_ringbuffer_free (buffMessage data) ;;
  match client data with
  | Some c => jack_client_close c
  | None => ret tt
  end.

End midi_out_jack.

(* ================================================================= *)
(** ** The vocabulary of the properties *)

(** *** Framing *)

Definition add_trace (l : list (thread * call)) (w : world) : world :=
  {| w_data := w_data w; w_in := w_in w; w_srv := w_srv w;
     w_clientName := w_clientName w; w_thread := w_thread w;
     w_trace := w_trace w ++ l |}.

Definition size_record (m : list byte) : list byte :=
  int_to_bytes (Z.of_nat (length m)).

Definition total_bytes (msgs : list (list byte)) : Z :=
  Z.of_nat (length (concat msgs)).

Fixpoint send_messages (msgs : list (list byte)) : M unit :=
  match msgs with
  | [] => ret tt
  | m :: rest => midi_out_jack.send_message m ;; send_messages rest
  end.

(** What [send_message] logs for one payload, and what one iteration of
    the consumer logs for it. *)
Definition send_log (t : thread) (m : list byte) : list (thread * call) :=
  [ (t, RingbufferWrite BuffMessage m (Z.of_nat (length m)));
    (t, RingbufferWrite BuffSize (size_record m) 4) ].

Definition drain_log (t : thread) (m : list byte) : list (thread * call) :=
  [ (t, RingbufferRead BuffSize 4);
    (t, MidiEventReserve 0 (Z.of_nat (length m)));
    (t, RingbufferRead BuffMessage (Z.of_nat (length m))) ].

Definition event_of (m : list byte) : midi_event :=
  {| ev_time := 0; ev_size := Z.of_nat (length m); ev_data := m |}.

(** *** What the output callback leaves *)

(** The world the real-time callback leaves: the rings, the semaphores, the
    outbound port buffer and the log are all it touches. *)
Definition rt_world (w : world) (rs rm : option jack_ringbuffer_t)
    (sc sn : semaphore) (ob : list midi_event) (l : list (thread * call)) : world :=
  {| w_data :=
       {| client := client (w_data w); port := port (w_data w);
          buffSize := rs; buffMessage := rm;
          lastTime := lastTime (w_data w);
          sem_cleanup := sc; sem_needpost := sn |};
     w_in := w_in w;
     w_srv := set_srv_outbuf ob (w_srv w);
     w_clientName := w_clientName w;
     w_thread := w_thread w;
     w_trace := w_trace w ++ l |}.

Definition is_drain_call (c : call) : bool :=
  match c with
  | RingbufferRead _ _ | MidiEventReserve _ _ => true
  | _ => false
  end.

Definition drain_entry (t : thread) (e : thread * call) : Prop :=
  fst e = t /\ is_drain_call (snd e) = true.

Definition ack_log (t : thread) (sn : semaphore) : list (thread * call) :=
  if sn then [ (t, SemTryWait SemNeedpost false); (t, SemNotify SemCleanup) ]
  else [ (t, SemTryWait SemNeedpost true) ].

Definition enter_log (t : thread) (p : jack_port_t) (nframes : Z)
  : list (thread * call) :=
  [ (t, PortGetBuffer p nframes); (t, MidiClearBuffer) ].

(** The world at the head of the loop of [jackProcessOut]. *)
Definition entered (w : world) (p : jack_port_t) (nframes : Z) : world :=
  rt_world w (buffSize (w_data w)) (buffMessage (w_data w))
    (sem_cleanup (w_data w)) (sem_needpost (w_data w)) []
    (enter_log (w_thread w) p nframes).

(** *** Sample environments and payloads *)

Definition sample_peers (d : direction) : list string :=
  match d with
  | JackPortIsInput => ["system:midi_playback_1"%string]
  | JackPortIsOutput => ["system:midi_capture_1"%string]
  end.

(** A running server with one peer port in each direction, which runs
    every cycle it is asked for. *)
Definition jack_running : server :=
  {| srv_running := true; srv_accept := fun _ => true;
     srv_peers := sample_peers;
     srv_clock := [5; 100005; 250005];
     srv_cycles := [[64; 64]];
     srv_next := 1%nat; srv_ports := []; srv_callback := None;
     srv_active := false; srv_inbuf := []; srv_outbuf := [] |}.

(** No server. *)
Definition jack_stopped : server :=
  {| srv_running := false; srv_accept := fun _ => true;
     srv_peers := sample_peers;
     srv_clock := []; srv_cycles := [];
     srv_next := 1%nat; srv_ports := []; srv_callback := None;
     srv_active := false; srv_inbuf := []; srv_outbuf := [] |}.

(** An output instance on the running server with its virtual port open. *)
Definition out_open : world :=
  exec (midi_out_jack.open_virtual_port "out")
       (snd (midi_out_jack.create "t1" jack_running)).

Definition note_on : list byte := [Byte.x90; Byte.x3c; Byte.x7f].
Definition control_change : list byte := [Byte.xb0; Byte.x07; Byte.x40].

(** *** The close handshake *)

Definition is_unregister (e : thread * call) : bool :=
  match snd e with PortUnregister _ _ => true | _ => false end.

Definition is_ack (e : thread * call) : bool :=
  match snd e with SemNotify SemCleanup => true | _ => false end.

Definition is_nil {A} (l : list A) : bool :=
  match l with [] => true | _ => false end.

(** The cycles the server runs during the next timed wait. *)
Definition next_cycles (w : world) : list Z := hd [] (srv_cycles (w_srv w)).

(** The world in which [close_port] starts to wait: the request is
    signalled and the cycles of this wait are taken off the schedule. *)
Definition requested (w : world) : world :=
  with_srv (set_srv_cycles (tl (srv_cycles (w_srv w))))
    (log (SemNotify SemNeedpost) (with_data (set_sem SemNeedpost true) w)).

(** An output instance with a port open on which an ack is left over:
    the wait of a first [close_port] timed out, a port was opened again,
    and one process cycle has run since.  The server is active and would
    run two process cycles during the next wait. *)
Definition stale_ack_state : world :=
  let w0 := with_srv (set_srv_cycles [[]; [64; 64]]) out_open in
  let w1 := exec midi_out_jack.close_port w0 in
  let w2 := exec (midi_out_jack.open_virtual_port "again") w1 in
  exec (midi_out_jack.process_cycle 64) w2.

(** *** Operations that never raise, repeated operations *)

Definition no_raise {A} (m : M A) : Prop :=
  forall w e, fst (m w) <> Raise e.

Fixpoint repeat_op (n : nat) (m : M unit) : M unit :=
  match n with
  | O => ret tt
  | S k => m ;; repeat_op k m
  end.

(** *** Opening ports *)

Definition is_register (e : thread * call) : bool :=
  match snd e with PortRegister _ _ _ _ => true | _ => false end.

(** The calls to [jack_port_register] in the log, and the ports the server
    holds for the client. *)
Definition registrations (w : world) : list (thread * call) :=
  filter is_register (w_trace w).

Definition registered (w : world) : list port_entry := srv_ports (w_srv w).

(** What an operation that opens may do to the port: with a port open it
    keeps the port and the server's registry and registers nothing; with
    none it either leaves none or has the server register one. *)
Definition open_step (w w' : world) : Prop :=
  match port (w_data w) with
  | Some p =>
      port (w_data w') = Some p
      /\ registered w' = registered w
      /\ registrations w' = registrations w
  | None =>
      (port (w_data w') = None /\ registered w' = registered w)
      \/ (exists e, port (w_data w') = Some (pe_handle e)
                    /\ registered w' = registered w ++ [e])
  end.

Definition steps {A} (m : M A) : Prop := forall w, open_step w (snd (m w)).

(** The port handle and the server's registry agree. *)
Definition port_singleton (w : world) : Prop :=
  map pe_handle (registered w) =
  match port (w_data w) with Some p => [p] | None => [] end.

Inductive backend := Input | Output.

Inductive open_call :=
| open_port_call (portNumber : nat) (portName : string)
| open_virtual_port_call (portName : string).

Definition open_op (b : backend) (c : open_call) : M unit :=
  match b, c with
  | Input, open_port_call i n => midi_in_jack.open_port i n
  | Input, open_virtual_port_call n => midi_in_jack.open_virtual_port n
  | Output, open_port_call i n => midi_out_jack.open_port i n
  | Output, open_virtual_port_call n => midi_out_jack.open_virtual_port n
  end.

(** A sequence of opens; the caller goes on after an open that raised. *)
Fixpoint run_opens (b : backend) (cs : list open_call) (w : world) : world :=
  match cs with
  | [] => w
  | c :: rest => run_opens b rest (exec (open_op b c) w)
  end.

(** An input instance on the running server, before any port is opened. *)
Definition in_created : world := snd (midi_in_jack.create "t1" 100 jack_running).

(** *** The input callback *)

(** The reading of the clock the next call of [jack_get_time] returns. *)
Definition next_time (w : world) : Z :=
  match srv_clock (w_srv w) with
  | [] => 0
  | t :: _ => uint64 t
  end.

Definition delta_seconds (t_now last : Z) : double :=
  double_mul (double_of_uint64 (uint64 (t_now - last))) double_1e_6.

(** The message [jackProcessIn] builds for an event. *)
Definition stamp (w : world) (event : list byte) : message :=
  {| bytes := event;
     timestamp :=
       if firstMessage (w_in w) then double_zero
       else delta_seconds (next_time w) (lastTime (w_data w)) |}.

Definition queue_full_notice : string :=
  (nl ++ "MidiInJack: message queue limit reached!!" ++ nl ++ nl)%string.

(** What the delivery of a message logs, and the queue it leaves. *)
Definition delivery (i : in_data) (t : thread) (m : message) : list (thread * call) :=
  if continueSysex i then []
  else if userCallback i then [(t, UserCallback m)]
  else if Nat.ltb (length (queue i)) (queueSizeLimit i) then [(t, QueuePush m true)]
  else [(t, QueuePush m false); (t, Cerr queue_full_notice)].

Definition queue_after (i : in_data) (m : message) : list message :=
  if continueSysex i then queue i
  else if userCallback i then queue i
  else if Nat.ltb (length (queue i)) (queueSizeLimit i) then queue i ++ [m]
  else queue i.

Definition after_event (event : list byte) (w : world) : world :=
  {| w_data := set_lastTime (next_time w) (w_data w);
     w_in := set_firstMessage false
               (set_queue (queue_after (w_in w) (stamp w event)) (w_in w));
     w_srv := set_srv_clock (tl (srv_clock (w_srv w))) (w_srv w);
     w_clientName := w_clientName w;
     w_thread := w_thread w;
     w_trace := w_trace w ++ delivery (w_in w) (w_thread w) (stamp w event) |}.

(** The messages handed to the application, in order: to the user
    callback or into the queue. *)
Definition delivered_message (e : thread * call) : option message :=
  match snd e with
  | UserCallback m => Some m
  | QueuePush m true => Some m
  | _ => None
  end.

Fixpoint delivered (tr : list (thread * call)) : list message :=
  match tr with
  | [] => []
  | e :: rest =>
      match delivered_message e with
      | Some m => m :: delivered rest
      | None => delivered rest
      end
  end.


(** What a run of the loop over [events] logs. *)
Fixpoint run_log (events : list (list byte)) (w : world) : list (thread * call) :=
  match events with
  | [] => []
  | event :: rest =>
      delivery (w_in w) (w_thread w) (stamp w event)
      ++ run_log rest (after_event event w)
  end.

Fixpoint after_events (events : list (list byte)) (w : world) : world :=
  match events with
  | [] => w
  | event :: rest => after_events rest (after_event event w)
  end.

(** An input instance with its virtual port open. *)
Definition in_open : world := exec (midi_in_jack.open_virtual_port "in") in_created.



(** *** An instance without a server *)

(** The world a failed [connect] leaves, for each backend. *)
Definition in_failed_connect (w : world) : world :=
  log (Warning "MidiInJack::initialize: JACK server not running?")
    (with_data (set_client None) (log (ClientOpen (w_clientName w) None) w)).

Definition out_failed_connect (w : world) : world :=
  log (Warning "MidiOutJack::initialize: JACK server not running?")
    (with_data (set_client None)
       (log (ClientOpen (w_clientName w) None)
          (with_data (set_ring BuffMessage
                        (Some (jack_ringbuffer_create_pure ringbuffer_size)))
             (log (RingbufferCreate ringbuffer_size)
                (with_data (set_ring BuffSize
                              (Some (jack_ringbuffer_create_pure ringbuffer_size)))
                   (log (RingbufferCreate ringbuffer_size) w)))))).

(** What [open_port] leaves when the registration has failed on a null
    client. *)
Definition failed_open (d : direction) (name msg : string) (w : world) : world :=
  log (Error msg)
    (with_data (set_port None) (log (PortRegister None name d None) w)).

(** The instances the constructors leave when there is no server. *)
Definition in_orphan : world := snd (midi_in_jack.create "t1" 100 jack_stopped).
Definition out_orphan : world := snd (midi_out_jack.create "t1" jack_stopped).

(** *** Renaming, enumeration, the lifetime of the ringbuffers *)

(** The call [set_port_name] makes to the server, for either setting of
    [RTMIDI17_JACK_HAS_PORT_RENAME]. *)
Definition rename_call (has_port_rename : bool) (w : world) (name : string) : call :=
  if has_port_rename
  then PortRename (client (w_data w)) (port (w_data w)) name
  else PortSetName (port (w_data w)) name.

(** An output instance on the running server, before any port is opened. *)
Definition out_created : world := snd (midi_out_jack.create "t1" jack_running).

Definition is_ringbuffer_create (e : thread * call) : bool :=
  match snd e with RingbufferCreate _ => true | _ => false end.

Definition is_ringbuffer_free (e : thread * call) : bool :=
  match snd e with RingbufferFree => true | _ => false end.

Definition count_calls (f : thread * call -> bool) (w : world) : nat :=
  length (filter f (w_trace w)).

(** *** The two backends side by side *)

(** The direction flag of the ports a backend enumerates and connects to,
    the flag of the port it registers, and the callback it registers. *)
Definition peer_direction (b : backend) : direction :=
  match b with Input => JackPortIsOutput | Output => JackPortIsInput end.

Definition own_direction (b : backend) : direction :=
  match b with Input => JackPortIsInput | Output => JackPortIsOutput end.

Definition callback_of (b : backend) : process_callback :=
  match b with Input => ProcessIn | Output => ProcessOut end.

Definition connect_of (b : backend) : M unit :=
  match b with
  | Input => midi_in_jack.connect
  | Output => midi_out_jack.connect
  end.

Definition get_port_count_of (b : backend) : M nat :=
  match b with
  | Input => midi_in_jack.get_port_count
  | Output => midi_out_jack.get_port_count
  end.

Definition get_port_name_of (b : backend) (i : nat) : M string :=
  match b with
  | Input => midi_in_jack.get_port_name i
  | Output => midi_out_jack.get_port_name i
  end.

Definition open_port_of (b : backend) (i : nat) (name : string) : M unit :=
  open_op b (open_port_call i name).

Definition open_virtual_port_of (b : backend) (name : string) : M unit :=
  open_op b (open_virtual_port_call name).

Definition close_port_of (b : backend) : M unit :=
  match b with
  | Input => midi_in_jack.close_port
  | Output => midi_out_jack.close_port
  end.

(** The world a successful [connect] leaves: the client opened under the
    server's next handle, the callback of the backend registered, the
    client activated. *)
Definition client_opened (b : backend) (w : world) : world :=
  let n := srv_next (w_srv w) in
  log (Activate n)
    (with_srv (set_srv_active true)
       (log (SetProcessCallback n (callback_of b))
          (with_srv (set_srv_callback (Some (callback_of b)))
             (with_data (set_client (Some n))
                (log (ClientOpen (w_clientName w) (Some n))
                   (with_srv (set_srv_next (S n)) w)))))).

(** The world after the two ringbuffers have been created. *)
Definition rings_created (w : world) : world :=
  with_data (set_ring BuffMessage
               (Some (jack_ringbuffer_create_pure ringbuffer_size)))
    (log (RingbufferCreate ringbuffer_size)
       (with_data (set_ring BuffSize
                     (Some (jack_ringbuffer_create_pure ringbuffer_size)))
          (log (RingbufferCreate ringbuffer_size) w))).

Definition connected (b : backend) (w : world) : world :=
  match b with
  | Input => client_opened Input w
  | Output => client_opened Output (rings_created w)
  end.

Definition connect_log (b : backend) (w : world) : list (thread * call) :=
  let t := w_thread w in
  let n := srv_next (w_srv w) in
  match b with
  | Input => []
  | Output => [ (t, RingbufferCreate ringbuffer_size);
                (t, RingbufferCreate ringbuffer_size) ]
  end
  ++ [ (t, ClientOpen (w_clientName w) (Some n));
       (t, SetProcessCallback n (callback_of b));
       (t, Activate n) ].

(** *** Opening a port on a connected instance *)

Definition class_name (b : backend) : string :=
  match b with Input => "MidiInJack" | Output => "MidiOutJack" end.

Definition no_ports_warning (b : backend) : string :=
  (class_name b ++ "::getPortName: no ports available!")%string.

Definition invalid_index_warning (b : backend) (i : nat) : string :=
  (class_name b ++ "::getPortName: the 'portNumber' argument ("
   ++ string_of_nat i ++ ") is invalid.")%string.

(** The entry the server adds for a port registered by backend [b], and
    the world after the registration has succeeded and the handle is
    stored. *)
Definition new_entry (b : backend) (name : string) (w : world) : port_entry :=
  {| pe_handle := srv_next (w_srv w); pe_name := name; pe_dir := own_direction b |}.

Definition port_registered (b : backend) (c : jack_client_t) (name : string)
    (w : world) : world :=
  with_data (set_port (Some (srv_next (w_srv w))))
    (log (PortRegister (Some c) name (own_direction b) (Some (srv_next (w_srv w))))
       (with_srv (fun s =>
          set_srv_next (S (srv_next s))
            (set_srv_ports (srv_ports s ++ [new_entry b name w]) s)) w)).

(** The full name of the port just registered. *)
Definition own_name (w : world) (name : string) : string :=
  (w_clientName w ++ ":" ++ name)%string.

(** The call to [jack_connect] of [open_port]: the input backend connects
    the peer to its own port, the output backend its own port to the
    peer. *)
Definition connect_call (b : backend) (c : jack_client_t) (own peer : string) : call :=
  match b with
  | Input => Connect (Some c) peer own
  | Output => Connect (Some c) own peer
  end.

(** What [get_port_name] logs on a connected instance, and what it
    returns, where it returns. *)
Definition name_lookup_log (b : backend) (c : jack_client_t) (i : nat) (w : world)
  : list (thread * call) :=
  let t := w_thread w in
  let peers := srv_peers (w_srv w) (peer_direction b) in
  (t, GetPorts (Some c) (peer_direction b))
  :: match peers with
     | [] => [(t, Warning (no_ports_warning b))]
     | _ =>
         match nth_error peers i with
         | Some _ => [(t, Free)]
         | None =>
             if Nat.eqb i (length peers)
             then [(t, Warning (invalid_index_warning b i)); (t, Free)]
             else []
         end
     end.

Definition name_lookup_result (b : backend) (i : nat) (w : world) : result string :=
  let peers := srv_peers (w_srv w) (peer_direction b) in
  match peers with
  | [] => Ok EmptyString
  | _ =>
      match nth_error peers i with
      | Some name => Ok name
      | None => if Nat.eqb i (length peers) then Ok EmptyString else Undefined
      end
  end.

(** The error messages of the opens. *)
Definition open_error (b : backend) (virtual : bool) : string :=
  (class_name b ++
   (if virtual then "::openVirtualPort: JACK error creating virtual port"
    else "::openPort: JACK error creating port"))%string.

(** The world after a registration the server has refused. *)
Definition port_refused (b : backend) (c : jack_client_t) (name : string)
    (virtual : bool) (w : world) : world :=
  log (Error (open_error b virtual))
    (with_data (set_port None)
       (log (PortRegister (Some c) name (own_direction b) None) w)).

(** *** The life of the port over all public operations *)

(** The handles of the ports the server holds for the client. *)
Definition handles (w : world) : list jack_port_t := map pe_handle (registered w).

(** The port handle and the server's registry agree, and an instance with
    a port open is connected. *)
Definition lifecycle_inv (w : world) : Prop :=
  port_singleton w
  /\ (port (w_data w) <> None -> client (w_data w) <> None).

(** What an operation that neither opens nor closes does to the port: it
    keeps the port handle and the handles the server holds, and it keeps
    the client of a connected instance. *)
Definition kept (w w' : world) : Prop :=
  port (w_data w') = port (w_data w)
  /\ handles w' = handles w
  /\ (client (w_data w) <> None -> client (w_data w') = client (w_data w)).

Definition keeps {A} (m : M A) : Prop := forall w, kept w (exec m w).

Definition preserves {A} (I : world -> Prop) (m : M A) : Prop :=
  forall w, I w -> I (exec m w).

(** The public operations of a backend, and a process cycle of the
    server. *)
Inductive api_call :=
| call_open_port (portNumber : nat) (portName : string)
| call_open_virtual_port (portName : string)
| call_close_port
| call_set_client_name (clientName : string)
| call_set_port_name (has_port_rename : bool) (portName : string)
| call_get_port_count
| call_get_port_name (portNumber : nat)
| call_send_message (message : list byte)
| call_process_cycle (nframes : Z).

(** The input backend has no [send_message]. *)
Definition api_op (b : backend) (c : api_call) : M unit :=
  match c with
  | call_open_port i n => open_port_of b i n
  | call_open_virtual_port n => open_virtual_port_of b n
  | call_close_port => close_port_of b
  | call_set_client_name n =>
      match b with
      | Input => midi_in_jack.set_client_name n
      | Output => midi_out_jack.set_client_name n
      end
  | call_set_port_name f n =>
      match b with
      | Input => midi_in_jack.set_port_name f n
      | Output => midi_out_jack.set_port_name f n
      end
  | call_get_port_count => get_port_count_of b ;; ret tt
  | call_get_port_name i => get_port_name_of b i ;; ret tt
  | call_send_message m =>
      match b with
      | Input => ret tt
      | Output => midi_out_jack.send_message m
      end
  | call_process_cycle nframes => midi_out_jack.process_cycle nframes
  end.

(** A sequence of calls; the caller goes on after a call that raised. *)
Fixpoint run_api (b : backend) (cs : list api_call) (w : world) : world :=
  match cs with
  | [] => w
  | c :: rest => run_api b rest (exec (api_op b c) w)
  end.

(** *** A whole run of the input callback *)

(** The messages built for [events] in order, from the first-message flag,
    the time of the last event and the readings of the clock to come: the
    first carries zero when the flag is set, every other one the time since
    the event before it. *)
Fixpoint stamped (first : bool) (last : Z) (clock : list Z)
    (events : list (list byte)) : list message :=
  match events with
  | [] => []
  | event :: rest =>
      let t_now := match clock with [] => 0 | t :: _ => uint64 t end in
      {| bytes := event;
         timestamp := if first then double_zero else delta_seconds t_now last |}
      :: stamped false t_now (tl clock) rest
  end.

(** The number of messages the queue still takes. *)
Definition room (i : in_data) : nat := (queueSizeLimit i - length (queue i))%nat.

(** *** Messages sent before a port is open *)

(** Process cycles of the server, one after the other. *)
Fixpoint process_cycles (cycles : list Z) : M unit :=
  match cycles with
  | [] => ret tt
  | nframes :: rest => midi_out_jack.process_cycle nframes ;; process_cycles rest
  end.

(** *** An ack left over from an earlier request *)

(** The world [close_port] leaves once its wait has ended in [w3] with
    result [r], on a connected instance. *)
Definition closed (c : jack_client_t) (p : jack_port_t) (r : bool) (w3 : world)
  : world :=
  with_data (set_port None)
    (log (PortUnregister (Some c) (Some p))
       (with_srv (fun s =>
          set_srv_ports
            (filter (fun e => negb (Nat.eqb (pe_handle e) p)) (srv_ports s)) s)
          (log (SemWaitFor SemCleanup 1000 r) w3))).

(** *** Defined behaviour *)

(** Both ringbuffers have been created, and the payload ringbuffer is no
    larger than [connect] makes it. *)
Definition rings_exist (w : world) : Prop :=
  exists rs rm,
    buffSize (w_data w) = Some rs
    /\ buffMessage (w_data w) = Some rm
    /\ rb_size rm <= ringbuffer_size.

(** What the operations of backend [b] rely on, with [peers] the peer
    ports of the server: an output instance has its ringbuffers; an input
    instance has none, and the callback the server runs for it is not the
    output callback. *)
Definition sound (b : backend) (peers : direction -> list string) (w : world)
  : Prop :=
  srv_peers (w_srv w) = peers
  /\ match b with
     | Output => rings_exist w
     | Input => srv_callback (w_srv w) <> Some ProcessOut
     end.

(** An operation that stays within defined behaviour from every world in
    which [I] holds, and keeps [I]. *)
Definition safe {A} (I : world -> Prop) (m : M A) : Prop :=
  forall w, I w -> outcome m w <> Undefined /\ I (exec m w).

(** A port number that [get_port_name] may be given: no peer port at all,
    or at most the number of peer ports. *)
Definition in_range (b : backend) (peers : direction -> list string) (i : nat)
  : Prop :=
  peers (peer_direction b) = [] \/ (i <= length (peers (peer_direction b)))%nat.

Definition call_in_range (b : backend) (peers : direction -> list string)
    (c : api_call) : Prop :=
  match c with
  | call_open_port i _ => in_range b peers i
  | call_get_port_name i => in_range b peers i
  | _ => True
  end.

(** No call of the sequence leaves defined behaviour. *)
Fixpoint defined (b : backend) (cs : list api_call) (w : world) : Prop :=
  match cs with
  | [] => True
  | c :: rest =>
      outcome (api_op b c) w <> Undefined /\ defined b rest (exec (api_op b c) w)
  end.

(** The constructor and the destructor of backend [b]; the queue size
    limit belongs to the input backend. *)
Definition create_of (b : backend) (cname : string) (queueSizeLimit : nat)
    (s : server) : result unit * world :=
  match b with
  | Input => midi_in_jack.create cname queueSizeLimit s
  | Output => midi_out_jack.create cname s
  end.

Definition destroy_of (b : backend) : M unit :=
  match b with
  | Input => midi_in_jack.destroy
  | Output => midi_out_jack.destroy
  end.

(** *** The destructor *)

(** What the destructor of backend [b] logs between closing the port and
    closing the client. *)
Definition frees (b : backend) (t : thread) : list (thread * call) :=
  match b with
  | Input => []
  | Output => [(t, RingbufferFree); (t, RingbufferFree)]
  end.

(** *** Connecting late *)

(** The operations that start with [connect]. *)
Definition connects_first (c : api_call) : bool :=
  match c with
  | call_open_port _ _ | call_open_virtual_port _
  | call_get_port_count | call_get_port_name _ => true
  | _ => false
  end.

(* ================================================================= *)
(** * Properties *)

(* ================================================================= *)
(** ** Bytes and length records *)

Lemma Z_of_byte_of_Z (z : Z) : Z_of_byte (byte_of_Z z) = z mod 256.
Proof.
  unfold Z_of_byte, byte_of_Z.
  assert (Hr : 0 <= z mod 256 < 256) by (apply Z.mod_pos_bound; lia).
  destruct (Byte.of_N (Z.to_N (z mod 256))) as [b|] eqn:E.
  - apply Byte.to_of_N in E. rewrite E. lia.
  - apply Byte.of_N_None_iff in E. lia.
Qed.

Lemma le_value_int_to_bytes (n : Z) : le_value (int_to_bytes n) = n mod 2 ^ 32.
Proof.
  unfold int_to_bytes, le_value.
  rewrite !Z_of_byte_of_Z, !Z.shiftr_div_pow2 by lia.
  change (2 ^ 8) with 256. change (2 ^ 16) with 65536.
  change (2 ^ 24) with 16777216. change (2 ^ 32) with 4294967296.
  Z.div_mod_to_equations. lia.
Qed.

Lemma int32_small (n : Z) : - 2 ^ 31 <= n < 2 ^ 31 -> int32 n = n.
Proof.
  intros H. unfold int32.
  rewrite Z.mod_small by lia. lia.
Qed.

Lemma int_of_bytes_int_to_bytes (n : Z) :
  - 2 ^ 31 <= n < 2 ^ 31 -> int_of_bytes (int_to_bytes n) = n.
Proof.
  intros H. unfold int_of_bytes.
  change (firstn 4 (int_to_bytes n)) with (int_to_bytes n).
  rewrite le_value_int_to_bytes. unfold int32.
  rewrite <- (int32_small n H) at 2. unfold int32.
  f_equal. rewrite Zplus_mod_idemp_l. reflexivity.
Qed.

Lemma uint64_small (n : Z) : 0 <= n < 2 ^ 64 -> uint64 n = n.
Proof. intros H. unfold uint64. apply Z.mod_small. exact H. Qed.

(* ================================================================= *)
(** ** Framing through the ringbuffer pair *)

Lemma firstn_length_app {A} (l r : list A) : firstn (length l) (l ++ r) = l.
Proof.
  rewrite firstn_app, Nat.sub_diag, firstn_all. simpl. apply app_nil_r.
Qed.

Lemma skipn_length_app {A} (l r : list A) : skipn (length l) (l ++ r) = r.
Proof.
  rewrite skipn_app, Nat.sub_diag, skipn_all. reflexivity.
Qed.

Lemma jack_ringbuffer_write_spec (r : ring_id) (src : list byte) (w : world)
    (rb : jack_ringbuffer_t) :
  ring r (w_data w) = Some rb ->
  Z.of_nat (length src) <= rb_size rb - rb_read_space rb ->
  jack_ringbuffer_write r src (Z.of_nat (length src)) w =
  (Ok (Z.of_nat (length src)),
   log (RingbufferWrite r src (Z.of_nat (length src)))
     (with_data
        (set_ring r (Some {| rb_size := rb_size rb; rb_data := rb_data rb ++ src |}))
        w)).
Proof.
  intros Hr Hfit.
  unfold jack_ringbuffer_write, bind, gets. rewrite Hr.
  unfold rb_write, rb_write_space.
  rewrite Z.min_l by lia.
  rewrite Z.ltb_irrefl, Nat2Z.id, firstn_all.
  reflexivity.
Qed.

Lemma send_message_spec (m : list byte) (w : world) (rs rm : jack_ringbuffer_t) :
  buffSize (w_data w) = Some rs ->
  buffMessage (w_data w) = Some rm ->
  Z.of_nat (length m) < 2 ^ 31 ->
  Z.of_nat (length m) <= rb_size rm - rb_read_space rm ->
  4 <= rb_size rs - rb_read_space rs ->
  midi_out_jack.send_message m w =
  (Ok tt,
   add_trace (send_log (w_thread w) m)
     (with_data (fun d =>
        set_ring BuffSize
          (Some {| rb_size := rb_size rs; rb_data := rb_data rs ++ size_record m |})
          (set_ring BuffMessage
             (Some {| rb_size := rb_size rm; rb_data := rb_data rm ++ m |}) d)) w)).
Proof.
  intros Hs Hm Hlt Hfit Hfit4.
  unfold midi_out_jack.send_message, bind.
  rewrite int32_small by lia.
  rewrite uint64_small by lia.
  rewrite (jack_ringbuffer_write_spec BuffMessage m w rm Hm Hfit).
  change 4 with (Z.of_nat (length (int_to_bytes (Z.of_nat (length m))))) at 1.
  erewrite (jack_ringbuffer_write_spec BuffSize) by (simpl; first [exact Hs | exact Hfit4]).
  unfold ret, add_trace, log, with_data, send_log, size_record. cbn.
  rewrite <- app_assoc. reflexivity.
Qed.

Lemma total_bytes_cons (m : list byte) (msgs : list (list byte)) :
  total_bytes (m :: msgs) = Z.of_nat (length m) + total_bytes msgs.
Proof. unfold total_bytes. simpl. rewrite length_app. lia. Qed.

Lemma total_bytes_nonneg (msgs : list (list byte)) : 0 <= total_bytes msgs.
Proof. unfold total_bytes. lia. Qed.

Lemma length_size_records (msgs : list (list byte)) :
  Z.of_nat (length (concat (map size_record msgs))) = 4 * Z.of_nat (length msgs).
Proof.
  induction msgs as [|m msgs IH]; [reflexivity|].
  cbn [map concat]. rewrite length_app. cbn [length size_record int_to_bytes].
  lia.
Qed.

Lemma send_messages_spec (msgs : list (list byte)) :
  forall (w : world) (rs rm : jack_ringbuffer_t),
  buffSize (w_data w) = Some rs ->
  buffMessage (w_data w) = Some rm ->
  total_bytes msgs < 2 ^ 31 ->
  total_bytes msgs <= rb_size rm - rb_read_space rm ->
  4 * Z.of_nat (length msgs) <= rb_size rs - rb_read_space rs ->
  send_messages msgs w =
  (Ok tt,
   add_trace (flat_map (send_log (w_thread w)) msgs)
     (with_data (fun d =>
        set_ring BuffSize
          (Some {| rb_size := rb_size rs;
                   rb_data := rb_data rs ++ concat (map size_record msgs) |})
          (set_ring BuffMessage
             (Some {| rb_size := rb_size rm;
                      rb_data := rb_data rm ++ concat msgs |}) d)) w)).
Proof.
  induction msgs as [|m msgs IH]; intros w rs rm Hs Hm Hlt Hfit Hfit4.
  - destruct w as [d i s cn th tr]. destruct d as [c p bs bm lt sc sn].
    destruct rs, rm. simpl in Hs, Hm. subst bs bm.
    unfold add_trace, with_data. cbn. rewrite !app_nil_r. reflexivity.
  - rewrite total_bytes_cons in Hlt, Hfit.
    pose proof (total_bytes_nonneg msgs) as Hnn.
    cbn [length] in Hfit4. rewrite Nat2Z.inj_succ in Hfit4.
    cbn [send_messages]. unfold bind.
    rewrite (send_message_spec m w rs rm) by (assumption || lia).
    erewrite IH; cycle 1.
    + reflexivity.
    + reflexivity.
    + lia.
    + unfold rb_read_space in *. cbn [rb_size rb_data]. rewrite length_app. lia.
    + unfold rb_read_space in *. cbn [rb_size rb_data]. rewrite length_app.
      cbn [length size_record int_to_bytes]. lia.
    + destruct w as [d i s cn th tr]. destruct d as [c p bs bm lt sc sn].
      unfold add_trace, with_data. cbn.
      rewrite <- !app_assoc. reflexivity.
Qed.

Lemma jack_ringbuffer_read_spec (r : ring_id) (l rest : list byte) (w : world)
    (rb : jack_ringbuffer_t) :
  ring r (w_data w) = Some rb ->
  rb_data rb = l ++ rest ->
  jack_ringbuffer_read r (Z.of_nat (length l)) w =
  (Ok l,
   log (RingbufferRead r (Z.of_nat (length l)))
     (with_data (set_ring r (Some {| rb_size := rb_size rb; rb_data := rest |})) w)).
Proof.
  intros Hr Hd.
  unfold jack_ringbuffer_read, bind, gets. rewrite Hr.
  unfold rb_read, rb_read_space. rewrite Hd.
  rewrite Z.min_l by (rewrite length_app; lia).
  rewrite Nat2Z.id, firstn_length_app, skipn_length_app.
  reflexivity.
Qed.

Lemma drain_one_spec (m srest mrest : list byte) (w : world)
    (rs rm : jack_ringbuffer_t) :
  buffSize (w_data w) = Some rs ->
  rb_data rs = size_record m ++ srest ->
  buffMessage (w_data w) = Some rm ->
  rb_data rm = m ++ mrest ->
  Z.of_nat (length m) < 2 ^ 31 ->
  midi_out_jack.drain_one w =
  (Ok tt,
   with_srv (fun s => set_srv_outbuf (srv_outbuf s ++ [event_of m]) s)
     (add_trace (drain_log (w_thread w) m)
        (with_data (fun d =>
           set_ring BuffMessage (Some {| rb_size := rb_size rm; rb_data := mrest |})
             (set_ring BuffSize (Some {| rb_size := rb_size rs; rb_data := srest |}) d))
           w))).
Proof.
  intros Hs Hds Hm Hdm Hlt.
  unfold midi_out_jack.drain_one, bind.
  change 4 with (Z.of_nat (length (size_record m))).
  rewrite (jack_ringbuffer_read_spec BuffSize (size_record m) srest w rs Hs Hds).
  unfold size_record.
  rewrite int_of_bytes_int_to_bytes by lia.
  rewrite uint64_small by lia.
  unfold jack_midi_event_reserve, emit, modify.
  erewrite (jack_ringbuffer_read_spec BuffMessage m mrest); cycle 1.
  - cbn. exact Hm.
  - exact Hdm.
  - destruct w as [d i s cn th tr]. destruct d as [c p bs bm lt sc sn].
    unfold push_event, modify, add_trace, with_data, with_srv, log, drain_log, event_of.
    cbn. rewrite <- !app_assoc. reflexivity.
Qed.

Lemma jack_ringbuffer_read_space_spec (r : ring_id) (w : world)
    (rb : jack_ringbuffer_t) :
  ring r (w_data w) = Some rb ->
  jack_ringbuffer_read_space r w = (Ok (rb_read_space rb), w).
Proof.
  intros Hr. unfold jack_ringbuffer_read_space, bind, gets. rewrite Hr.
  reflexivity.
Qed.

Ltac destruct_world w :=
  let d := fresh "d" in
  let s := fresh "s" in
  destruct w as [d ? s ? ? ?]; destruct d; destruct s.

Lemma drain_spec (msgs : list (list byte)) :
  forall (fuel : nat) (w : world) (rs rm : jack_ringbuffer_t) (mrest : list byte),
  buffSize (w_data w) = Some rs ->
  rb_data rs = concat (map size_record msgs) ->
  buffMessage (w_data w) = Some rm ->
  rb_data rm = concat msgs ++ mrest ->
  total_bytes msgs < 2 ^ 31 ->
  (length msgs < fuel)%nat ->
  midi_out_jack.drain fuel w =
  (Ok tt,
   rt_world w
     (Some {| rb_size := rb_size rs; rb_data := [] |})
     (Some {| rb_size := rb_size rm; rb_data := mrest |})
     (sem_cleanup (w_data w)) (sem_needpost (w_data w))
     (srv_outbuf (w_srv w) ++ map event_of msgs)
     (flat_map (drain_log (w_thread w)) msgs)).
Proof.
  induction msgs as [|m msgs IH]; intros fuel w rs rm mrest Hs Hds Hm Hdm Hlt Hfuel.
  - destruct fuel as [|fuel]; [cbn in Hfuel; lia|].
    cbn [midi_out_jack.drain]. unfold bind.
    rewrite (jack_ringbuffer_read_space_spec BuffSize w rs Hs).
    unfold rb_read_space. rewrite Hds. cbn [map concat length Z.of_nat Z.ltb Z.compare].
    destruct_world w. destruct rs, rm. cbn in *. subst.
    unfold rt_world, ret. cbn. rewrite !app_nil_r. reflexivity.
  - destruct fuel as [|fuel]; [cbn in Hfuel; lia|].
    rewrite total_bytes_cons in Hlt.
    pose proof (total_bytes_nonneg msgs) as Hnn.
    cbn [midi_out_jack.drain]. unfold bind.
    rewrite (jack_ringbuffer_read_space_spec BuffSize w rs Hs).
    replace (0 <? rb_read_space rs) with true; cycle 1.
    { symmetry. apply Z.ltb_lt. unfold rb_read_space. rewrite Hds.
      cbn [map concat]. rewrite length_app. cbn [length size_record int_to_bytes]. lia. }
    cbn [map concat] in Hds, Hdm. rewrite <- app_assoc in Hdm.
    rewrite (drain_one_spec m _ _ w rs rm Hs Hds Hm Hdm) by lia.
    erewrite IH; cycle 1.
    + reflexivity.
    + reflexivity.
    + reflexivity.
    + reflexivity.
    + lia.
    + cbn [length] in Hfuel. lia.
    + destruct_world w. unfold rt_world, add_trace, with_data, with_srv. cbn.
      rewrite <- !app_assoc. reflexivity.
Qed.

Lemma jack_ringbuffer_read_gen (r : ring_id) (cnt : Z) (w : world)
    (rb : jack_ringbuffer_t) :
  ring r (w_data w) = Some rb ->
  jack_ringbuffer_read r cnt w =
  (Ok (fst (rb_read rb cnt)),
   log (RingbufferRead r cnt)
     (with_data (set_ring r (Some (snd (rb_read rb cnt)))) w)).
Proof.
  intros Hr. unfold jack_ringbuffer_read, bind, gets. rewrite Hr.
  destruct (rb_read rb cnt). reflexivity.
Qed.

Lemma rb_read_size (rb : jack_ringbuffer_t) (cnt : Z) :
  rb_size (snd (rb_read rb cnt)) = rb_size rb.
Proof. reflexivity. Qed.

Lemma rb_read_shrinks (rb : jack_ringbuffer_t) (cnt : Z) :
  0 < cnt -> 0 < rb_read_space rb ->
  (length (rb_data (snd (rb_read rb cnt))) < length (rb_data rb))%nat.
Proof.
  unfold rb_read, rb_read_space. intros Hc Hn. cbn [snd rb_data].
  rewrite length_skipn. lia.
Qed.

Lemma rt_world_compose (w : world) (rs rm rs' rm' : option jack_ringbuffer_t)
    (sc sn sc' sn' : semaphore) (ob ob' : list midi_event)
    (l l' : list (thread * call)) :
  rt_world (rt_world w rs rm sc sn ob l) rs' rm' sc' sn' ob' l' =
  rt_world w rs' rm' sc' sn' ob' (l ++ l').
Proof.
  unfold rt_world. cbn [w_data w_in w_srv w_clientName w_thread w_trace
                        client port lastTime].
  rewrite <- app_assoc. reflexivity.
Qed.

Lemma rt_world_same (w : world) :
  rt_world w (buffSize (w_data w)) (buffMessage (w_data w))
    (sem_cleanup (w_data w)) (sem_needpost (w_data w))
    (srv_outbuf (w_srv w)) [] = w.
Proof.
  destruct_world w. unfold rt_world. cbn. rewrite app_nil_r. reflexivity.
Qed.

Lemma drain_one_gen (w : world) (rs rm : jack_ringbuffer_t) :
  buffSize (w_data w) = Some rs ->
  buffMessage (w_data w) = Some rm ->
  let r1 := rb_read rs 4 in
  let n := uint64 (int_of_bytes (fst r1)) in
  let r2 := rb_read rm n in
  midi_out_jack.drain_one w =
  (Ok tt,
   rt_world w (Some (snd r1)) (Some (snd r2))
     (sem_cleanup (w_data w)) (sem_needpost (w_data w))
     (srv_outbuf (w_srv w) ++ [{| ev_time := 0; ev_size := n; ev_data := fst r2 |}])
     [ (w_thread w, RingbufferRead BuffSize 4);
       (w_thread w, MidiEventReserve 0 n);
       (w_thread w, RingbufferRead BuffMessage n) ]).
Proof.
  intros Hs Hm r1 n r2.
  unfold midi_out_jack.drain_one, bind.
  rewrite (jack_ringbuffer_read_gen BuffSize 4 w rs Hs).
  fold r1. fold n.
  unfold jack_midi_event_reserve, emit, modify.
  erewrite (jack_ringbuffer_read_gen BuffMessage) by (cbn; exact Hm).
  fold r2. clearbody r2 n. clearbody r1.
  unfold push_event, modify.
  destruct_world w. unfold rt_world, with_srv, with_data, log. cbn in *.
  rewrite <- !app_assoc. reflexivity.
Qed.

(** The loop always ends because the size ringbuffer is empty, never for
    lack of fuel, and it touches nothing but the rings, the outbound port
    buffer and the log. *)
Lemma drain_shape (fuel : nat) :
  forall (w : world) (rs rm : jack_ringbuffer_t),
  buffSize (w_data w) = Some rs ->
  buffMessage (w_data w) = Some rm ->
  (length (rb_data rs) < fuel)%nat ->
  exists rm' ob l,
    midi_out_jack.drain fuel w =
    (Ok tt,
     rt_world w (Some {| rb_size := rb_size rs; rb_data := [] |}) (Some rm')
       (sem_cleanup (w_data w)) (sem_needpost (w_data w)) ob l)
    /\ Forall (drain_entry (w_thread w)) l.
Proof.
  induction fuel as [|fuel IH]; intros w rs rm Hs Hm Hfuel; [lia|].
  cbn [midi_out_jack.drain]. unfold bind.
  rewrite (jack_ringbuffer_read_space_spec BuffSize w rs Hs).
  destruct (0 <? rb_read_space rs) eqn:Hpos.
  - apply Z.ltb_lt in Hpos.
    rewrite (drain_one_gen w rs rm Hs Hm). cbv zeta.
    pose proof (rb_read_shrinks rs 4 ltac:(lia) Hpos) as Hshrink.
    pose proof (rb_read_size rs 4) as Hsize.
    set (r1 := rb_read rs 4) in *.
    set (n := uint64 (int_of_bytes (fst r1))).
    set (r2 := rb_read rm n).
    clearbody r2 n. clearbody r1.
    match goal with
    | |- context [midi_out_jack.drain fuel ?w1] =>
        destruct (IH w1 (snd r1) (snd r2) eq_refl eq_refl ltac:(lia))
          as (rm' & ob & l & Heq & Hl)
    end.
    rewrite Heq. clear Heq. rewrite Hsize, rt_world_compose.
    eexists rm', ob, _. split; [reflexivity|].
    apply Forall_app. split; [|exact Hl].
    repeat constructor.
  - apply Z.ltb_ge in Hpos. unfold rb_read_space in Hpos.
    assert (Hnil : rb_data rs = [])
      by (destruct (rb_data rs); [reflexivity | cbn in Hpos; lia]).
    exists rm, (srv_outbuf (w_srv w)), []. split; [|constructor].
    replace {| rb_size := rb_size rs; rb_data := [] |} with rs
      by (destruct rs; cbn in Hnil; subst; reflexivity).
    rewrite <- Hs, <- Hm, rt_world_same. reflexivity.
Qed.

Lemma enter_spec (p : jack_port_t) (nframes : Z) (w : world) :
  jack_midi_clear_buffer (log (PortGetBuffer p nframes) w) =
  (Ok tt, entered w p nframes).
Proof.
  unfold jack_midi_clear_buffer, emit, modify, bind, entered.
  destruct_world w. unfold rt_world, log, with_srv. cbn.
  rewrite <- !app_assoc. reflexivity.
Qed.

Lemma ack_spec (w : world) :
  (acquired <- sem_try_wait SemNeedpost ;;
   (if negb acquired then sem_notify SemCleanup else ret tt) ;;
   ret 0) w =
  (Ok 0,
   rt_world w (buffSize (w_data w)) (buffMessage (w_data w))
     (sem_needpost (w_data w) || sem_cleanup (w_data w)) false
     (srv_outbuf (w_srv w)) (ack_log (w_thread w) (sem_needpost (w_data w)))).
Proof.
  unfold sem_try_wait, sem_notify, emit, modify, bind, gets, ret.
  destruct_world w. cbn [w_data sem sem_needpost].
  destruct sem_needpost0; unfold rt_world, log, with_data; cbn;
    rewrite <- ?app_assoc; reflexivity.
Qed.

(** [jackProcessOut] with a port open, given what its loop does. *)
Lemma jackProcessOut_after_drain (nframes : Z) (w : world) (p : jack_port_t)
    (rs0 : jack_ringbuffer_t) (rs rm : option jack_ringbuffer_t)
    (ob : list midi_event) (l : list (thread * call)) :
  port (w_data w) = Some p ->
  buffSize (w_data w) = Some rs0 ->
  midi_out_jack.drain (S (length (rb_data rs0))) (entered w p nframes) =
  (Ok tt,
   rt_world (entered w p nframes) rs rm
     (sem_cleanup (w_data w)) (sem_needpost (w_data w)) ob l) ->
  midi_out_jack.jackProcessOut nframes w =
  (Ok 0,
   rt_world w rs rm
     (sem_needpost (w_data w) || sem_cleanup (w_data w)) false ob
     (enter_log (w_thread w) p nframes ++ l
      ++ ack_log (w_thread w) (sem_needpost (w_data w)))).
Proof.
  intros Hp Hs Hdrain.
  unfold midi_out_jack.jackProcessOut.
  unfold bind at 1. unfold gets at 1. rewrite Hp.
  unfold bind at 1. unfold jack_port_get_buffer, emit. unfold modify at 1.
  unfold bind at 1. rewrite enter_spec.
  unfold bind at 1. unfold gets at 1.
  unfold midi_out_jack.drain_fuel.
  replace (buffSize (w_data (entered w p nframes))) with (Some rs0)
    by (symmetry; exact Hs).
  unfold bind at 1. rewrite Hdrain.
  rewrite ack_spec.
  unfold entered. rewrite !rt_world_compose.
  cbn [rt_world w_data w_srv w_thread buffSize buffMessage sem_cleanup
       sem_needpost srv_outbuf set_srv_outbuf].
  reflexivity.
Qed.

Lemma jackProcessOut_shape (nframes : Z) (w : world) (p : jack_port_t)
    (rs rm : jack_ringbuffer_t) :
  port (w_data w) = Some p ->
  buffSize (w_data w) = Some rs ->
  buffMessage (w_data w) = Some rm ->
  exists rm' ob l,
    midi_out_jack.jackProcessOut nframes w =
    (Ok 0,
     rt_world w (Some {| rb_size := rb_size rs; rb_data := [] |}) (Some rm')
       (sem_needpost (w_data w) || sem_cleanup (w_data w)) false ob
       (enter_log (w_thread w) p nframes ++ l
        ++ ack_log (w_thread w) (sem_needpost (w_data w))))
    /\ Forall (drain_entry (w_thread w)) l.
Proof.
  intros Hp Hs Hm.
  destruct (drain_shape (S (length (rb_data rs))) (entered w p nframes) rs rm)
    as (rm' & ob & l & Heq & Hl); [exact Hs | exact Hm | lia |].
  exists rm', ob, l. split; [|exact Hl].
  apply (jackProcessOut_after_drain nframes w p rs); assumption.
Qed.

Lemma jackProcessOut_framing (msgs : list (list byte)) (nframes : Z) (w : world)
    (p : jack_port_t) (rs rm : jack_ringbuffer_t) (mrest : list byte) :
  port (w_data w) = Some p ->
  buffSize (w_data w) = Some rs ->
  rb_data rs = concat (map size_record msgs) ->
  buffMessage (w_data w) = Some rm ->
  rb_data rm = concat msgs ++ mrest ->
  total_bytes msgs < 2 ^ 31 ->
  midi_out_jack.jackProcessOut nframes w =
  (Ok 0,
   rt_world w (Some {| rb_size := rb_size rs; rb_data := [] |})
     (Some {| rb_size := rb_size rm; rb_data := mrest |})
     (sem_needpost (w_data w) || sem_cleanup (w_data w)) false
     (map event_of msgs)
     (enter_log (w_thread w) p nframes
      ++ flat_map (drain_log (w_thread w)) msgs
      ++ ack_log (w_thread w) (sem_needpost (w_data w)))).
Proof.
  intros Hp Hs Hds Hm Hdm Hlt.
  apply (jackProcessOut_after_drain nframes w p rs); [exact Hp | exact Hs |].
  rewrite (drain_spec msgs _ (entered w p nframes) rs rm mrest);
    [reflexivity | exact Hs | exact Hds | exact Hm | exact Hdm | exact Hlt |].
  pose proof (length_size_records msgs) as Hlen. rewrite <- Hds in Hlen. lia.
Qed.

(* ================================================================= *)
(** ** Framing integrity *)

(** C1.  From a port open and the ringbuffer pair as [connect] creates it
    (empty, 16384 bytes each): for payloads whose bytes fit the payload
    ringbuffer and whose four-byte length records fit the size ringbuffer,
    the [send_message] calls all return, each logs the write of its full
    payload to the payload ringbuffer and then the write of its length
    record to the size ringbuffer, and the next run of [jackProcessOut]
    returns 0 with exactly these payloads, in order, as the events of the
    outbound port buffer; it logs for each payload the read of one length
    record, the reservation and the read of that many payload bytes, and
    leaves both ringbuffers empty. *)
Theorem framing_integrity (msgs : list (list byte)) (w : world)
    (p : jack_port_t) (nframes : Z) :
  port (w_data w) = Some p ->
  buffSize (w_data w) = Some (jack_ringbuffer_create_pure ringbuffer_size) ->
  buffMessage (w_data w) = Some (jack_ringbuffer_create_pure ringbuffer_size) ->
  total_bytes msgs <= ringbuffer_size ->
  4 * Z.of_nat (length msgs) <= ringbuffer_size ->
  exists w1 w2,
    send_messages msgs w = (Ok tt, w1)
    /\ w_trace w1 = w_trace w ++ flat_map (send_log (w_thread w)) msgs
    /\ midi_out_jack.jackProcessOut nframes w1 = (Ok 0, w2)
    /\ srv_outbuf (w_srv w2) = map event_of msgs
    /\ w_trace w2 =
       w_trace w1 ++ enter_log (w_thread w) p nframes
       ++ flat_map (drain_log (w_thread w)) msgs
       ++ ack_log (w_thread w) (sem_needpost (w_data w))
    /\ buffSize (w_data w2) = Some (jack_ringbuffer_create_pure ringbuffer_size)
    /\ buffMessage (w_data w2) = Some (jack_ringbuffer_create_pure ringbuffer_size).
Proof.
  intros Hp Hs Hm Hfit Hfit4.
  assert (Hlt : total_bytes msgs < 2 ^ 31) by (unfold ringbuffer_size in Hfit; lia).
  eexists. eexists. split.
  { apply (send_messages_spec msgs w _ _ Hs Hm Hlt);
      unfold rb_read_space, jack_ringbuffer_create_pure;
      cbn [rb_size rb_data length]; lia. }
  split; [reflexivity|].
  split.
  { eapply (jackProcessOut_framing msgs nframes _ p _ _ []).
    - exact Hp.
    - reflexivity.
    - reflexivity.
    - reflexivity.
    - cbn. rewrite app_nil_r. reflexivity.
    - exact Hlt. }
  split; [reflexivity|].
  split; [|split; reflexivity].
  cbn [rt_world w_trace w_thread w_data add_trace with_data sem_needpost set_ring].
  reflexivity.
Qed.

Lemma framing_integrity_witness :
  exists w1 w2,
    send_messages [note_on; control_change] out_open = (Ok tt, w1)
    /\ w_trace w1 =
       w_trace out_open
       ++ flat_map (send_log (w_thread out_open)) [note_on; control_change]
    /\ midi_out_jack.jackProcessOut 64 w1 = (Ok 0, w2)
    /\ srv_outbuf (w_srv w2) = map event_of [note_on; control_change]
    /\ w_trace w2 =
       w_trace w1 ++ enter_log (w_thread out_open) 2%nat 64
       ++ flat_map (drain_log (w_thread out_open)) [note_on; control_change]
       ++ ack_log (w_thread out_open) (sem_needpost (w_data out_open))
    /\ buffSize (w_data w2) = Some (jack_ringbuffer_create_pure ringbuffer_size)
    /\ buffMessage (w_data w2) = Some (jack_ringbuffer_create_pure ringbuffer_size).
Proof.
  apply (framing_integrity [note_on; control_change] out_open 2%nat 64).
  - reflexivity.
  - reflexivity.
  - reflexivity.
  - vm_compute. discriminate.
  - vm_compute. discriminate.
Defined.

(** A run of [jackProcessOut] that falls between the two writes of
    [send_message] finds no length record: it emits nothing and leaves the
    payload in its ringbuffer, and the run after the second write emits the
    message whole. *)
Lemma callback_between_writes (m : list byte) (w : world) (p : jack_port_t)
    (nframes : Z) :
  port (w_data w) = Some p ->
  buffSize (w_data w) = Some (jack_ringbuffer_create_pure ringbuffer_size) ->
  buffMessage (w_data w) = Some (jack_ringbuffer_create_pure ringbuffer_size) ->
  Z.of_nat (length m) <= ringbuffer_size ->
  exists w1 w2 w3 w4,
    jack_ringbuffer_write BuffMessage m (Z.of_nat (length m)) w
    = (Ok (Z.of_nat (length m)), w1)
    /\ midi_out_jack.jackProcessOut nframes w1 = (Ok 0, w2)
    /\ srv_outbuf (w_srv w2) = []
    /\ buffMessage (w_data w2)
       = Some {| rb_size := ringbuffer_size; rb_data := m |}
    /\ jack_ringbuffer_write BuffSize (size_record m) 4 w2 = (Ok 4, w3)
    /\ midi_out_jack.jackProcessOut nframes w3 = (Ok 0, w4)
    /\ srv_outbuf (w_srv w4) = [event_of m].
Proof.
  intros Hp Hs Hm Hfit.
  assert (Hlt : Z.of_nat (length m) < 2 ^ 31)
    by (unfold ringbuffer_size in Hfit; lia).
  eexists. eexists. eexists. eexists.
  split.
  { apply (jack_ringbuffer_write_spec BuffMessage m w _ Hm).
    unfold rb_read_space, jack_ringbuffer_create_pure.
    cbn [rb_size rb_data length]. lia. }
  split.
  { eapply (jackProcessOut_framing [] nframes _ p _ _ m).
    - exact Hp.
    - cbn [w_data log with_data set_ring buffSize]. exact Hs.
    - reflexivity.
    - reflexivity.
    - reflexivity.
    - unfold total_bytes. cbn. lia. }
  split; [reflexivity|]. split; [reflexivity|].
  split.
  { change 4 with (Z.of_nat (length (size_record m))).
    eapply (jack_ringbuffer_write_spec BuffSize (size_record m)).
    - reflexivity.
    - unfold rb_read_space, jack_ringbuffer_create_pure, ringbuffer_size.
      cbn [rb_size rb_data length size_record int_to_bytes]. lia. }
  split.
  { eapply (jackProcessOut_framing [m] nframes _ p _ _ []).
    - exact Hp.
    - reflexivity.
    - cbn [rb_data map concat]. rewrite app_nil_r. reflexivity.
    - reflexivity.
    - cbn [rb_data concat]. rewrite !app_nil_r. reflexivity.
    - unfold total_bytes. cbn [concat]. rewrite app_nil_r. exact Hlt. }
  reflexivity.
Qed.

Lemma callback_between_writes_witness :
  exists w1 w2 w3 w4,
    jack_ringbuffer_write BuffMessage note_on (Z.of_nat (length note_on)) out_open
    = (Ok (Z.of_nat (length note_on)), w1)
    /\ midi_out_jack.jackProcessOut 64 w1 = (Ok 0, w2)
    /\ srv_outbuf (w_srv w2) = []
    /\ buffMessage (w_data w2)
       = Some {| rb_size := ringbuffer_size; rb_data := note_on |}
    /\ jack_ringbuffer_write BuffSize (size_record note_on) 4 w2 = (Ok 4, w3)
    /\ midi_out_jack.jackProcessOut 64 w3 = (Ok 0, w4)
    /\ srv_outbuf (w_srv w4) = [event_of note_on].
Proof.
  apply (callback_between_writes note_on out_open 2%nat 64).
  - reflexivity.
  - reflexivity.
  - reflexivity.
  - vm_compute. discriminate.
Defined.

(* ================================================================= *)
(** ** The close handshake *)

Lemma process_cycle_idle (nframes : Z) (w : world) :
  srv_active (w_srv w) = false ->
  midi_out_jack.process_cycle nframes w = (Ok tt, w).
Proof.
  intros H. unfold midi_out_jack.process_cycle, bind, gets. rewrite H.
  reflexivity.
Qed.

Lemma wait_cycles_idle (s : sem_id) (cycles : list Z) (w : world) :
  srv_active (w_srv w) = false ->
  sem s (w_data w) = false ->
  wait_cycles midi_out_jack.process_cycle s cycles w = (Ok false, w).
Proof.
  intros Ha Hs. induction cycles as [|c cycles IH].
  - cbn [wait_cycles]. unfold bind, gets. rewrite Hs. reflexivity.
  - cbn [wait_cycles]. unfold bind at 1. unfold gets at 1. rewrite Hs.
    unfold bind at 1. rewrite (process_cycle_idle c w Ha). exact IH.
Qed.

Lemma process_cycle_out (nframes : Z) (w : world) (p : jack_port_t)
    (rs rm : jack_ringbuffer_t) :
  srv_active (w_srv w) = true ->
  srv_callback (w_srv w) = Some ProcessOut ->
  port (w_data w) = Some p ->
  buffSize (w_data w) = Some rs ->
  buffMessage (w_data w) = Some rm ->
  exists rm' ob l,
    midi_out_jack.process_cycle nframes w =
    (Ok tt,
     with_thread (w_thread w)
       (rt_world (with_thread RtThread w)
          (Some {| rb_size := rb_size rs; rb_data := [] |}) (Some rm')
          (sem_needpost (w_data w) || sem_cleanup (w_data w)) false ob
          (enter_log RtThread p nframes ++ l
           ++ ack_log RtThread (sem_needpost (w_data w)))))
    /\ Forall (drain_entry RtThread) l.
Proof.
  intros Ha Hc Hp Hs Hm.
  destruct (jackProcessOut_shape nframes (with_thread RtThread w) p rs rm Hp Hs Hm)
    as (rm' & ob & l & Heq & Hl).
  exists rm', ob, l. split; [|exact Hl].
  unfold midi_out_jack.process_cycle, bind, gets. rewrite Ha, Hc.
  unfold on_rt_thread. rewrite Heq. reflexivity.
Qed.

Lemma unregister_effect (c : option jack_client_t) (p : jack_port_t) (w : world) :
  exists w',
    jack_port_unregister c (Some p) w = (Ok tt, w')
    /\ w_data w' = w_data w
    /\ w_thread w' = w_thread w
    /\ w_trace w' = w_trace w ++ [(w_thread w, PortUnregister c (Some p))].
Proof.
  destruct c as [c|]; eexists; (split; [reflexivity|]); repeat split.
Qed.

(** How [close_port] ends once the timed wait has returned. *)
Lemma close_port_after_wait (w : world) (p : jack_port_t) (r : bool) (w3 : world) :
  port (w_data w) = Some p ->
  wait_cycles midi_out_jack.process_cycle SemCleanup (next_cycles w)
    (with_srv (set_srv_cycles (tl (srv_cycles (w_srv w))))
       (log (SemNotify SemNeedpost) (with_data (set_sem SemNeedpost true) w)))
  = (Ok r, w3) ->
  port (w_data w3) = Some p ->
  exists w',
    midi_out_jack.close_port w = (Ok tt, w')
    /\ port (w_data w') = None
    /\ w_trace w' =
       w_trace w3
       ++ [ (w_thread w3, SemWaitFor SemCleanup 1000 r);
            (w_thread w3, PortUnregister (client (w_data w3)) (Some p)) ].
Proof.
  intros Hp Hwait Hp3.
  destruct (unregister_effect (client (w_data w3)) p
              (log (SemWaitFor SemCleanup 1000 r) w3))
    as (w5 & Hun & Hd5 & Ht5 & Htr5).
  exists (with_data (set_port None) w5).
  split; [|split].
  - unfold midi_out_jack.close_port, sem_notify, sem_wait_for, emit, modify,
      bind, gets, ret.
    rewrite Hp. cbv beta iota.
    change (hd [] (srv_cycles (w_srv
              (log (SemNotify SemNeedpost) (with_data (set_sem SemNeedpost true) w)))))
      with (next_cycles w).
    change (srv_cycles (w_srv
              (log (SemNotify SemNeedpost) (with_data (set_sem SemNeedpost true) w))))
      with (srv_cycles (w_srv w)).
    rewrite Hwait. cbv beta iota.
    change (w_data (log (SemWaitFor SemCleanup 1000 r) w3)) with (w_data w3).
    rewrite Hp3, Hun. reflexivity.
  - reflexivity.
  - cbn [w_trace with_data]. rewrite Htr5. cbn [w_trace log w_thread w_data].
    rewrite <- app_assoc. reflexivity.
Qed.

Lemma wait_timeout (w : world) :
  sem_cleanup (w_data w) = false ->
  srv_active (w_srv w) && negb (is_nil (next_cycles w)) = false ->
  wait_cycles midi_out_jack.process_cycle SemCleanup (next_cycles w) (requested w)
  = (Ok false, requested w).
Proof.
  intros Hc Hno.
  destruct (srv_active (w_srv w)) eqn:Ha.
  - destruct (next_cycles w); [|discriminate].
    cbn [wait_cycles]. unfold bind, gets.
    change (sem SemCleanup (w_data (requested w))) with (sem_cleanup (w_data w)).
    rewrite Hc. reflexivity.
  - apply wait_cycles_idle; [exact Ha | exact Hc].
Qed.

Lemma wait_acked (w : world) (p : jack_port_t) (rs rm : jack_ringbuffer_t)
    (c : Z) (rest : list Z) :
  sem_cleanup (w_data w) = false ->
  srv_active (w_srv w) = true ->
  srv_callback (w_srv w) = Some ProcessOut ->
  next_cycles w = c :: rest ->
  port (w_data w) = Some p ->
  buffSize (w_data w) = Some rs ->
  buffMessage (w_data w) = Some rm ->
  exists rm' ob l,
    wait_cycles midi_out_jack.process_cycle SemCleanup (next_cycles w) (requested w)
    = (Ok true,
       with_data (set_sem SemCleanup false)
         (with_thread (w_thread w)
            (rt_world (with_thread RtThread (requested w))
               (Some {| rb_size := rb_size rs; rb_data := [] |}) (Some rm')
               true false ob
               (enter_log RtThread p c ++ l ++ ack_log RtThread true))))
    /\ Forall (drain_entry RtThread) l.
Proof.
  intros Hc Ha Hcb Hcy Hp Hs Hm.
  destruct (process_cycle_out c (requested w) p rs rm Ha Hcb Hp Hs Hm)
    as (rm' & ob & l & Heq & Hl).
  exists rm', ob, l. split; [|exact Hl].
  rewrite Hcy. cbn [wait_cycles].
  unfold bind at 1. unfold gets at 1.
  change (sem SemCleanup (w_data (requested w))) with (sem_cleanup (w_data w)).
  rewrite Hc.
  unfold bind at 1. rewrite Heq.
  change (sem_needpost (w_data (requested w))) with true.
  change (w_thread (requested w)) with (w_thread w).
  cbn [orb].
  destruct rest; cbn [wait_cycles]; unfold bind, gets, modify, ret; reflexivity.
Qed.

(** C2, as it holds.  [close_port] of the output backend, called by the
    user thread with a port open and the ack semaphore un-signalled.  It returns, and
    what it appends to the log is: the signal of the shutdown-request
    semaphore by the user thread; then entries of the real-time thread
    only; then, by the user thread, the end of the wait on the ack
    semaphore with its 1000 ms timeout and the unregistration of the port.
    The port is unregistered once and the port handle is null afterwards.
    The wait succeeds exactly when the server runs a process cycle within
    the timeout, and then the entries of the real-time thread are those of
    one run of the callback, which end with the request being consumed and
    the ack being signalled, the only signal of the ack; when the wait
    times out the real-time thread has logged nothing.  The ack is never
    signalled by the user thread. *)
Theorem close_port_handshake (w : world) (p : jack_port_t)
    (rs rm : jack_ringbuffer_t) :
  w_thread w = UserThread ->
  port (w_data w) = Some p ->
  buffSize (w_data w) = Some rs ->
  buffMessage (w_data w) = Some rm ->
  srv_callback (w_srv w) = Some ProcessOut ->
  sem_cleanup (w_data w) = false ->
  exists w' rt,
    let r := srv_active (w_srv w) && negb (is_nil (next_cycles w)) in
    midi_out_jack.close_port w = (Ok tt, w')
    /\ w_trace w' =
       w_trace w ++ [(UserThread, SemNotify SemNeedpost)] ++ rt
       ++ [ (UserThread, SemWaitFor SemCleanup 1000 r);
            (UserThread, PortUnregister (client (w_data w)) (Some p)) ]
    /\ port (w_data w') = None
    /\ Forall (fun e => fst e = RtThread) rt
    /\ Forall (fun e => is_unregister e = false) rt
    /\ (if r
        then exists pre,
            rt = pre ++ [ (RtThread, SemTryWait SemNeedpost false);
                          (RtThread, SemNotify SemCleanup) ]
            /\ Forall (fun e => is_ack e = false) pre
        else rt = []).
Proof.
  intros Ht Hp Hs Hm Hcb Hc.
  destruct (srv_active (w_srv w) && negb (is_nil (next_cycles w))) eqn:Hr.
  - apply andb_true_iff in Hr. destruct Hr as [Ha Hcy].
    destruct (next_cycles w) as [|c rest] eqn:Hnext; [discriminate|].
    destruct (wait_acked w p rs rm c rest Hc Ha Hcb Hnext Hp Hs Hm)
      as (rm' & ob & l & Hwait & Hl).
    destruct (close_port_after_wait w p true _ Hp Hwait Hp)
      as (w' & Hclose & Hport & Htrace).
    exists w', (enter_log RtThread p c ++ l ++ ack_log RtThread true).
    cbv zeta. split; [exact Hclose|]. split; [|split; [exact Hport|]].
    + rewrite Htrace.
      cbn [w_trace w_thread w_data with_data with_thread rt_world requested
           with_srv log client set_sem].
      rewrite Ht. rewrite <- !app_assoc. reflexivity.
    + assert (Hdrain : forall e, drain_entry RtThread e ->
                fst e = RtThread /\ is_unregister e = false /\ is_ack e = false).
      { intros [t cl] [H1 H2]. cbn in H1, H2. subst t.
        destruct cl; try discriminate; repeat split. }
      split; [|split].
      * apply Forall_app. split; [repeat constructor|].
        apply Forall_app. split; [|repeat constructor].
        eapply Forall_impl; [|exact Hl]. intros e He. apply (Hdrain e He).
      * apply Forall_app. split; [repeat constructor|].
        apply Forall_app. split; [|repeat constructor].
        eapply Forall_impl; [|exact Hl]. intros e He. apply (Hdrain e He).
      * exists (enter_log RtThread p c ++ l). split.
        -- rewrite <- app_assoc. reflexivity.
        -- apply Forall_app. split; [repeat constructor|].
           eapply Forall_impl; [|exact Hl]. intros e He. apply (Hdrain e He).
  - pose proof (wait_timeout w Hc Hr) as Hwait.
    destruct (close_port_after_wait w p false _ Hp Hwait Hp)
      as (w' & Hclose & Hport & Htrace).
    exists w', []. cbv zeta.
    split; [exact Hclose|]. split; [|split; [exact Hport|]].
    + rewrite Htrace.
      cbn [w_trace w_thread w_data requested with_srv log with_data client set_sem].
      rewrite Ht. rewrite <- !app_assoc. reflexivity.
    + repeat split; constructor.
Qed.

Lemma close_port_handshake_witness :
  exists w' rt,
    let r := srv_active (w_srv out_open) && negb (is_nil (next_cycles out_open)) in
    midi_out_jack.close_port out_open = (Ok tt, w')
    /\ w_trace w' =
       w_trace out_open ++ [(UserThread, SemNotify SemNeedpost)] ++ rt
       ++ [ (UserThread, SemWaitFor SemCleanup 1000 r);
            (UserThread, PortUnregister (client (w_data out_open)) (Some 2%nat)) ]
    /\ port (w_data w') = None
    /\ Forall (fun e => fst e = RtThread) rt
    /\ Forall (fun e => is_unregister e = false) rt
    /\ (if r
        then exists pre,
            rt = pre ++ [ (RtThread, SemTryWait SemNeedpost false);
                          (RtThread, SemNotify SemCleanup) ]
            /\ Forall (fun e => is_ack e = false) pre
        else rt = []).
Proof.
  apply (close_port_handshake out_open 2%nat
           (jack_ringbuffer_create_pure ringbuffer_size)
           (jack_ringbuffer_create_pure ringbuffer_size)); reflexivity.
Defined.

(** With an ack left over, [close_port] does not wait for the callback.
    In [stale_ack_state] every other condition holds: the user thread calls,
    a port is open, the ringbuffers exist, the output callback is
    registered, and the server is active and would run a cycle within the
    timeout.  [close_port] signals the request, its wait ends at once as
    acknowledged, and it unregisters the port: between the request and
    the unregistration the callback has not run, so it has acknowledged
    nothing, and the timeout has not elapsed. *)
Lemma close_port_on_stale_ack :
  w_thread stale_ack_state = UserThread
  /\ port (w_data stale_ack_state) = Some 3%nat
  /\ buffSize (w_data stale_ack_state)
     = Some (jack_ringbuffer_create_pure ringbuffer_size)
  /\ buffMessage (w_data stale_ack_state)
     = Some (jack_ringbuffer_create_pure ringbuffer_size)
  /\ srv_callback (w_srv stale_ack_state) = Some ProcessOut
  /\ srv_active (w_srv stale_ack_state) = true
  /\ next_cycles stale_ack_state = [64; 64]
  /\ sem_cleanup (w_data stale_ack_state) = true
  /\ exists w',
       midi_out_jack.close_port stale_ack_state = (Ok tt, w')
       /\ new_trace stale_ack_state w' =
          [ (UserThread, SemNotify SemNeedpost);
            (UserThread, SemWaitFor SemCleanup 1000 true);
            (UserThread, PortUnregister (Some 1%nat) (Some 3%nat)) ]
       /\ Forall (fun e => fst e = UserThread) (new_trace stale_ack_state w')
       /\ port (w_data w') = None.
Proof.
  repeat (split; [vm_compute; reflexivity|]).
  eexists. split; [vm_compute; reflexivity|].
  split; [vm_compute; reflexivity|].
  split; [|vm_compute; reflexivity].
  vm_compute. repeat constructor.
Qed.

(* ================================================================= *)
(** ** Operations that never raise *)

Create HintDb no_raise.

Lemma no_raise_ret {A} (a : A) : no_raise (ret a).
Proof. intros w e. discriminate. Qed.

Lemma no_raise_gets {A} (f : world -> A) : no_raise (gets f).
Proof. intros w e. discriminate. Qed.

Lemma no_raise_modify (f : world -> world) : no_raise (modify f).
Proof. intros w e. discriminate. Qed.

Lemma no_raise_emit (c : call) : no_raise (emit c).
Proof. intros w e. discriminate. Qed.

Lemma no_raise_undefined {A} : no_raise (@undefined A).
Proof. intros w e. discriminate. Qed.

Lemma no_raise_bind {A B} (m : M A) (k : A -> M B) :
  no_raise m -> (forall a, no_raise (k a)) -> no_raise (bind m k).
Proof.
  intros Hm Hk w e. unfold bind.
  specialize (Hm w). destruct (m w) as [[a|e'|] w'].
  - apply Hk.
  - cbn in Hm. specialize (Hm e'). congruence.
  - discriminate.
Qed.

Lemma no_raise_on_rt_thread {A} (m : M A) : no_raise m -> no_raise (on_rt_thread m).
Proof.
  intros Hm w e. unfold on_rt_thread.
  specialize (Hm (with_thread RtThread w) e).
  destruct (m (with_thread RtThread w)) as [r w']. exact Hm.
Qed.

#[export] Hint Resolve no_raise_ret no_raise_gets no_raise_modify no_raise_emit
  no_raise_undefined no_raise_on_rt_thread : no_raise.

Ltac no_raise_step :=
  match goal with
  | |- no_raise (bind _ _) => apply no_raise_bind; [|intro]
  | |- no_raise (match ?x with _ => _ end) => destruct x
  | |- no_raise (let '(_, _) := ?x in _) => destruct x
  | |- no_raise _ => solve [auto with no_raise]
  end.

Ltac no_raise_tac := repeat no_raise_step.

Lemma no_raise_jack_ringbuffer_read_space (r : ring_id) :
  no_raise (jack_ringbuffer_read_space r).
Proof. unfold jack_ringbuffer_read_space. no_raise_tac. Qed.

Lemma no_raise_jack_ringbuffer_read (r : ring_id) (cnt : Z) :
  no_raise (jack_ringbuffer_read r cnt).
Proof. unfold jack_ringbuffer_read. no_raise_tac. Qed.

Lemma no_raise_sem_try_wait (s : sem_id) : no_raise (sem_try_wait s).
Proof. unfold sem_try_wait. no_raise_tac. Qed.

Lemma no_raise_sem_notify (s : sem_id) : no_raise (sem_notify s).
Proof. unfold sem_notify. no_raise_tac. Qed.

Lemma no_raise_jack_get_time : no_raise jack_get_time.
Proof. unfold jack_get_time. no_raise_tac. Qed.

Lemma no_raise_queue_push (m : message) : no_raise (midi_in_jack.queue_push m).
Proof. unfold midi_in_jack.queue_push. no_raise_tac. Qed.

#[export] Hint Resolve no_raise_jack_ringbuffer_read_space
  no_raise_jack_ringbuffer_read no_raise_sem_try_wait no_raise_sem_notify
  no_raise_jack_get_time no_raise_queue_push : no_raise.

Lemma no_raise_drain (fuel : nat) : no_raise (midi_out_jack.drain fuel).
Proof.
  induction fuel as [|fuel IH]; cbn [midi_out_jack.drain]; [auto with no_raise|].
  unfold midi_out_jack.drain_one, jack_midi_event_reserve, push_event.
  no_raise_tac.
Qed.

Lemma no_raise_jackProcessOut (nframes : Z) :
  no_raise (midi_out_jack.jackProcessOut nframes).
Proof.
  unfold midi_out_jack.jackProcessOut, jack_port_get_buffer, jack_midi_clear_buffer.
  no_raise_tac. apply no_raise_drain.
Qed.

Lemma no_raise_process_event (event : list byte) :
  no_raise (midi_in_jack.process_event event).
Proof. unfold midi_in_jack.process_event. no_raise_tac. Qed.

Lemma no_raise_process_events (events : list (list byte)) :
  no_raise (midi_in_jack.process_events events).
Proof.
  induction events as [|ev events IH]; cbn [midi_in_jack.process_events];
    [auto with no_raise|].
  apply no_raise_bind; [apply no_raise_process_event | intros _; exact IH].
Qed.

Lemma no_raise_jackProcessIn (nframes : Z) :
  no_raise (midi_in_jack.jackProcessIn nframes).
Proof.
  unfold midi_in_jack.jackProcessIn, jack_port_get_buffer.
  no_raise_tac. apply no_raise_process_events.
Qed.

Lemma no_raise_process_cycle (nframes : Z) :
  no_raise (midi_out_jack.process_cycle nframes).
Proof.
  unfold midi_out_jack.process_cycle.
  pose proof (no_raise_jackProcessOut nframes).
  pose proof (no_raise_jackProcessIn nframes).
  no_raise_tac.
Qed.

Lemma no_raise_wait_cycles (rt : Z -> M unit) (s : sem_id) (cycles : list Z) :
  (forall n, no_raise (rt n)) -> no_raise (wait_cycles rt s cycles).
Proof.
  intros Hrt. induction cycles as [|c cycles IH]; cbn [wait_cycles].
  - no_raise_tac.
  - pose proof (Hrt c). no_raise_tac.
Qed.

Lemma no_raise_jack_port_unregister (c : option jack_client_t)
    (p : option jack_port_t) : no_raise (jack_port_unregister c p).
Proof. unfold jack_port_unregister. no_raise_tac. Qed.

Lemma no_raise_out_close_port : no_raise midi_out_jack.close_port.
Proof.
  unfold midi_out_jack.close_port, sem_wait_for.
  pose proof (no_raise_wait_cycles midi_out_jack.process_cycle SemCleanup)
    as Hwait.
  pose proof no_raise_jack_port_unregister.
  no_raise_tac. apply Hwait. exact no_raise_process_cycle.
Qed.

(* ================================================================= *)
(** ** [close_port] is idempotent *)

Lemma bind_inv_Ok {A B} (m : M A) (k : A -> M B) (w w1 : world) (b : B) :
  bind m k w = (Ok b, w1) ->
  exists a w', m w = (Ok a, w') /\ k a w' = (Ok b, w1).
Proof.
  unfold bind. destruct (m w) as [[a|e|] w']; intros H; try discriminate.
  exists a, w'. split; [reflexivity | exact H].
Qed.

Lemma repeat_op_fixed (m : M unit) (w : world) (n : nat) :
  m w = (Ok tt, w) -> repeat_op n m w = (Ok tt, w).
Proof.
  intros H. induction n as [|n IH]; [reflexivity|].
  cbn [repeat_op]. unfold bind. rewrite H. exact IH.
Qed.

Lemma in_close_port_closed (w : world) :
  port (w_data w) = None -> midi_in_jack.close_port w = (Ok tt, w).
Proof.
  intros H. unfold midi_in_jack.close_port, bind, gets. rewrite H. reflexivity.
Qed.

Lemma in_close_port_ok (w : world) :
  exists w1, midi_in_jack.close_port w = (Ok tt, w1) /\ port (w_data w1) = None.
Proof.
  destruct (port (w_data w)) as [p|] eqn:Hp.
  - destruct (unregister_effect (client (w_data w)) p w) as (w' & Hun & _).
    exists (with_data (set_port None) w'). split; [|reflexivity].
    unfold midi_in_jack.close_port, bind, gets. rewrite Hp, Hun. reflexivity.
  - exists w. split; [apply in_close_port_closed; exact Hp | exact Hp].
Qed.

Lemma out_close_port_closed (w : world) :
  port (w_data w) = None -> midi_out_jack.close_port w = (Ok tt, w).
Proof.
  intros H. unfold midi_out_jack.close_port, bind, gets. rewrite H. reflexivity.
Qed.

Lemma out_close_port_closes (w w1 : world) :
  midi_out_jack.close_port w = (Ok tt, w1) -> port (w_data w1) = None.
Proof.
  unfold midi_out_jack.close_port. intros H.
  apply bind_inv_Ok in H. destruct H as (d & w0 & Hd & H).
  unfold gets in Hd. injection Hd as <- <-.
  destruct (port (w_data w)) as [p|] eqn:Hp.
  - apply bind_inv_Ok in H. destruct H as (? & wa & _ & H).
    apply bind_inv_Ok in H. destruct H as (? & wb & _ & H).
    apply bind_inv_Ok in H. destruct H as (? & wc & _ & H).
    apply bind_inv_Ok in H. destruct H as (? & wd & _ & H).
    unfold modify in H. injection H as <-. reflexivity.
  - unfold ret in H. injection H as <-. exact Hp.
Qed.

(** C4.  [close_port] of the input backend always returns; called once
    more or any number of times more, it leaves the world of the first
    call, log included.  With no port open, [close_port] of either backend
    returns and leaves the world as it was: nothing is logged, the server
    is not called.  [close_port] of the output backend never raises;
    whenever it has returned, calling it any number of times more leaves
    the world of the first call; and with a port open and the ack
    un-signalled, it returns with the port closed when no process cycle
    runs within the timeout. *)
Theorem close_port_idempotent (w : world) (n : nat) :
  (exists w1,
      midi_in_jack.close_port w = (Ok tt, w1)
      /\ repeat_op (S n) midi_in_jack.close_port w = (Ok tt, w1))
  /\ (port (w_data w) = None -> midi_in_jack.close_port w = (Ok tt, w))
  /\ (forall e, outcome midi_out_jack.close_port w <> Raise e)
  /\ (forall w1,
         midi_out_jack.close_port w = (Ok tt, w1) ->
         repeat_op (S n) midi_out_jack.close_port w = (Ok tt, w1))
  /\ (port (w_data w) = None -> midi_out_jack.close_port w = (Ok tt, w))
  /\ (forall p,
         port (w_data w) = Some p ->
         sem_cleanup (w_data w) = false ->
         srv_active (w_srv w) && negb (is_nil (next_cycles w)) = false ->
         exists w1,
           midi_out_jack.close_port w = (Ok tt, w1)
           /\ port (w_data w1) = None
           /\ In (w_thread w, SemWaitFor SemCleanup 1000 false) (w_trace w1)).
Proof.
  split; [|split; [|split; [|split; [|split]]]].
  - destruct (in_close_port_ok w) as (w1 & H1 & Hp1).
    exists w1. split; [exact H1|].
    cbn [repeat_op]. unfold bind. rewrite H1.
    apply repeat_op_fixed, in_close_port_closed, Hp1.
  - apply in_close_port_closed.
  - intros e. apply no_raise_out_close_port.
  - intros w1 H1. cbn [repeat_op]. unfold bind. rewrite H1.
    apply repeat_op_fixed, out_close_port_closed.
    apply (out_close_port_closes w w1 H1).
  - apply out_close_port_closed.
  - intros p Hp Hc Hno.
    pose proof (wait_timeout w Hc Hno) as Hwait.
    destruct (close_port_after_wait w p false _ Hp Hwait Hp)
      as (w1 & Hclose & Hport & Htrace).
    exists w1. split; [exact Hclose|]. split; [exact Hport|].
    rewrite Htrace. apply in_or_app. right. left. reflexivity.
Qed.

(* ================================================================= *)
(** ** At most one port per instance *)

Lemma open_step_refl (w : world) : open_step w w.
Proof.
  unfold open_step. destruct (port (w_data w)); [repeat split | left; split; reflexivity].
Qed.

Lemma open_step_trans (w1 w2 w3 : world) :
  open_step w1 w2 -> open_step w2 w3 -> open_step w1 w3.
Proof.
  unfold open_step. intros H12 H23.
  destruct (port (w_data w1)) as [p|].
  - destruct H12 as (Hp & Hr & Hg). rewrite Hp in H23.
    destruct H23 as (Hp' & Hr' & Hg'). repeat split; congruence.
  - destruct H12 as [(Hp & Hr) | (e & Hp & Hr)]; rewrite Hp in H23.
    + destruct H23 as [(Hp' & Hr') | (e & Hp' & Hr')].
      * left. split; congruence.
      * right. exists e. split; congruence.
    + destruct H23 as (Hp' & Hr' & _). right. exists e. split; congruence.
Qed.

Lemma steps_ret {A} (a : A) : steps (ret a).
Proof. intros w. apply open_step_refl. Qed.

Lemma steps_gets {A} (f : world -> A) : steps (gets f).
Proof. intros w. apply open_step_refl. Qed.

Lemma steps_raise {A} (e : exception) : steps (@raise A e).
Proof. intros w. apply open_step_refl. Qed.

Lemma steps_undefined {A} : steps (@undefined A).
Proof. intros w. apply open_step_refl. Qed.

Lemma open_step_same (w w' : world) :
  port (w_data w') = port (w_data w) ->
  registered w' = registered w ->
  registrations w' = registrations w ->
  open_step w w'.
Proof.
  intros Hp Hr Hg. unfold open_step.
  destruct (port (w_data w)); [repeat split; assumption | left; split; assumption].
Qed.

Lemma steps_modify (f : world -> world) :
  (forall w, port (w_data (f w)) = port (w_data w)
             /\ registered (f w) = registered w
             /\ w_trace (f w) = w_trace w) ->
  steps (modify f).
Proof.
  intros H w. destruct (H w) as (Hp & Hr & Ht).
  apply open_step_same; [exact Hp | exact Hr |].
  unfold registrations. cbn [modify snd]. rewrite Ht. reflexivity.
Qed.

Lemma steps_emit (c : call) : is_register (UserThread, c) = false -> steps (emit c).
Proof.
  intros Hc w. apply open_step_same; [reflexivity | reflexivity |].
  unfold registrations. cbn [emit modify snd log w_trace].
  rewrite filter_app. cbn [filter].
  replace (is_register (w_thread w, c)) with false by (symmetry; exact Hc).
  apply app_nil_r.
Qed.

Lemma open_step_bind {A B} (m : M A) (k : A -> M B) (w : world) :
  open_step w (snd (m w)) -> (forall a, steps (k a)) ->
  open_step w (snd (bind m k w)).
Proof.
  intros Hm Hk. unfold bind.
  destruct (m w) as [[a|e|] w'] eqn:E; cbn [snd] in *; try exact Hm.
  eapply open_step_trans; [exact Hm | apply Hk].
Qed.

Lemma steps_bind {A B} (m : M A) (k : A -> M B) :
  steps m -> (forall a, steps (k a)) -> steps (bind m k).
Proof. intros Hm Hk w. apply open_step_bind; [apply Hm | exact Hk]. Qed.

Create HintDb steps.
#[export] Hint Resolve steps_ret steps_gets steps_raise steps_undefined : steps.

Ltac steps_step :=
  match goal with
  | |- steps (bind _ _) => apply steps_bind; [|intro]
  | |- steps (emit _) => apply steps_emit; reflexivity
  | |- steps (modify _) => apply steps_modify; intro; repeat split
  | |- steps (match ?x with _ => _ end) => destruct x
  | |- steps _ => solve [auto with steps]
  end.

Ltac steps_tac := repeat steps_step.

Lemma steps_warning (msg : string) : steps (warning msg).
Proof. unfold warning. steps_tac. Qed.

Lemma steps_error (msg : string) : steps (error msg).
Proof. unfold error. steps_tac. Qed.

Lemma steps_jack_get_ports (c : option jack_client_t) (d : direction) :
  steps (jack_get_ports c d).
Proof. unfold jack_get_ports. steps_tac. Qed.

Lemma steps_array_at (ports : list string) (i : nat) : steps (array_at ports i).
Proof. unfold array_at. steps_tac. Qed.

Lemma steps_jack_port_name (p : jack_port_t) : steps (jack_port_name p).
Proof. unfold jack_port_name. steps_tac. Qed.

Lemma steps_jack_connect (c : option jack_client_t) (src dst : string) :
  steps (jack_connect c src dst).
Proof. unfold jack_connect. steps_tac. Qed.

#[export] Hint Resolve steps_warning steps_error steps_jack_get_ports
  steps_array_at steps_jack_port_name steps_jack_connect : steps.

Lemma steps_in_connect : steps midi_in_jack.connect.
Proof.
  unfold midi_in_jack.connect, jack_client_open, jack_set_process_callback,
    jack_activate.
  steps_tac.
Qed.

Lemma steps_out_connect : steps midi_out_jack.connect.
Proof.
  unfold midi_out_jack.connect, jack_client_open, jack_set_process_callback,
    jack_activate, jack_ringbuffer_create.
  steps_tac.
Qed.

#[export] Hint Resolve steps_in_connect steps_out_connect : steps.

Lemma steps_in_get_port_name (i : nat) : steps (midi_in_jack.get_port_name i).
Proof. unfold midi_in_jack.get_port_name, jack_free. steps_tac. Qed.

Lemma steps_out_get_port_name (i : nat) : steps (midi_out_jack.get_port_name i).
Proof. unfold midi_out_jack.get_port_name, jack_free. steps_tac. Qed.

#[export] Hint Resolve steps_in_get_port_name steps_out_get_port_name : steps.

(** The registration step of the four opens, run in a world whose port
    handle is the one just read. *)
Lemma register_step (name : string) (d : direction) (w : world) :
  open_step w
    (snd (match port (w_data w) with
          | None =>
              p <- jack_port_register (client (w_data w)) name d ;;
              modify (with_data (set_port p))
          | Some _ => ret tt
          end w)).
Proof.
  destruct (port (w_data w)) as [p|] eqn:Hp.
  - apply open_step_refl.
  - unfold open_step. rewrite Hp.
    unfold jack_port_register, bind, gets, emit, modify, ret.
    destruct (client (w_data w)) as [c|].
    + destruct (srv_accept (w_srv w) name
                && negb (name_taken name (srv_ports (w_srv w)))).
      * right.
        exists {| pe_handle := srv_next (w_srv w); pe_name := name; pe_dir := d |}.
        split; reflexivity.
      * left. split; reflexivity.
    + left. split; reflexivity.
Qed.

Lemma steps_open_tail {A} (connect : M unit) (name : string) (d : direction)
    (rest : M A) :
  steps connect -> steps rest ->
  steps (connect ;;
         data <- gets w_data ;;
         match port data with
         | None =>
             p <- jack_port_register (client data) name d ;;
             modify (with_data (set_port p))
         | Some _ => ret tt
         end ;;
         rest).
Proof.
  intros Hc Hr. apply steps_bind; [exact Hc|]. intros _ w.
  unfold bind at 1. unfold gets at 1.
  apply open_step_bind; [apply register_step | intros _; exact Hr].
Qed.

Lemma steps_open_op (b : backend) (c : open_call) : steps (open_op b c).
Proof.
  destruct b, c; cbn [open_op];
    [ unfold midi_in_jack.open_port | unfold midi_in_jack.open_virtual_port
    | unfold midi_out_jack.open_port | unfold midi_out_jack.open_virtual_port ];
    (apply steps_open_tail; [auto with steps | steps_tac]).
Qed.

Lemma open_step_run_opens (b : backend) (cs : list open_call) :
  forall w, open_step w (run_opens b cs w).
Proof.
  induction cs as [|c cs IH]; intros w; cbn [run_opens].
  - apply open_step_refl.
  - eapply open_step_trans; [apply (steps_open_op b c) | apply IH].
Qed.

Lemma open_step_singleton (w w' : world) :
  port_singleton w -> open_step w w' -> port_singleton w'.
Proof.
  unfold port_singleton, open_step. intros Hs Hstep.
  destruct (port (w_data w)) as [p|].
  - destruct Hstep as (Hp & Hr & _). rewrite Hp, Hr. exact Hs.
  - destruct Hstep as [(Hp & Hr) | (e & Hp & Hr)]; rewrite Hp, Hr.
    + exact Hs.
    + rewrite map_app, Hs. reflexivity.
Qed.

(** C5.  From a world in which the port handle and the server's registry
    agree (as after construction), any sequence of [open_port] and
    [open_virtual_port] calls of one backend leaves them in agreement, so
    the server holds at most one port for the instance; and when a port is
    already open before the sequence, the sequence keeps that port, leaves
    the registry as it was and calls [jack_port_register] not once. *)
Theorem port_singleton_opens (b : backend) (cs : list open_call) (w : world) :
  port_singleton w ->
  port_singleton (run_opens b cs w)
  /\ (length (registered (run_opens b cs w)) <= 1)%nat
  /\ (forall p,
         port (w_data w) = Some p ->
         port (w_data (run_opens b cs w)) = Some p
         /\ registered (run_opens b cs w) = registered w
         /\ registrations (run_opens b cs w) = registrations w).
Proof.
  intros Hs.
  pose proof (open_step_run_opens b cs w) as Hstep.
  pose proof (open_step_singleton _ _ Hs Hstep) as Hs'.
  split; [exact Hs'|]. split.
  - unfold port_singleton in Hs'.
    rewrite <- (length_map pe_handle), Hs'.
    destruct (port (w_data (run_opens b cs w))); cbn; lia.
  - intros p Hp. unfold open_step in Hstep. rewrite Hp in Hstep. exact Hstep.
Qed.

Lemma port_singleton_opens_witness :
  port_singleton
    (run_opens Input
       [open_virtual_port_call "in"; open_port_call 0 "other";
        open_virtual_port_call "third"] in_created)
  /\ (length (registered
        (run_opens Input
           [open_virtual_port_call "in"; open_port_call 0 "other";
            open_virtual_port_call "third"] in_created)) <= 1)%nat
  /\ (forall p,
         port (w_data in_created) = Some p ->
         port (w_data
           (run_opens Input
              [open_virtual_port_call "in"; open_port_call 0 "other";
               open_virtual_port_call "third"] in_created)) = Some p
         /\ registered
              (run_opens Input
                 [open_virtual_port_call "in"; open_port_call 0 "other";
                  open_virtual_port_call "third"] in_created)
            = registered in_created
         /\ registrations
              (run_opens Input
                 [open_virtual_port_call "in"; open_port_call 0 "other";
                  open_virtual_port_call "third"] in_created)
            = registrations in_created).
Proof.
  apply (port_singleton_opens Input
           [open_virtual_port_call "in"; open_port_call 0 "other";
            open_virtual_port_call "third"] in_created).
  reflexivity.
Defined.

(** After the first open the registry holds the one port, and the two
    opens that follow have registered nothing. *)
Example three_opens_one_port :
  let w := run_opens Input
             [open_virtual_port_call "in"; open_port_call 0 "other";
              open_virtual_port_call "third"] in_created in
  map pe_name (registered w) = ["in"%string]
  /\ length (registrations w) = 1%nat.
Proof. vm_compute. split; reflexivity. Qed.

(* ================================================================= *)
(** ** The input callback, event by event *)

Lemma process_event_spec (event : list byte) (w : world) :
  midi_in_jack.process_event event w = (Ok tt, after_event event w).
Proof.
  destruct w as [d i s cn th tr].
  destruct d as [c p bs bm lt sc sn].
  destruct i as [q lim ucb fm cs].
  destruct s as [run acc peers clock cyc nxt ports cb act inb outb].
  unfold midi_in_jack.process_event, jack_get_time, midi_in_jack.queue_push,
    after_event, stamp, delivery, queue_after, next_time, delta_seconds,
    bind, gets, emit, modify, ret.
  destruct clock as [|t clock]; destruct fm; destruct cs; destruct ucb;
    cbn -[Nat.ltb uint64 double_mul double_of_uint64 queue_full_notice];
    try (destruct (Nat.ltb (length q) lim);
         cbn -[Nat.ltb uint64 double_mul double_of_uint64 queue_full_notice]);
    rewrite ?app_nil_r; try reflexivity;
    unfold log, with_data, with_in; cbn [w_trace w_thread w_data w_in w_srv
                                           w_clientName app];
    rewrite <- app_assoc; reflexivity.
Qed.

(* ================================================================= *)
(** ** Timestamps are not negative *)











(* ================================================================= *)
(** ** One run of the input callback *)

Lemma process_events_spec (events : list (list byte)) :
  forall w, midi_in_jack.process_events events w = (Ok tt, after_events events w).
Proof.
  induction events as [|event rest IH]; intros w; [reflexivity|].
  cbn [midi_in_jack.process_events after_events]. unfold bind.
  rewrite process_event_spec. apply IH.
Qed.

Lemma after_events_trace (events : list (list byte)) :
  forall w, w_trace (after_events events w) = w_trace w ++ run_log events w.
Proof.
  induction events as [|event rest IH]; intros w; cbn [after_events run_log].
  - symmetry. apply app_nil_r.
  - rewrite IH. cbn [after_event w_trace]. rewrite <- app_assoc. reflexivity.
Qed.

Lemma jackProcessIn_spec (nframes : Z) (w : world) :
  midi_in_jack.jackProcessIn nframes w =
  (Ok 0,
   match port (w_data w) with
   | None => w
   | Some p => after_events (srv_inbuf (w_srv w)) (log (PortGetBuffer p nframes) w)
   end).
Proof.
  unfold midi_in_jack.jackProcessIn, bind, gets, jack_port_get_buffer, emit, modify.
  destruct (port (w_data w)) as [p|]; [|reflexivity].
  rewrite process_events_spec. reflexivity.
Qed.

Lemma delivered_app (l1 l2 : list (thread * call)) :
  delivered (l1 ++ l2) = delivered l1 ++ delivered l2.
Proof.
  induction l1 as [|e l1 IH]; [reflexivity|].
  cbn [app delivered]. destruct (delivered_message e); rewrite IH; reflexivity.
Qed.

Lemma delivered_delivery (i : in_data) (t : thread) (m : message) :
  delivered (delivery i t m) =
  if continueSysex i then []
  else if userCallback i then [m]
  else if Nat.ltb (length (queue i)) (queueSizeLimit i) then [m]
  else [].
Proof.
  unfold delivery.
  destruct (continueSysex i); [reflexivity|].
  destruct (userCallback i); [reflexivity|].
  destruct (Nat.ltb (length (queue i)) (queueSizeLimit i)); reflexivity.
Qed.




Lemma new_trace_app (w w' : world) (l : list (thread * call)) :
  w_trace w' = w_trace w ++ l -> new_trace w w' = l.
Proof. intros H. unfold new_trace. rewrite H. apply skipn_length_app. Qed.

Lemma jackProcessIn_new_trace (nframes : Z) (w : world) :
  delivered (new_trace w (exec (midi_in_jack.jackProcessIn nframes) w)) =
  match port (w_data w) with
  | None => []
  | Some p => delivered (run_log (srv_inbuf (w_srv w)) (log (PortGetBuffer p nframes) w))
  end.
Proof.
  unfold exec. rewrite jackProcessIn_spec. cbn [snd].
  destruct (port (w_data w)) as [p|].
  - erewrite new_trace_app.
    2:{ rewrite after_events_trace. cbn [log w_trace]. rewrite <- app_assoc.
        reflexivity. }
    rewrite delivered_app. reflexivity.
  - rewrite (new_trace_app w w []) by (symmetry; apply app_nil_r). reflexivity.
Qed.

Lemma after_events_app (pre post : list (list byte)) :
  forall w, after_events (pre ++ post) w = after_events post (after_events pre w).
Proof.
  induction pre as [|e pre IH]; intros w; cbn [app after_events];
    [reflexivity | apply IH].
Qed.

Lemma after_events_thread (events : list (list byte)) :
  forall w, w_thread (after_events events w) = w_thread w.
Proof.
  induction events as [|e rest IH]; intros w; cbn [after_events]; [reflexivity|].
  rewrite IH. reflexivity.
Qed.

(** C9.  One run of [jackProcessIn] always returns 0: it neither raises
    nor leaves defined behaviour; without a port it does nothing.  With a
    port open it handles every event of the port buffer, in the order of
    the buffer.  For the event at any position of the buffer, in the world
    [w_e] the callback has reached after the events before it: the message
    carries the bytes of the event; with the continue-sysex flag set
    nothing is logged and the queue is left as it was, so the message is
    discarded; otherwise, with a user callback installed, the callback is
    invoked with the message and the queue is left as it was; otherwise
    the message is pushed to the end of the queue when the queue has room,
    and when it has none the refused push is followed by the notice on
    stderr and the queue is left as it was.  What is logged for the event
    stays in the log of the run, after the entries of the events before it
    and before those of the events after it. *)
Theorem input_delivery (nframes : Z) (w : world) :
  (exists w', midi_in_jack.jackProcessIn nframes w = (Ok 0, w'))
  /\ (port (w_data w) = None ->
      midi_in_jack.jackProcessIn nframes w = (Ok 0, w))
  /\ (forall p pre event post,
         port (w_data w) = Some p ->
         srv_inbuf (w_srv w) = pre ++ event :: post ->
         let w_e := exec (midi_in_jack.process_events pre)
                      (log (PortGetBuffer p nframes) w) in
         let w_e' := exec (midi_in_jack.process_event event) w_e in
         let w' := exec (midi_in_jack.process_events post) w_e' in
         let m := stamp w_e event in
         let i := w_in w_e in
         let t := w_thread w in
         midi_in_jack.jackProcessIn nframes w = (Ok 0, w')
         /\ outcome (midi_in_jack.process_event event) w_e = Ok tt
         /\ (exists before,
                w_trace w_e = w_trace w ++ (t, PortGetBuffer p nframes) :: before)
         /\ (exists later, w_trace w' = w_trace w_e' ++ later)
         /\ bytes m = event
         /\ (continueSysex i = true ->
             w_trace w_e' = w_trace w_e /\ queue (w_in w_e') = queue i)
         /\ (continueSysex i = false -> userCallback i = true ->
             w_trace w_e' = w_trace w_e ++ [(t, UserCallback m)]
             /\ queue (w_in w_e') = queue i)
         /\ (continueSysex i = false -> userCallback i = false ->
             (length (queue i) < queueSizeLimit i)%nat ->
             w_trace w_e' = w_trace w_e ++ [(t, QueuePush m true)]
             /\ queue (w_in w_e') = queue i ++ [m])
         /\ (continueSysex i = false -> userCallback i = false ->
             (queueSizeLimit i <= length (queue i))%nat ->
             w_trace w_e' =
               w_trace w_e ++ [(t, QueuePush m false); (t, Cerr queue_full_notice)]
             /\ queue (w_in w_e') = queue i)).
Proof.
  split; [rewrite jackProcessIn_spec; eexists; reflexivity|].
  split; [intros Hp; rewrite jackProcessIn_spec, Hp; reflexivity|].
  intros p pre event post Hp Hbuf. cbv zeta.
  unfold exec, outcome.
  rewrite !process_events_spec. cbn [snd].
  rewrite process_event_spec. cbn [fst snd].
  set (w0 := log (PortGetBuffer p nframes) w).
  assert (Ht : w_thread (after_events pre w0) = w_thread w)
    by (rewrite after_events_thread; reflexivity).
  split.
  { rewrite jackProcessIn_spec, Hp, Hbuf. fold w0. f_equal.
    apply (after_events_app pre (event :: post)). }
  split; [reflexivity|].
  split.
  { exists (run_log pre w0). rewrite after_events_trace.
    unfold w0 at 1. cbn [log w_trace]. rewrite <- app_assoc. reflexivity. }
  split.
  { exists (run_log post (after_event event (after_events pre w0))).
    apply after_events_trace. }
  split; [reflexivity|].
  cbn [after_event w_trace w_in set_firstMessage set_queue queue].
  unfold delivery, queue_after. rewrite Ht.
  split; [intros ->; split; [apply app_nil_r | reflexivity]|].
  split; [intros -> ->; split; reflexivity|].
  split.
  - intros -> -> Hlt. apply Nat.ltb_lt in Hlt. rewrite Hlt. split; reflexivity.
  - intros -> -> Hge. apply Nat.ltb_ge in Hge. rewrite Hge. split; reflexivity.
Qed.

Lemma input_delivery_witness :
  let w := with_srv (set_srv_inbuf [note_on; control_change]) in_open in
  let w_e := exec (midi_in_jack.process_events [note_on])
               (log (PortGetBuffer 2%nat 64) w) in
  let w_e' := exec (midi_in_jack.process_event control_change) w_e in
  let w' := exec (midi_in_jack.process_events []) w_e' in
  let m := stamp w_e control_change in
  let i := w_in w_e in
  let t := w_thread w in
  midi_in_jack.jackProcessIn 64 w = (Ok 0, w')
  /\ outcome (midi_in_jack.process_event control_change) w_e = Ok tt
  /\ (exists before,
         w_trace w_e = w_trace w ++ (t, PortGetBuffer 2%nat 64) :: before)
  /\ (exists later, w_trace w' = w_trace w_e' ++ later)
  /\ bytes m = control_change
  /\ (continueSysex i = true ->
      w_trace w_e' = w_trace w_e /\ queue (w_in w_e') = queue i)
  /\ (continueSysex i = false -> userCallback i = true ->
      w_trace w_e' = w_trace w_e ++ [(t, UserCallback m)]
      /\ queue (w_in w_e') = queue i)
  /\ (continueSysex i = false -> userCallback i = false ->
      (length (queue i) < queueSizeLimit i)%nat ->
      w_trace w_e' = w_trace w_e ++ [(t, QueuePush m true)]
      /\ queue (w_in w_e') = queue i ++ [m])
  /\ (continueSysex i = false -> userCallback i = false ->
      (queueSizeLimit i <= length (queue i))%nat ->
      w_trace w_e' =
        w_trace w_e ++ [(t, QueuePush m false); (t, Cerr queue_full_notice)]
      /\ queue (w_in w_e') = queue i).
Proof.
  intros w.
  exact (proj2 (proj2 (input_delivery 64 w))
           2%nat [note_on] control_change [] eq_refl eq_refl).
Defined.

(* ================================================================= *)
(** ** Timestamps of delivered messages *)



(* ================================================================= *)
(** ** An instance without a server *)

Lemma in_connect_no_server (w : world) :
  srv_running (w_srv w) = false ->
  client (w_data w) = None ->
  midi_in_jack.connect w = (Ok tt, in_failed_connect w).
Proof.
  intros Hrun Hc.
  unfold midi_in_jack.connect, jack_client_open, warning, bind, gets, emit,
    modify, ret.
  rewrite Hc, Hrun. reflexivity.
Qed.

Lemma out_connect_no_server (w : world) :
  srv_running (w_srv w) = false ->
  client (w_data w) = None ->
  midi_out_jack.connect w = (Ok tt, out_failed_connect w).
Proof.
  intros Hrun Hc.
  unfold midi_out_jack.connect, jack_ringbuffer_create, jack_client_open,
    warning, bind, gets, emit, modify, ret.
  rewrite Hc. cbn [w_srv with_data log]. rewrite Hrun. reflexivity.
Qed.

Lemma in_get_port_count_no_server (w : world) :
  srv_running (w_srv w) = false ->
  client (w_data w) = None ->
  midi_in_jack.get_port_count w = (Ok 0%nat, in_failed_connect w).
Proof.
  intros Hrun Hc. unfold midi_in_jack.get_port_count, bind.
  rewrite (in_connect_no_server w Hrun Hc). reflexivity.
Qed.

Lemma out_get_port_count_no_server (w : world) :
  srv_running (w_srv w) = false ->
  client (w_data w) = None ->
  midi_out_jack.get_port_count w = (Ok 0%nat, out_failed_connect w).
Proof.
  intros Hrun Hc. unfold midi_out_jack.get_port_count, bind.
  rewrite (out_connect_no_server w Hrun Hc). reflexivity.
Qed.

Lemma in_open_port_no_server (i : nat) (name : string) (w : world) :
  srv_running (w_srv w) = false ->
  client (w_data w) = None ->
  port (w_data w) = None ->
  midi_in_jack.open_port i name w =
  (Raise (driver_error "MidiInJack::openPort: JACK error creating port"),
   failed_open JackPortIsInput name
     "MidiInJack::openPort: JACK error creating port" (in_failed_connect w)).
Proof.
  intros Hrun Hc Hp. unfold midi_in_jack.open_port.
  unfold bind at 1. rewrite (in_connect_no_server w Hrun Hc).
  unfold bind at 1. unfold gets at 1.
  change (port (w_data (in_failed_connect w))) with (port (w_data w)).
  change (client (w_data (in_failed_connect w))) with (@None jack_client_t).
  rewrite Hp. reflexivity.
Qed.

Lemma out_open_port_no_server (i : nat) (name : string) (w : world) :
  srv_running (w_srv w) = false ->
  client (w_data w) = None ->
  port (w_data w) = None ->
  midi_out_jack.open_port i name w =
  (Raise (driver_error "MidiOutJack::openPort: JACK error creating port"),
   failed_open JackPortIsOutput name
     "MidiOutJack::openPort: JACK error creating port" (out_failed_connect w)).
Proof.
  intros Hrun Hc Hp. unfold midi_out_jack.open_port.
  unfold bind at 1. rewrite (out_connect_no_server w Hrun Hc).
  unfold bind at 1. unfold gets at 1.
  change (port (w_data (out_failed_connect w))) with (port (w_data w)).
  change (client (w_data (out_failed_connect w))) with (@None jack_client_t).
  rewrite Hp. reflexivity.
Qed.

(** C7.  With the server not running and the instance unconnected:
    [connect] returns after a failed [jack_client_open] and the warning,
    and the client handle stays null; [get_port_count] then returns 0; and
    the [open_port 0 "x"] that follows raises a driver error, with no port
    registered and the port handle null.  This holds for both backends. *)
Theorem unconnected_instance (w : world) :
  srv_running (w_srv w) = false ->
  client (w_data w) = None ->
  port (w_data w) = None ->
  (exists w1 w2 w3,
      midi_in_jack.connect w = (Ok tt, w1)
      /\ client (w_data w1) = None
      /\ new_trace w w1 =
         [ (w_thread w, ClientOpen (w_clientName w) None);
           (w_thread w, Warning "MidiInJack::initialize: JACK server not running?") ]
      /\ midi_in_jack.get_port_count w1 = (Ok 0%nat, w2)
      /\ midi_in_jack.open_port 0 "x" w2 =
         (Raise (driver_error "MidiInJack::openPort: JACK error creating port"), w3)
      /\ port (w_data w3) = None
      /\ registered w3 = registered w)
  /\ (exists w1 w2 w3,
      midi_out_jack.connect w = (Ok tt, w1)
      /\ client (w_data w1) = None
      /\ new_trace w w1 =
         [ (w_thread w, RingbufferCreate ringbuffer_size);
           (w_thread w, RingbufferCreate ringbuffer_size);
           (w_thread w, ClientOpen (w_clientName w) None);
           (w_thread w, Warning "MidiOutJack::initialize: JACK server not running?") ]
      /\ midi_out_jack.get_port_count w1 = (Ok 0%nat, w2)
      /\ midi_out_jack.open_port 0 "x" w2 =
         (Raise (driver_error "MidiOutJack::openPort: JACK error creating port"), w3)
      /\ port (w_data w3) = None
      /\ registered w3 = registered w).
Proof.
  intros Hrun Hc Hp. split.
  - exists (in_failed_connect w), (in_failed_connect (in_failed_connect w)).
    eexists.
    split; [apply in_connect_no_server; assumption|].
    split; [reflexivity|].
    split.
    { apply new_trace_app. unfold in_failed_connect.
      cbn [w_trace log with_data w_thread]. rewrite <- app_assoc. reflexivity. }
    split; [apply in_get_port_count_no_server; [exact Hrun | reflexivity]|].
    split; [apply in_open_port_no_server; [exact Hrun | reflexivity | exact Hp]|].
    split; reflexivity.
  - exists (out_failed_connect w), (out_failed_connect (out_failed_connect w)).
    eexists.
    split; [apply out_connect_no_server; assumption|].
    split; [reflexivity|].
    split.
    { apply new_trace_app. unfold out_failed_connect.
      cbn [w_trace log with_data w_thread]. rewrite <- !app_assoc. reflexivity. }
    split; [apply out_get_port_count_no_server; [exact Hrun | reflexivity]|].
    split; [apply out_open_port_no_server; [exact Hrun | reflexivity | exact Hp]|].
    split; reflexivity.
Qed.

Lemma unconnected_instance_witness :
  (exists w1 w2 w3,
      midi_in_jack.connect out_orphan = (Ok tt, w1)
      /\ client (w_data w1) = None
      /\ new_trace out_orphan w1 =
         [ (w_thread out_orphan, ClientOpen (w_clientName out_orphan) None);
           (w_thread out_orphan,
            Warning "MidiInJack::initialize: JACK server not running?") ]
      /\ midi_in_jack.get_port_count w1 = (Ok 0%nat, w2)
      /\ midi_in_jack.open_port 0 "x" w2 =
         (Raise (driver_error "MidiInJack::openPort: JACK error creating port"), w3)
      /\ port (w_data w3) = None
      /\ registered w3 = registered out_orphan)
  /\ (exists w1 w2 w3,
      midi_out_jack.connect out_orphan = (Ok tt, w1)
      /\ client (w_data w1) = None
      /\ new_trace out_orphan w1 =
         [ (w_thread out_orphan, RingbufferCreate ringbuffer_size);
           (w_thread out_orphan, RingbufferCreate ringbuffer_size);
           (w_thread out_orphan, ClientOpen (w_clientName out_orphan) None);
           (w_thread out_orphan,
            Warning "MidiOutJack::initialize: JACK server not running?") ]
      /\ midi_out_jack.get_port_count w1 = (Ok 0%nat, w2)
      /\ midi_out_jack.open_port 0 "x" w2 =
         (Raise (driver_error "MidiOutJack::openPort: JACK error creating port"), w3)
      /\ port (w_data w3) = None
      /\ registered w3 = registered out_orphan).
Proof.
  apply (unconnected_instance out_orphan); reflexivity.
Defined.

(* ================================================================= *)
(** ** Renaming the port *)

Lemma rename_port_trace (p : option jack_port_t) (name : string) (w : world) :
  exists w', rename_port p name w = (Ok tt, w')
             /\ w_trace w' = w_trace w /\ w_data w' = w_data w.
Proof.
  destruct p as [p|]; eexists; (split; [reflexivity|]); split; reflexivity.
Qed.

Lemma set_port_name_calls (has_port_rename : bool) (name : string) (w : world) :
  exists w',
    (if has_port_rename
     then jack_port_rename (client (w_data w)) (port (w_data w)) name
     else jack_port_set_name (port (w_data w)) name) w = (Ok tt, w')
    /\ new_trace w w' = [(w_thread w, rename_call has_port_rename w name)]
    /\ w_data w' = w_data w.
Proof.
  unfold rename_call, jack_port_rename, jack_port_set_name, bind, emit, modify.
  destruct has_port_rename.
  - destruct (client (w_data w)) as [c|].
    + destruct (rename_port_trace (port (w_data w)) name
                  (log (PortRename (Some c) (port (w_data w)) name) w))
        as (w' & Heq & Htr & Hd).
      exists w'. rewrite Heq. split; [reflexivity|]. split; [|exact Hd].
      apply new_trace_app. rewrite Htr. reflexivity.
    + eexists. split; [reflexivity|]. split; [|reflexivity].
      apply new_trace_app. reflexivity.
  - destruct (rename_port_trace (port (w_data w)) name
                (log (PortSetName (port (w_data w)) name) w))
      as (w' & Heq & Htr & Hd).
    exists w'. rewrite Heq. split; [reflexivity|]. split; [|exact Hd].
    apply new_trace_app. rewrite Htr. reflexivity.
Qed.

(** C10.  In every state of either backend, [set_port_name] returns and
    logs one call and nothing else, no warning either: the rename
    primitive of the server, handed the port handle as it is.  With no
    port open the primitive is therefore called with the null handle. *)
Theorem set_port_name_unguarded (has_port_rename : bool) (name : string)
    (w : world) :
  (exists w',
      midi_in_jack.set_port_name has_port_rename name w = (Ok tt, w')
      /\ new_trace w w' = [(w_thread w, rename_call has_port_rename w name)])
  /\ (exists w',
      midi_out_jack.set_port_name has_port_rename name w = (Ok tt, w')
      /\ new_trace w w' = [(w_thread w, rename_call has_port_rename w name)])
  /\ (port (w_data w) = None ->
      rename_call has_port_rename w name =
      if has_port_rename
      then PortRename (client (w_data w)) None name
      else PortSetName None name).
Proof.
  destruct (set_port_name_calls has_port_rename name w) as (w' & Heq & Htr & _).
  split; [|split].
  - exists w'. split; [|exact Htr].
    unfold midi_in_jack.set_port_name, bind, gets. destruct has_port_rename; exact Heq.
  - exists w'. split; [|exact Htr].
    unfold midi_out_jack.set_port_name, bind, gets. destruct has_port_rename; exact Heq.
  - intros Hp. unfold rename_call. rewrite Hp. reflexivity.
Qed.

(* ================================================================= *)
(** ** Enumeration *)

(** Port names by index on a connected input instance: no peer at all,
    an index in range, and the index that is the port count. *)
Lemma in_get_port_name_connected (i : nat) (w : world) (c : jack_client_t) :
  client (w_data w) = Some c ->
  let ports := srv_peers (w_srv w) JackPortIsOutput in
  (ports = [] ->
   outcome (midi_in_jack.get_port_name i) w = Ok EmptyString
   /\ In (w_thread w, Warning "MidiInJack::getPortName: no ports available!")
         (w_trace (exec (midi_in_jack.get_port_name i) w)))
  /\ (forall name, nth_error ports i = Some name ->
      outcome (midi_in_jack.get_port_name i) w = Ok name)
  /\ (ports <> [] -> i = length ports ->
      outcome (midi_in_jack.get_port_name i) w = Ok EmptyString
      /\ In (w_thread w,
             Warning ("MidiInJack::getPortName: the 'portNumber' argument ("
                      ++ string_of_nat i ++ ") is invalid."))
            (w_trace (exec (midi_in_jack.get_port_name i) w)))
  /\ (ports <> [] -> (length ports < i)%nat ->
      outcome (midi_in_jack.get_port_name i) w = Undefined).
Proof.
  intros Hc ports.
  unfold outcome, exec, midi_in_jack.get_port_name, midi_in_jack.connect,
    jack_get_ports, warning, jack_free, array_at, bind, gets, emit, modify, ret.
  rewrite Hc. cbn [w_data log w_srv]. rewrite Hc. fold ports.
  split; [|split; [|split]].
  - intros ->. cbn. split; [reflexivity|].
    apply in_or_app. right. left. reflexivity.
  - intros name Hn. destruct ports as [|p0 ps]; [destruct i; discriminate|].
    rewrite Hn. reflexivity.
  - intros Hne ->. destruct ports as [|p0 ps]; [contradiction|].
    assert (Hnone : nth_error (p0 :: ps) (length (p0 :: ps)) = None)
      by (apply nth_error_None; lia).
    rewrite Hnone, Nat.eqb_refl. cbn [fst snd w_trace log].
    split; [reflexivity|].
    apply in_or_app. left. apply in_or_app. right. left. reflexivity.
  - intros Hne Hlt. destruct ports as [|p0 ps]; [contradiction|].
    assert (Hnone : nth_error (p0 :: ps) i = None)
      by (apply nth_error_None; lia).
    rewrite Hnone.
    replace (Nat.eqb i (length (p0 :: ps))) with false
      by (symmetry; apply Nat.eqb_neq; lia).
    reflexivity.
Qed.

(** C6 on the code: with one peer port, the port count is 1 and index 1
    gives the empty name, but index 2 makes [get_port_name] read past the
    terminator of the array of names, for both backends. *)
Theorem get_port_name_past_end :
  outcome midi_in_jack.get_port_count in_created = Ok 1%nat
  /\ outcome (midi_in_jack.get_port_name 1) in_created = Ok EmptyString
  /\ outcome (midi_in_jack.get_port_name 2) in_created = Undefined
  /\ outcome midi_out_jack.get_port_count out_created = Ok 1%nat
  /\ outcome (midi_out_jack.get_port_name 1) out_created = Ok EmptyString
  /\ outcome (midi_out_jack.get_port_name 2) out_created = Undefined.
Proof. repeat split; vm_compute; reflexivity. Qed.

(* ================================================================= *)
(** ** The lifetime of the ringbuffer pair *)

(** Once connected, [connect] does nothing. *)
Lemma out_connect_connected (w : world) (c : jack_client_t) :
  client (w_data w) = Some c -> midi_out_jack.connect w = (Ok tt, w).
Proof.
  intros H. unfold midi_out_jack.connect, bind, gets. rewrite H. reflexivity.
Qed.

(** C8 on the code: with no server, the constructor creates the pair, the
    [connect] inside [get_port_count] creates a second pair over it, and
    the destructor frees one pair. *)
Theorem ringbuffers_created_again :
  count_calls is_ringbuffer_create out_orphan = 2%nat
  /\ count_calls is_ringbuffer_create
       (exec midi_out_jack.get_port_count out_orphan) = 4%nat
  /\ outcome midi_out_jack.destroy
       (exec midi_out_jack.get_port_count out_orphan) = Ok tt
  /\ count_calls is_ringbuffer_free
       (exec midi_out_jack.destroy
          (exec midi_out_jack.get_port_count out_orphan)) = 2%nat.
Proof. repeat split; vm_compute; reflexivity. Qed.

(* ================================================================= *)
(** * Further properties *)

(* ================================================================= *)
(** ** Enumeration on a connected instance *)

Ltac log_norm :=
  unfold log, add_trace;
  cbn [w_data w_in w_srv w_clientName w_thread w_trace];
  rewrite <- ?app_assoc; reflexivity.

Lemma in_connect_connected (w : world) (c : jack_client_t) :
  client (w_data w) = Some c -> midi_in_jack.connect w = (Ok tt, w).
Proof.
  intros H. unfold midi_in_jack.connect, bind, gets. rewrite H. reflexivity.
Qed.

Lemma connect_of_connected (b : backend) (w : world) (c : jack_client_t) :
  client (w_data w) = Some c -> connect_of b w = (Ok tt, w).
Proof.
  destruct b; [apply in_connect_connected | apply out_connect_connected].
Qed.

Lemma jack_get_ports_spec (c : jack_client_t) (d : direction) (w : world) :
  jack_get_ports (Some c) d w =
  (Ok (if is_nil (srv_peers (w_srv w) d) then None else Some (srv_peers (w_srv w) d)),
   log (GetPorts (Some c) d) w).
Proof.
  unfold jack_get_ports, bind, gets, emit, modify. cbn [w_srv log].
  destruct (srv_peers (w_srv w) d); reflexivity.
Qed.

(** On a connected instance of either backend: [get_port_count] returns
    the number of peer ports of the opposite direction, and for every
    index below it [get_port_name] returns the name at that index without
    a warning.  Each of the two only lists the ports and, when the list is
    not null, frees it once; nothing else changes. *)
Theorem enumeration_connected (b : backend) (w : world) (c : jack_client_t) :
  client (w_data w) = Some c ->
  let peers := srv_peers (w_srv w) (peer_direction b) in
  let listed := (w_thread w, GetPorts (Some c) (peer_direction b)) in
  get_port_count_of b w =
    (Ok (length peers),
     add_trace (listed :: if is_nil peers then [] else [(w_thread w, Free)]) w)
  /\ forall i name,
       nth_error peers i = Some name ->
       get_port_name_of b i w =
       (Ok name, add_trace [listed; (w_thread w, Free)] w).
Proof.
  intros Hc. cbv zeta. split.
  - destruct b; cbn [get_port_count_of peer_direction];
      [unfold midi_in_jack.get_port_count | unfold midi_out_jack.get_port_count];
      unfold bind at 1;
      [rewrite (in_connect_connected w c Hc) | rewrite (out_connect_connected w c Hc)];
      unfold bind at 1; unfold gets at 1; rewrite Hc;
      unfold bind at 1; rewrite jack_get_ports_spec;
      (destruct (srv_peers (w_srv w) _) as [|p0 ps];
       cbn [is_nil length]; unfold ret, jack_free, bind, emit, modify;
       f_equal; log_norm).
  - intros i name Hn.
    destruct b; cbn [get_port_name_of peer_direction] in *;
      [unfold midi_in_jack.get_port_name | unfold midi_out_jack.get_port_name];
      unfold bind at 1;
      [rewrite (in_connect_connected w c Hc) | rewrite (out_connect_connected w c Hc)];
      unfold bind at 1; unfold gets at 1; rewrite Hc;
      unfold bind at 1; rewrite jack_get_ports_spec;
      (destruct (srv_peers (w_srv w) _) as [|p0 ps];
       [destruct i; discriminate|]);
      cbn [is_nil]; unfold array_at, bind; rewrite Hn;
      unfold ret, jack_free, emit, modify; f_equal; log_norm.
Qed.

Lemma enumeration_connected_witness :
  let peers := srv_peers (w_srv in_created) (peer_direction Input) in
  let listed := (w_thread in_created, GetPorts (Some 1%nat) (peer_direction Input)) in
  get_port_count_of Input in_created =
    (Ok (length peers),
     add_trace (listed :: if is_nil peers then [] else [(w_thread in_created, Free)])
       in_created)
  /\ forall i name,
       nth_error peers i = Some name ->
       get_port_name_of Input i in_created =
       (Ok name, add_trace [listed; (w_thread in_created, Free)] in_created).
Proof.
  apply (enumeration_connected Input in_created 1%nat). reflexivity.
Defined.

(* ================================================================= *)
(** ** Connecting *)

Lemma connect_of_running (b : backend) (w : world) :
  srv_running (w_srv w) = true ->
  client (w_data w) = None ->
  connect_of b w = (Ok tt, connected b w).
Proof.
  intros Hrun Hc. destruct b; cbn [connect_of connected].
  - unfold midi_in_jack.connect, jack_client_open, jack_set_process_callback,
      jack_activate, bind, gets, emit, modify, ret.
    rewrite Hc, Hrun. reflexivity.
  - unfold midi_out_jack.connect, jack_ringbuffer_create, jack_client_open,
      jack_set_process_callback, jack_activate, bind, gets, emit, modify, ret.
    rewrite Hc. cbn [w_srv with_data log]. rewrite Hrun. reflexivity.
Qed.

(** With the server running, [connect] on an unconnected instance opens
    the client, registers the process callback of its own backend and
    activates the client, in this order; the output backend creates its two
    ringbuffers of 16384 bytes first.  The port handle and the server's
    registry are left as they were, and a second [connect] does nothing at
    all. *)
Theorem connect_once (b : backend) (w : world) :
  srv_running (w_srv w) = true ->
  client (w_data w) = None ->
  let w1 := connected b w in
  connect_of b w = (Ok tt, w1)
  /\ client (w_data w1) = Some (srv_next (w_srv w))
  /\ srv_callback (w_srv w1) = Some (callback_of b)
  /\ srv_active (w_srv w1) = true
  /\ port (w_data w1) = port (w_data w)
  /\ registered w1 = registered w
  /\ new_trace w w1 = connect_log b w
  /\ (b = Output ->
      buffSize (w_data w1) = Some (jack_ringbuffer_create_pure ringbuffer_size)
      /\ buffMessage (w_data w1) = Some (jack_ringbuffer_create_pure ringbuffer_size))
  /\ connect_of b w1 = (Ok tt, w1).
Proof.
  intros Hrun Hc. cbv zeta.
  split; [apply connect_of_running; assumption|].
  split; [destruct b; reflexivity|].
  split; [destruct b; reflexivity|].
  split; [destruct b; reflexivity|].
  split; [destruct b; reflexivity|].
  split; [destruct b; reflexivity|].
  split.
  { apply new_trace_app. destruct b; unfold connected, client_opened, rings_created,
      connect_log;
      cbn [w_trace log with_srv with_data w_thread w_srv w_clientName app];
      rewrite <- ?app_assoc; reflexivity. }
  split; [intros ->; split; reflexivity|].
  apply (connect_of_connected b _ (srv_next (w_srv w))). destruct b; reflexivity.
Qed.

Lemma connect_once_witness :
  let w := midi_out_jack.fresh "t1" jack_running in
  let w1 := connected Output w in
  connect_of Output w = (Ok tt, w1)
  /\ client (w_data w1) = Some (srv_next (w_srv w))
  /\ srv_callback (w_srv w1) = Some (callback_of Output)
  /\ srv_active (w_srv w1) = true
  /\ port (w_data w1) = port (w_data w)
  /\ registered w1 = registered w
  /\ new_trace w w1 = connect_log Output w
  /\ (Output = Output ->
      buffSize (w_data w1) = Some (jack_ringbuffer_create_pure ringbuffer_size)
      /\ buffMessage (w_data w1) = Some (jack_ringbuffer_create_pure ringbuffer_size))
  /\ connect_of Output w1 = (Ok tt, w1).
Proof.
  apply (connect_once Output (midi_out_jack.fresh "t1" jack_running)); reflexivity.
Defined.

(* ================================================================= *)
(** ** Opening a port on a connected instance *)

(** [get_port_name] on a connected instance, in every case. *)
Lemma get_port_name_of_spec (b : backend) (i : nat) (w : world) (c : jack_client_t) :
  client (w_data w) = Some c ->
  get_port_name_of b i w =
  (name_lookup_result b i w, add_trace (name_lookup_log b c i w) w).
Proof.
  intros Hc. unfold name_lookup_result, name_lookup_log.
  destruct b; cbn [get_port_name_of peer_direction];
    [unfold midi_in_jack.get_port_name | unfold midi_out_jack.get_port_name];
    unfold bind at 1;
    [rewrite (in_connect_connected w c Hc) | rewrite (out_connect_connected w c Hc)];
    unfold bind at 1; unfold gets at 1; rewrite Hc;
    unfold bind at 1; rewrite jack_get_ports_spec;
    (destruct (srv_peers (w_srv w) _) as [|p0 ps] eqn:Hpeers;
     [ cbn [is_nil]; unfold warning, bind, emit, modify, ret; f_equal; log_norm
     | cbn [is_nil]; unfold array_at, bind;
       destruct (nth_error (p0 :: ps) i) as [name|];
       [ unfold ret, jack_free, emit, modify; f_equal; log_norm
       | destruct (Nat.eqb i (length (p0 :: ps)));
         [ unfold warning, jack_free, bind, emit, modify, ret; f_equal; log_norm
         | unfold undefined; f_equal; log_norm ] ] ]).
Qed.

Lemma log_add_trace (c : call) (l : list (thread * call)) (w : world) :
  log c (add_trace l w) = add_trace (l ++ [(w_thread w, c)]) w.
Proof.
  unfold log, add_trace.
  cbn [w_data w_in w_srv w_clientName w_thread w_trace].
  rewrite <- app_assoc. reflexivity.
Qed.

Lemma jack_port_register_ok (c : jack_client_t) (name : string) (d : direction)
    (w : world) :
  srv_accept (w_srv w) name = true ->
  registered w = [] ->
  jack_port_register (Some c) name d w =
  (Ok (Some (srv_next (w_srv w))),
   log (PortRegister (Some c) name d (Some (srv_next (w_srv w))))
     (with_srv (fun s =>
        set_srv_next (S (srv_next s))
          (set_srv_ports
             (srv_ports s ++
              [{| pe_handle := srv_next s; pe_name := name; pe_dir := d |}]) s)) w)).
Proof.
  unfold registered. intros Ha Hr.
  unfold jack_port_register, bind, gets, emit, modify, ret.
  rewrite Ha, Hr. reflexivity.
Qed.

Lemma jack_port_name_registered (b : backend) (c : jack_client_t) (name : string)
    (w : world) (l : list (thread * call)) :
  registered w = [] ->
  jack_port_name (srv_next (w_srv w)) (add_trace l (port_registered b c name w)) =
  (Ok (own_name w name), add_trace l (port_registered b c name w)).
Proof.
  unfold registered. intros Hr.
  unfold jack_port_name, bind, gets, ret.
  cbn [w_srv add_trace port_registered with_data log with_srv srv_ports
       set_srv_next set_srv_ports w_clientName].
  rewrite Hr. cbn [app find new_entry pe_handle pe_name].
  rewrite Nat.eqb_refl. reflexivity.
Qed.

(** [open_port] on a connected instance with no port open, when the server
    accepts the name: the port is registered, and then everything depends
    on the lookup of the peer's name. *)
Lemma open_port_of_spec (b : backend) (i : nat) (name : string) (w : world)
    (c : jack_client_t) :
  client (w_data w) = Some c ->
  port (w_data w) = None ->
  registered w = [] ->
  srv_accept (w_srv w) name = true ->
  let w1 := port_registered b c name w in
  open_port_of b i name w =
  match name_lookup_result b i w with
  | Ok peer =>
      (Ok tt,
       add_trace (name_lookup_log b c i w
                  ++ [(w_thread w, connect_call b c (own_name w name) peer)]) w1)
  | Raise e => (Raise e, add_trace (name_lookup_log b c i w) w1)
  | Undefined => (Undefined, add_trace (name_lookup_log b c i w) w1)
  end.
Proof.
  intros Hc Hp Hr Ha. cbv zeta.
  assert (Hc1 : client (w_data (port_registered b c name w)) = Some c) by exact Hc.
  pose proof (get_port_name_of_spec b i (port_registered b c name w) c Hc1) as Hname.
  change (name_lookup_result b i (port_registered b c name w))
    with (name_lookup_result b i w) in Hname.
  change (name_lookup_log b c i (port_registered b c name w))
    with (name_lookup_log b c i w) in Hname.
  pose proof (jack_port_name_registered b c name w (name_lookup_log b c i w) Hr)
    as Hown.
  destruct b; cbn [open_port_of open_op];
    [unfold midi_in_jack.open_port | unfold midi_out_jack.open_port];
    unfold bind at 1;
    [rewrite (in_connect_connected w c Hc) | rewrite (out_connect_connected w c Hc)];
    unfold bind at 1; unfold gets at 1; rewrite Hp, Hc;
    unfold bind at 1; unfold bind at 1;
    rewrite (jack_port_register_ok c name _ w Ha Hr);
    unfold modify at 1;
    unfold bind at 1; unfold gets at 1;
    match goal with
    | |- context [port (w_data ?w1)] =>
        change (port (w_data w1)) with (Some (srv_next (w_srv w)));
        change w1 with (port_registered Input c name w)
        || change w1 with (port_registered Output c name w)
    end;
    cbn [get_port_name_of] in Hname;
    unfold bind at 1; rewrite Hname;
    (destruct (name_lookup_result _ i w) as [peer|e|]; [|reflexivity|reflexivity]);
    unfold bind at 1; rewrite Hown;
    unfold jack_connect, emit, modify;
    cbn [connect_call]; rewrite log_add_trace;
    match goal with
    | |- context [client (w_data (port_registered ?b c name w))] =>
        change (client (w_data (port_registered b c name w)))
          with (client (w_data w))
    end;
    rewrite Hc; reflexivity.
Qed.

(** [open_port] with an index in range, on a connected instance with no
    port open and a name the server accepts: it returns; the port is
    registered under the server's next handle with the direction of the
    backend; and the log is the registration, the listing of the peers,
    the release of the list and one [jack_connect], from the peer to the
    own port for the input backend and from the own port to the peer for
    the output backend. *)
Theorem open_port_connects (b : backend) (i : nat) (name peer : string)
    (w : world) (c : jack_client_t) :
  client (w_data w) = Some c ->
  port (w_data w) = None ->
  registered w = [] ->
  srv_accept (w_srv w) name = true ->
  nth_error (srv_peers (w_srv w) (peer_direction b)) i = Some peer ->
  exists w',
    open_port_of b i name w = (Ok tt, w')
    /\ port (w_data w') = Some (srv_next (w_srv w))
    /\ registered w' = [new_entry b name w]
    /\ new_trace w w' =
       [ (w_thread w,
          PortRegister (Some c) name (own_direction b) (Some (srv_next (w_srv w))));
         (w_thread w, GetPorts (Some c) (peer_direction b));
         (w_thread w, Free);
         (w_thread w, connect_call b c (own_name w name) peer) ].
Proof.
  intros Hc Hp Hr Ha Hn.
  pose proof (open_port_of_spec b i name w c Hc Hp Hr Ha) as Hspec.
  cbv zeta in Hspec.
  assert (Hres : name_lookup_result b i w = Ok peer).
  { unfold name_lookup_result. rewrite Hn.
    destruct (srv_peers (w_srv w) (peer_direction b)); [destruct i; discriminate|].
    reflexivity. }
  assert (Hlog : name_lookup_log b c i w =
                 [ (w_thread w, GetPorts (Some c) (peer_direction b));
                   (w_thread w, Free) ]).
  { unfold name_lookup_log. rewrite Hn.
    destruct (srv_peers (w_srv w) (peer_direction b)); [destruct i; discriminate|].
    reflexivity. }
  rewrite Hres, Hlog in Hspec.
  eexists. split; [exact Hspec|].
  split; [reflexivity|]. split.
  - unfold registered in *. cbn [add_trace w_srv port_registered with_data log
                                  with_srv srv_ports set_srv_next set_srv_ports].
    rewrite Hr. reflexivity.
  - apply new_trace_app.
    cbn [add_trace w_trace port_registered with_data log with_srv w_thread app].
    rewrite <- app_assoc. reflexivity.
Qed.

Lemma open_port_connects_witness :
  exists w',
    open_port_of Output 0 "out" out_created = (Ok tt, w')
    /\ port (w_data w') = Some (srv_next (w_srv out_created))
    /\ registered w' = [new_entry Output "out" out_created]
    /\ new_trace out_created w' =
       [ (w_thread out_created,
          PortRegister (Some 1%nat) "out" (own_direction Output)
            (Some (srv_next (w_srv out_created))));
         (w_thread out_created, GetPorts (Some 1%nat) (peer_direction Output));
         (w_thread out_created, Free);
         (w_thread out_created,
          connect_call Output 1%nat (own_name out_created "out")
            "system:midi_playback_1") ].
Proof.
  apply (open_port_connects Output 0 "out" "system:midi_playback_1"
           out_created 1%nat); reflexivity.
Defined.

(** [open_port] with the index that is the port count, or with no peer at
    all, under the same conditions: it still returns and the port is still
    registered; it warns about the index, and [jack_connect] is called with
    the empty string for the peer. *)
Theorem open_port_bad_index (b : backend) (i : nat) (name : string)
    (w : world) (c : jack_client_t) :
  client (w_data w) = Some c ->
  port (w_data w) = None ->
  registered w = [] ->
  srv_accept (w_srv w) name = true ->
  let peers := srv_peers (w_srv w) (peer_direction b) in
  peers = [] \/ i = length peers ->
  exists w',
    open_port_of b i name w = (Ok tt, w')
    /\ port (w_data w') = Some (srv_next (w_srv w))
    /\ registered w' = [new_entry b name w]
    /\ new_trace w w' =
       [ (w_thread w,
          PortRegister (Some c) name (own_direction b) (Some (srv_next (w_srv w))));
         (w_thread w, GetPorts (Some c) (peer_direction b)) ]
       ++ (if is_nil peers
           then [(w_thread w, Warning (no_ports_warning b))]
           else [(w_thread w, Warning (invalid_index_warning b i));
                 (w_thread w, Free)])
       ++ [(w_thread w, connect_call b c (own_name w name) EmptyString)].
Proof.
  intros Hc Hp Hr Ha peers Hbad.
  pose proof (open_port_of_spec b i name w c Hc Hp Hr Ha) as Hspec.
  cbv zeta in Hspec.
  assert (Hcase :
    name_lookup_result b i w = Ok EmptyString
    /\ name_lookup_log b c i w =
       (w_thread w, GetPorts (Some c) (peer_direction b))
       :: (if is_nil peers
           then [(w_thread w, Warning (no_ports_warning b))]
           else [(w_thread w, Warning (invalid_index_warning b i));
                 (w_thread w, Free)])).
  { unfold name_lookup_result, name_lookup_log. fold peers.
    destruct peers as [|p0 ps] eqn:Hpeers; [split; reflexivity|].
    destruct Hbad as [Hnil | Hlen]; [discriminate|].
    assert (Hnone : nth_error (p0 :: ps) i = None)
      by (apply nth_error_None; lia).
    rewrite Hnone. subst i. rewrite Nat.eqb_refl. split; reflexivity. }
  destruct Hcase as [Hres Hlog]. rewrite Hres, Hlog in Hspec.
  eexists. split; [exact Hspec|].
  split; [reflexivity|]. split.
  - unfold registered in *. cbn [add_trace w_srv port_registered with_data log
                                  with_srv srv_ports set_srv_next set_srv_ports].
    rewrite Hr. reflexivity.
  - apply new_trace_app.
    cbn [add_trace w_trace port_registered with_data log with_srv w_thread].
    rewrite <- !app_assoc. reflexivity.
Qed.

Lemma open_port_bad_index_witness :
  let peers := srv_peers (w_srv in_created) (peer_direction Input) in
  exists w',
    open_port_of Input 1 "in" in_created = (Ok tt, w')
    /\ port (w_data w') = Some (srv_next (w_srv in_created))
    /\ registered w' = [new_entry Input "in" in_created]
    /\ new_trace in_created w' =
       [ (w_thread in_created,
          PortRegister (Some 1%nat) "in" (own_direction Input)
            (Some (srv_next (w_srv in_created))));
         (w_thread in_created, GetPorts (Some 1%nat) (peer_direction Input)) ]
       ++ (if is_nil peers
           then [(w_thread in_created, Warning (no_ports_warning Input))]
           else [(w_thread in_created, Warning (invalid_index_warning Input 1));
                 (w_thread in_created, Free)])
       ++ [(w_thread in_created,
            connect_call Input 1%nat (own_name in_created "in") EmptyString)].
Proof.
  apply (open_port_bad_index Input 1 "in" in_created 1%nat);
    try reflexivity.
  right. reflexivity.
Defined.

Lemma jack_port_register_refused (c : jack_client_t) (name : string) (d : direction)
    (w : world) :
  srv_accept (w_srv w) name = false ->
  jack_port_register (Some c) name d w =
  (Ok None, log (PortRegister (Some c) name d None) w).
Proof.
  intros Ha. unfold jack_port_register, bind, gets, emit, modify, ret.
  rewrite Ha. reflexivity.
Qed.

(** When the server refuses the port name, on a connected instance with no
    port open: [open_port] and [open_virtual_port] of either backend raise
    a driver error with their own message; the log is the failed
    registration and the error, so no peer is looked up and nothing is
    connected; the port handle stays null and the registry is as it was. *)
Theorem open_refused (b : backend) (i : nat) (name : string) (w : world)
    (c : jack_client_t) :
  client (w_data w) = Some c ->
  port (w_data w) = None ->
  srv_accept (w_srv w) name = false ->
  open_port_of b i name w =
    (Raise (driver_error (open_error b false)), port_refused b c name false w)
  /\ open_virtual_port_of b name w =
    (Raise (driver_error (open_error b true)), port_refused b c name true w)
  /\ (forall virtual,
       port (w_data (port_refused b c name virtual w)) = None
       /\ registered (port_refused b c name virtual w) = registered w
       /\ new_trace w (port_refused b c name virtual w) =
          [ (w_thread w, PortRegister (Some c) name (own_direction b) None);
            (w_thread w, Error (open_error b virtual)) ]).
Proof.
  intros Hc Hp Ha. split; [|split].
  - destruct b; cbn [open_port_of open_op];
      [unfold midi_in_jack.open_port | unfold midi_out_jack.open_port];
      unfold bind at 1;
      [rewrite (in_connect_connected w c Hc) | rewrite (out_connect_connected w c Hc)];
      unfold bind at 1; unfold gets at 1; rewrite Hp, Hc;
      unfold bind at 1; unfold bind at 1;
      rewrite (jack_port_register_refused c name _ w Ha);
      reflexivity.
  - destruct b; cbn [open_virtual_port_of open_op];
      [unfold midi_in_jack.open_virtual_port | unfold midi_out_jack.open_virtual_port];
      unfold bind at 1;
      [rewrite (in_connect_connected w c Hc) | rewrite (out_connect_connected w c Hc)];
      unfold bind at 1; unfold gets at 1; rewrite Hp, Hc;
      unfold bind at 1; unfold bind at 1;
      rewrite (jack_port_register_refused c name _ w Ha);
      reflexivity.
  - intros virtual. split; [reflexivity|]. split; [reflexivity|].
    apply new_trace_app. unfold port_refused.
    cbn [w_trace log with_data w_thread]. rewrite <- app_assoc. reflexivity.
Qed.

(** A connected input instance on a server that refuses every port name. *)
Lemma open_refused_witness :
  let w := with_srv (fun s =>
             {| srv_running := srv_running s; srv_accept := fun _ => false;
                srv_peers := srv_peers s; srv_clock := srv_clock s;
                srv_cycles := srv_cycles s; srv_next := srv_next s;
                srv_ports := srv_ports s; srv_callback := srv_callback s;
                srv_active := srv_active s; srv_inbuf := srv_inbuf s;
                srv_outbuf := srv_outbuf s |}) in_created in
  open_port_of Input 0 "in" w =
    (Raise (driver_error (open_error Input false)),
     port_refused Input 1%nat "in" false w)
  /\ open_virtual_port_of Input "in" w =
    (Raise (driver_error (open_error Input true)),
     port_refused Input 1%nat "in" true w)
  /\ (forall virtual,
       port (w_data (port_refused Input 1%nat "in" virtual w)) = None
       /\ registered (port_refused Input 1%nat "in" virtual w) = registered w
       /\ new_trace w (port_refused Input 1%nat "in" virtual w) =
          [ (w_thread w, PortRegister (Some 1%nat) "in" (own_direction Input) None);
            (w_thread w, Error (open_error Input virtual)) ]).
Proof.
  cbv zeta.
  apply (open_refused Input 0 "in" _ 1%nat); reflexivity.
Defined.

(* ================================================================= *)
(** ** Opening again *)

Lemma jack_port_name_found (p : jack_port_t) (e : port_entry) (w : world) :
  registered w = [e] -> pe_handle e = p ->
  jack_port_name p w = (Ok (own_name w (pe_name e)), w).
Proof.
  unfold registered. intros Hr He.
  unfold jack_port_name, bind, gets, ret. rewrite Hr.
  cbn [find]. rewrite He, Nat.eqb_refl. reflexivity.
Qed.

(** With a port already open on a connected instance: [open_virtual_port]
    changes nothing at all, whatever the name; [open_port] with an index in
    range registers nothing and ignores the new name, and connects the port
    that is open to the peer at the index. *)
Theorem open_again (b : backend) (i : nat) (name peer : string) (w : world)
    (c : jack_client_t) (p : jack_port_t) (e : port_entry) :
  client (w_data w) = Some c ->
  port (w_data w) = Some p ->
  registered w = [e] ->
  pe_handle e = p ->
  nth_error (srv_peers (w_srv w) (peer_direction b)) i = Some peer ->
  open_virtual_port_of b name w = (Ok tt, w)
  /\ open_port_of b i name w =
     (Ok tt,
      add_trace
        [ (w_thread w, GetPorts (Some c) (peer_direction b));
          (w_thread w, Free);
          (w_thread w, connect_call b c (own_name w (pe_name e)) peer) ] w).
Proof.
  intros Hc Hp Hr He Hn. split.
  - destruct b; cbn [open_virtual_port_of open_op];
      [unfold midi_in_jack.open_virtual_port | unfold midi_out_jack.open_virtual_port];
      unfold bind at 1;
      [rewrite (in_connect_connected w c Hc) | rewrite (out_connect_connected w c Hc)];
      unfold bind, gets; rewrite Hp; unfold ret; rewrite Hp; reflexivity.
  - pose proof (get_port_name_of_spec b i w c Hc) as Hname.
    assert (Hres : name_lookup_result b i w = Ok peer).
    { unfold name_lookup_result. rewrite Hn.
      destruct (srv_peers (w_srv w) (peer_direction b)); [destruct i; discriminate|].
      reflexivity. }
    assert (Hlog : name_lookup_log b c i w =
                   [ (w_thread w, GetPorts (Some c) (peer_direction b));
                     (w_thread w, Free) ]).
    { unfold name_lookup_log. rewrite Hn.
      destruct (srv_peers (w_srv w) (peer_direction b)); [destruct i; discriminate|].
      reflexivity. }
    rewrite Hres, Hlog in Hname.
    assert (Hown := jack_port_name_found p e
                      (add_trace [ (w_thread w, GetPorts (Some c) (peer_direction b));
                                   (w_thread w, Free) ] w) Hr He).
    destruct b; cbn [open_port_of open_op get_port_name_of] in *;
      [unfold midi_in_jack.open_port | unfold midi_out_jack.open_port];
      unfold bind at 1;
      [rewrite (in_connect_connected w c Hc) | rewrite (out_connect_connected w c Hc)];
      unfold bind at 1; unfold gets at 1; rewrite Hp;
      unfold bind at 1; unfold ret at 1;
      unfold bind at 1; unfold gets at 1; rewrite Hp;
      unfold bind at 1; rewrite Hname;
      unfold bind at 1; rewrite Hown;
      unfold jack_connect, emit, modify; rewrite log_add_trace, Hc; reflexivity.
Qed.

Lemma open_again_witness :
  open_virtual_port_of Output "another" out_open = (Ok tt, out_open)
  /\ open_port_of Output 0 "another" out_open =
     (Ok tt,
      add_trace
        [ (w_thread out_open, GetPorts (Some 1%nat) (peer_direction Output));
          (w_thread out_open, Free);
          (w_thread out_open,
           connect_call Output 1%nat
             (own_name out_open
                (pe_name {| pe_handle := 2%nat; pe_name := "out";
                            pe_dir := JackPortIsOutput |}))
             "system:midi_playback_1") ] out_open).
Proof.
  apply (open_again Output 0 "another" "system:midi_playback_1" out_open
           1%nat 2%nat
           {| pe_handle := 2%nat; pe_name := "out"; pe_dir := JackPortIsOutput |});
    reflexivity.
Defined.

(* ================================================================= *)
(** ** The life of the port over all public operations *)

Lemma kept_refl (w : world) : kept w w.
Proof. repeat split. Qed.

Lemma kept_trans (w1 w2 w3 : world) : kept w1 w2 -> kept w2 w3 -> kept w1 w3.
Proof.
  intros (Hp & Hh & Hc) (Hp' & Hh' & Hc'). split; [congruence|].
  split; [congruence|].
  intros H. rewrite Hc'; [apply Hc, H | rewrite (Hc H); exact H].
Qed.

Lemma exec_bind {A B} (m : M A) (k : A -> M B) (w : world) :
  exec (bind m k) w =
  match m w with
  | (Ok a, w') => exec (k a) w'
  | (_, w') => w'
  end.
Proof.
  unfold exec, bind. destruct (m w) as [[a|e|] w']; reflexivity.
Qed.

Lemma keeps_ret {A} (a : A) : keeps (ret a).
Proof. intros w. apply kept_refl. Qed.

Lemma keeps_gets {A} (f : world -> A) : keeps (gets f).
Proof. intros w. apply kept_refl. Qed.

Lemma keeps_raise {A} (e : exception) : keeps (@raise A e).
Proof. intros w. apply kept_refl. Qed.

Lemma keeps_undefined {A} : keeps (@undefined A).
Proof. intros w. apply kept_refl. Qed.

Lemma keeps_emit (c : call) : keeps (emit c).
Proof. intros w. repeat split. Qed.

Lemma keeps_modify (f : world -> world) :
  (forall w, kept w (f w)) -> keeps (modify f).
Proof. intros H w. apply H. Qed.

Lemma keeps_bind {A B} (m : M A) (k : A -> M B) :
  keeps m -> (forall a, keeps (k a)) -> keeps (bind m k).
Proof.
  intros Hm Hk w. rewrite exec_bind. specialize (Hm w). unfold exec in Hm.
  destruct (m w) as [[a|e|] w']; cbn [snd] in Hm; try exact Hm.
  eapply kept_trans; [exact Hm | apply Hk].
Qed.

Lemma keeps_on_rt_thread {A} (m : M A) : keeps m -> keeps (on_rt_thread m).
Proof.
  intros Hm w. specialize (Hm (with_thread RtThread w)).
  unfold exec, on_rt_thread in *.
  destruct (m (with_thread RtThread w)) as [r w']. exact Hm.
Qed.

Create HintDb keeps.
#[export] Hint Resolve keeps_ret keeps_gets keeps_raise keeps_undefined
  keeps_emit keeps_on_rt_thread : keeps.

Ltac keeps_step :=
  match goal with
  | |- keeps (bind _ _) => apply keeps_bind; [|intro]
  | |- keeps (modify _) => apply keeps_modify; intro; repeat split
  | |- keeps (match ?x with _ => _ end) => destruct x
  | |- keeps (let '(_, _) := ?x in _) => destruct x
  | |- keeps _ => solve [auto with keeps]
  end.

Ltac keeps_tac := repeat keeps_step.

Lemma keeps_warning (msg : string) : keeps (warning msg).
Proof. unfold warning. keeps_tac. Qed.

Lemma keeps_error (msg : string) : keeps (error msg).
Proof. unfold error. keeps_tac. Qed.

Lemma keeps_jack_get_ports (c : option jack_client_t) (d : direction) :
  keeps (jack_get_ports c d).
Proof. unfold jack_get_ports. keeps_tac. Qed.

Lemma keeps_array_at (ports : list string) (i : nat) : keeps (array_at ports i).
Proof. unfold array_at. keeps_tac. Qed.

Lemma keeps_jack_port_name (p : jack_port_t) : keeps (jack_port_name p).
Proof. unfold jack_port_name. keeps_tac. Qed.

Lemma keeps_jack_connect (c : option jack_client_t) (src dst : string) :
  keeps (jack_connect c src dst).
Proof. unfold jack_connect. keeps_tac. Qed.

Lemma keeps_jack_free : keeps jack_free.
Proof. unfold jack_free. keeps_tac. Qed.

Lemma keeps_sem_notify (s : sem_id) : keeps (sem_notify s).
Proof. unfold sem_notify. keeps_tac; destruct s; reflexivity. Qed.

Lemma keeps_sem_try_wait (s : sem_id) : keeps (sem_try_wait s).
Proof. unfold sem_try_wait. keeps_tac; destruct s; reflexivity. Qed.

Lemma keeps_jack_ringbuffer_read_space (r : ring_id) :
  keeps (jack_ringbuffer_read_space r).
Proof. unfold jack_ringbuffer_read_space. keeps_tac. Qed.

Lemma keeps_jack_ringbuffer_read (r : ring_id) (cnt : Z) :
  keeps (jack_ringbuffer_read r cnt).
Proof. unfold jack_ringbuffer_read. keeps_tac; destruct r; reflexivity. Qed.

Lemma keeps_jack_ringbuffer_write (r : ring_id) (src : list byte) (cnt : Z) :
  keeps (jack_ringbuffer_write r src cnt).
Proof. unfold jack_ringbuffer_write. keeps_tac; destruct r; reflexivity. Qed.

Lemma keeps_jack_get_time : keeps jack_get_time.
Proof. unfold jack_get_time. keeps_tac. Qed.

Lemma keeps_queue_push (m : message) : keeps (midi_in_jack.queue_push m).
Proof. unfold midi_in_jack.queue_push. keeps_tac. Qed.

#[export] Hint Resolve keeps_warning keeps_error keeps_jack_get_ports
  keeps_array_at keeps_jack_port_name keeps_jack_connect keeps_jack_free
  keeps_sem_notify keeps_sem_try_wait keeps_jack_ringbuffer_read_space
  keeps_jack_ringbuffer_read keeps_jack_ringbuffer_write keeps_jack_get_time
  keeps_queue_push : keeps.

Lemma keeps_connect_of (b : backend) : keeps (connect_of b).
Proof.
  intros w. unfold exec. destruct (client (w_data w)) as [c|] eqn:Hc.
  - rewrite (connect_of_connected b w c Hc). apply kept_refl.
  - destruct (srv_running (w_srv w)) eqn:Hrun.
    + rewrite (connect_of_running b w Hrun Hc).
      repeat split; [destruct b; reflexivity .. | congruence].
    + destruct b; cbn [connect_of].
      * rewrite (in_connect_no_server w Hrun Hc). repeat split. congruence.
      * rewrite (out_connect_no_server w Hrun Hc). repeat split. congruence.
Qed.

Lemma keeps_in_connect : keeps midi_in_jack.connect.
Proof. exact (keeps_connect_of Input). Qed.

Lemma keeps_out_connect : keeps midi_out_jack.connect.
Proof. exact (keeps_connect_of Output). Qed.

#[export] Hint Resolve keeps_in_connect keeps_out_connect : keeps.

Lemma keeps_get_port_count_of (b : backend) : keeps (get_port_count_of b).
Proof.
  destruct b; cbn [get_port_count_of];
    [unfold midi_in_jack.get_port_count | unfold midi_out_jack.get_port_count];
    keeps_tac.
Qed.

Lemma keeps_get_port_name_of (b : backend) (i : nat) : keeps (get_port_name_of b i).
Proof.
  destruct b; cbn [get_port_name_of];
    [unfold midi_in_jack.get_port_name | unfold midi_out_jack.get_port_name];
    keeps_tac.
Qed.

Lemma keeps_in_get_port_name (i : nat) : keeps (midi_in_jack.get_port_name i).
Proof. exact (keeps_get_port_name_of Input i). Qed.

Lemma keeps_out_get_port_name (i : nat) : keeps (midi_out_jack.get_port_name i).
Proof. exact (keeps_get_port_name_of Output i). Qed.

#[export] Hint Resolve keeps_in_get_port_name keeps_out_get_port_name : keeps.

Lemma map_rename_entry (p : jack_port_t) (name : string) (l : list port_entry) :
  map pe_handle (map (rename_entry p name) l) = map pe_handle l.
Proof.
  rewrite map_map. apply map_ext. intros e. unfold rename_entry.
  destruct (Nat.eqb (pe_handle e) p); reflexivity.
Qed.

Lemma keeps_rename_port (p : option jack_port_t) (name : string) :
  keeps (rename_port p name).
Proof.
  unfold rename_port. keeps_tac. unfold handles, registered. cbn.
  apply map_rename_entry.
Qed.

#[export] Hint Resolve keeps_rename_port : keeps.

Lemma keeps_set_port_name (b : backend) (f : bool) (name : string) :
  keeps (match b with
         | Input => midi_in_jack.set_port_name f name
         | Output => midi_out_jack.set_port_name f name
         end).
Proof.
  destruct b;
    [unfold midi_in_jack.set_port_name | unfold midi_out_jack.set_port_name];
    unfold jack_port_rename, jack_port_set_name; keeps_tac.
Qed.

Lemma keeps_send_message (m : list byte) : keeps (midi_out_jack.send_message m).
Proof. unfold midi_out_jack.send_message. keeps_tac. Qed.

Lemma keeps_drain (fuel : nat) : keeps (midi_out_jack.drain fuel).
Proof.
  induction fuel as [|fuel IH]; cbn [midi_out_jack.drain]; [auto with keeps|].
  unfold midi_out_jack.drain_one, jack_midi_event_reserve, push_event.
  keeps_tac.
Qed.

#[export] Hint Resolve keeps_drain : keeps.

Lemma keeps_jackProcessOut (nframes : Z) :
  keeps (midi_out_jack.jackProcessOut nframes).
Proof.
  unfold midi_out_jack.jackProcessOut, jack_port_get_buffer,
    jack_midi_clear_buffer.
  keeps_tac.
Qed.

Lemma keeps_process_event (event : list byte) :
  keeps (midi_in_jack.process_event event).
Proof. unfold midi_in_jack.process_event. keeps_tac. Qed.

Lemma keeps_process_events (events : list (list byte)) :
  keeps (midi_in_jack.process_events events).
Proof.
  induction events as [|e rest IH]; cbn [midi_in_jack.process_events];
    [auto with keeps|].
  apply keeps_bind; [apply keeps_process_event | intros _; exact IH].
Qed.

#[export] Hint Resolve keeps_process_events : keeps.

Lemma keeps_jackProcessIn (nframes : Z) :
  keeps (midi_in_jack.jackProcessIn nframes).
Proof.
  unfold midi_in_jack.jackProcessIn, jack_port_get_buffer. keeps_tac.
Qed.

#[export] Hint Resolve keeps_jackProcessOut keeps_jackProcessIn : keeps.

Lemma keeps_process_cycle (nframes : Z) :
  keeps (midi_out_jack.process_cycle nframes).
Proof. unfold midi_out_jack.process_cycle. keeps_tac. Qed.

#[export] Hint Resolve keeps_process_cycle : keeps.

Lemma keeps_wait_cycles (rt : Z -> M unit) (s : sem_id) (cycles : list Z) :
  (forall n, keeps (rt n)) -> keeps (wait_cycles rt s cycles).
Proof.
  intros Hrt. induction cycles as [|n rest IH]; cbn [wait_cycles].
  - keeps_tac; destruct s; reflexivity.
  - keeps_tac; try (destruct s; reflexivity); try apply Hrt.
Qed.

Lemma keeps_sem_wait_for (rt : Z -> M unit) (s : sem_id) (ms : Z) :
  (forall n, keeps (rt n)) -> keeps (sem_wait_for rt s ms).
Proof.
  intros Hrt. unfold sem_wait_for. keeps_tac.
  apply keeps_wait_cycles, Hrt.
Qed.

Lemma kept_inv (w w' : world) : lifecycle_inv w -> kept w w' -> lifecycle_inv w'.
Proof.
  intros [Hs Hc] (Hp & Hh & Hk). unfold lifecycle_inv, port_singleton.
  unfold handles in Hh. rewrite Hh, Hp. split; [exact Hs|].
  intros H. rewrite (Hk (Hc H)). exact (Hc H).
Qed.

Lemma preserves_keeps {A} (m : M A) : keeps m -> preserves lifecycle_inv m.
Proof. intros Hm w Hinv. eapply kept_inv; [exact Hinv | apply Hm]. Qed.

Lemma preserves_bind {A B} (I : world -> Prop) (m : M A) (k : A -> M B) :
  preserves I m -> (forall a, preserves I (k a)) -> preserves I (bind m k).
Proof.
  intros Hm Hk w Hinv. rewrite exec_bind. specialize (Hm w Hinv).
  unfold exec in Hm. destruct (m w) as [[a|e|] w']; cbn [snd] in Hm;
    try exact Hm.
  apply Hk, Hm.
Qed.

(** The registration step of the four opens. *)
Lemma register_inv (name : string) (d : direction) (w : world) :
  lifecycle_inv w ->
  exists w',
    match port (w_data w) with
    | None =>
        p <- jack_port_register (client (w_data w)) name d ;;
        modify (with_data (set_port p))
    | Some _ => ret tt
    end w = (Ok tt, w')
    /\ lifecycle_inv w'.
Proof.
  intros [Hs Hc]. unfold port_singleton in Hs.
  destruct (port (w_data w)) as [p|] eqn:Hp.
  - exists w. split; [reflexivity|].
    split; [unfold port_singleton; rewrite Hp; exact Hs | rewrite Hp; exact Hc].
  - apply map_eq_nil in Hs.
    unfold jack_port_register, bind, gets, emit, modify, ret.
    destruct (client (w_data w)) as [c|] eqn:Hcl.
    + destruct (srv_accept (w_srv w) name
                && negb (name_taken name (srv_ports (w_srv w)))).
      * eexists. split; [reflexivity|].
        unfold lifecycle_inv, port_singleton, registered. cbn.
        unfold registered in Hs. rewrite Hs, Hcl. split; [reflexivity|].
        intros _. discriminate.
      * eexists. split; [reflexivity|].
        unfold lifecycle_inv, port_singleton, registered. cbn.
        unfold registered in Hs. rewrite Hs. split; [reflexivity|].
        intros H. contradiction.
    + eexists. split; [reflexivity|].
      unfold lifecycle_inv, port_singleton, registered. cbn.
      unfold registered in Hs. rewrite Hs. split; [reflexivity|].
      intros H. contradiction.
Qed.

Lemma preserves_open_tail {A} (connect : M unit) (name : string) (d : direction)
    (rest : M A) :
  keeps connect -> keeps rest ->
  preserves lifecycle_inv
    (connect ;;
     data <- gets w_data ;;
     match port data with
     | None =>
         p <- jack_port_register (client data) name d ;;
         modify (with_data (set_port p))
     | Some _ => ret tt
     end ;;
     rest).
Proof.
  intros Hc Hr. apply preserves_bind; [apply preserves_keeps, Hc|].
  intros _ w Hinv. rewrite exec_bind. unfold gets at 1. rewrite exec_bind.
  destruct (register_inv name d w Hinv) as (w' & -> & Hinv').
  apply (preserves_keeps _ Hr), Hinv'.
Qed.

Lemma filter_only_handle (p : jack_port_t) (l : list port_entry) :
  map pe_handle l = [p] ->
  filter (fun e => negb (Nat.eqb (pe_handle e) p)) l = [].
Proof.
  destruct l as [|e [|e' l]]; cbn; try discriminate.
  intros H. injection H as ->. rewrite Nat.eqb_refl. reflexivity.
Qed.

(** The unregistration step of [close_port]. *)
Lemma unregister_inv (w : world) :
  lifecycle_inv w ->
  lifecycle_inv
    (exec (jack_port_unregister (client (w_data w)) (port (w_data w)) ;;
           modify (with_data (set_port None))) w).
Proof.
  intros [Hs Hc]. unfold port_singleton in Hs.
  unfold jack_port_unregister, bind, emit, modify, exec.
  destruct (port (w_data w)) as [p|] eqn:Hp.
  - destruct (client (w_data w)) as [c|] eqn:Hcl.
    + unfold lifecycle_inv, port_singleton, registered. cbn.
      unfold registered in Hs. rewrite (filter_only_handle p _ Hs).
      split; [reflexivity | intros H; contradiction].
    + exfalso. apply Hc; [discriminate | reflexivity].
  - destruct (client (w_data w)) as [c|]; cbn [snd];
      (split; [exact Hs | intros H; contradiction]).
Qed.

Lemma preserves_close_port_of (b : backend) :
  preserves lifecycle_inv (close_port_of b).
Proof.
  destruct b; cbn [close_port_of].
  - intros w Hinv. unfold midi_in_jack.close_port. rewrite exec_bind.
    unfold gets at 1. pose proof (unregister_inv w Hinv) as H.
    destruct (port (w_data w)); [exact H | exact Hinv].
  - unfold midi_out_jack.close_port.
    apply preserves_bind; [apply preserves_keeps; auto with keeps|].
    intros data. destruct (port data); [|apply preserves_keeps; auto with keeps].
    apply preserves_bind; [apply preserves_keeps; auto with keeps|]. intros _.
    apply preserves_bind.
    { apply preserves_keeps, keeps_sem_wait_for. auto with keeps. }
    intros _ w Hinv. rewrite exec_bind. unfold gets at 1.
    apply unregister_inv, Hinv.
Qed.

Lemma preserves_api_op (b : backend) (c : api_call) :
  preserves lifecycle_inv (api_op b c).
Proof.
  destruct c; cbn [api_op].
  - destruct b; cbn [open_port_of open_op];
      [unfold midi_in_jack.open_port | unfold midi_out_jack.open_port];
      (apply preserves_open_tail; [auto with keeps | keeps_tac]).
  - destruct b; cbn [open_virtual_port_of open_op];
      [ unfold midi_in_jack.open_virtual_port
      | unfold midi_out_jack.open_virtual_port ];
      (apply preserves_open_tail; [auto with keeps | keeps_tac]).
  - apply preserves_close_port_of.
  - apply preserves_keeps.
    destruct b;
      [unfold midi_in_jack.set_client_name | unfold midi_out_jack.set_client_name];
      auto with keeps.
  - apply preserves_keeps, keeps_set_port_name.
  - apply preserves_keeps, keeps_bind;
      [apply keeps_get_port_count_of | auto with keeps].
  - apply preserves_keeps, keeps_bind;
      [apply keeps_get_port_name_of | auto with keeps].
  - apply preserves_keeps.
    destruct b; [auto with keeps | apply keeps_send_message].
  - apply preserves_keeps, keeps_process_cycle.
Qed.

Lemma run_api_app (b : backend) (cs cs' : list api_call) (w : world) :
  run_api b (cs ++ cs') w = run_api b cs' (run_api b cs w).
Proof.
  revert w. induction cs as [|c cs IH]; intros w; cbn [run_api app];
    [reflexivity | apply IH].
Qed.

Lemma lifecycle_inv_run_api (b : backend) (cs : list api_call) :
  forall w, lifecycle_inv w -> lifecycle_inv (run_api b cs w).
Proof.
  induction cs as [|c cs IH]; intros w Hinv; cbn [run_api]; [exact Hinv|].
  apply IH, preserves_api_op, Hinv.
Qed.

Lemma close_port_of_closes (b : backend) (w w1 : world) :
  close_port_of b w = (Ok tt, w1) -> port (w_data w1) = None.
Proof.
  destruct b; cbn [close_port_of].
  - destruct (in_close_port_ok w) as (w2 & -> & H). intros E.
    injection E as <-. exact H.
  - apply out_close_port_closes.
Qed.

(** Over any sequence of the public operations of one backend ([open_port],
    [open_virtual_port], [close_port], [set_client_name], [set_port_name],
    [get_port_count], [get_port_name], [send_message]) and of process
    cycles of the server, also when a call raises: the port handle and the
    server's registry stay in agreement and an instance with a port open
    stays connected.  So the server never holds more than one port for the
    instance, holds none while no port is open, and holds none after a
    [close_port] that returns. *)
Theorem port_lifecycle (b : backend) (cs : list api_call) (w : world) :
  lifecycle_inv w ->
  lifecycle_inv (run_api b cs w)
  /\ (length (registered (run_api b cs w)) <= 1)%nat
  /\ (port (w_data (run_api b cs w)) = None -> registered (run_api b cs w) = [])
  /\ (forall p,
         port (w_data (run_api b cs w)) = Some p ->
         client (w_data (run_api b cs w)) <> None
         /\ handles (run_api b cs w) = [p])
  /\ (forall w1,
         close_port_of b (run_api b cs w) = (Ok tt, w1) ->
         port (w_data w1) = None /\ registered w1 = []).
Proof.
  intros Hinv.
  pose proof (lifecycle_inv_run_api b cs w Hinv) as Hrun.
  split; [exact Hrun|].
  pose proof Hrun as [Hs Hc]. unfold port_singleton in Hs.
  split; [|split; [|split]].
  - rewrite <- (length_map pe_handle), Hs.
    destruct (port (w_data (run_api b cs w))); cbn; lia.
  - intros Hp. rewrite Hp in Hs. apply map_eq_nil in Hs. exact Hs.
  - intros p Hp. split.
    + apply Hc. rewrite Hp. discriminate.
    + unfold handles. rewrite Hs, Hp. reflexivity.
  - intros w1 Hcl.
    pose proof (close_port_of_closes b _ w1 Hcl) as Hp1.
    split; [exact Hp1|].
    pose proof (preserves_close_port_of b _ Hrun) as [Hs1 _].
    unfold exec in Hs1. rewrite Hcl in Hs1. cbn [snd] in Hs1.
    unfold port_singleton in Hs1. rewrite Hp1 in Hs1.
    apply map_eq_nil in Hs1. exact Hs1.
Qed.

Lemma port_lifecycle_witness :
  let cs := [ call_send_message note_on; call_open_port 0 "out";
              call_get_port_count; call_set_port_name true "renamed";
              call_process_cycle 64; call_open_virtual_port "other";
              call_close_port; call_get_port_name 3;
              call_open_virtual_port "again" ] in
  lifecycle_inv out_created
  /\ lifecycle_inv (run_api Output cs out_created)
  /\ (length (registered (run_api Output cs out_created)) <= 1)%nat
  /\ (port (w_data (run_api Output cs out_created)) = None ->
      registered (run_api Output cs out_created) = [])
  /\ (forall p,
         port (w_data (run_api Output cs out_created)) = Some p ->
         client (w_data (run_api Output cs out_created)) <> None
         /\ handles (run_api Output cs out_created) = [p])
  /\ (forall w1,
         close_port_of Output (run_api Output cs out_created) = (Ok tt, w1) ->
         port (w_data w1) = None /\ registered w1 = []).
Proof.
  intros cs.
  assert (H : lifecycle_inv out_created).
  { split; [reflexivity | intros H; exfalso; apply H; reflexivity]. }
  split; [exact H | apply (port_lifecycle Output cs out_created H)].
Defined.

(* ================================================================= *)
(** ** A whole run of the input callback *)

Lemma map_bytes_stamped (events : list (list byte)) :
  forall first last clock, map bytes (stamped first last clock events) = events.
Proof.
  induction events as [|event rest IH]; intros first last clock;
    cbn [stamped map bytes]; [reflexivity|].
  rewrite IH. reflexivity.
Qed.

Lemma stamp_stamped (w : world) (event : list byte) (rest : list (list byte)) :
  stamped (firstMessage (w_in w)) (lastTime (w_data w)) (srv_clock (w_srv w))
    (event :: rest) =
  stamp w event
  :: stamped (firstMessage (w_in (after_event event w)))
       (lastTime (w_data (after_event event w)))
       (srv_clock (w_srv (after_event event w))) rest.
Proof. destruct w as [d i s cn t tr]. destruct s. reflexivity. Qed.

Lemma run_log_callback (events : list (list byte)) :
  forall w,
    continueSysex (w_in w) = false ->
    userCallback (w_in w) = true ->
    delivered (run_log events w) =
    stamped (firstMessage (w_in w)) (lastTime (w_data w)) (srv_clock (w_srv w))
      events
    /\ queue (w_in (after_events events w)) = queue (w_in w).
Proof.
  induction events as [|event rest IH]; intros w Hcs Hcb;
    [split; reflexivity|].
  rewrite stamp_stamped. cbn [run_log after_events].
  rewrite delivered_app, delivered_delivery, Hcs, Hcb.
  destruct (IH (after_event event w)) as [IH1 IH2]; [exact Hcs | exact Hcb |].
  rewrite IH1, IH2. split; [reflexivity|].
  cbn [after_event w_in set_firstMessage set_queue queue]. unfold queue_after.
  rewrite Hcs, Hcb. reflexivity.
Qed.

Lemma run_log_queue (events : list (list byte)) :
  forall w,
    continueSysex (w_in w) = false ->
    userCallback (w_in w) = false ->
    delivered (run_log events w) =
    firstn (room (w_in w))
      (stamped (firstMessage (w_in w)) (lastTime (w_data w))
         (srv_clock (w_srv w)) events)
    /\ queue (w_in (after_events events w)) =
       queue (w_in w) ++ delivered (run_log events w).
Proof.
  induction events as [|event rest IH]; intros w Hcs Hcb.
  - cbn [run_log after_events stamped delivered]. rewrite firstn_nil, app_nil_r.
    split; reflexivity.
  - rewrite stamp_stamped. cbn [run_log after_events].
    rewrite delivered_app, delivered_delivery, Hcs, Hcb.
    destruct (IH (after_event event w)) as [IH1 IH2]; [exact Hcs | exact Hcb |].
    rewrite IH2, IH1. clear IH IH1 IH2.
    cbn [after_event w_in set_firstMessage set_queue queue]. unfold queue_after.
    rewrite Hcs, Hcb. unfold room.
    cbn [set_firstMessage set_queue queue queueSizeLimit].
    destruct (Nat.ltb (length (queue (w_in w))) (queueSizeLimit (w_in w)))
      eqn:Hroom.
    + apply Nat.ltb_lt in Hroom. rewrite length_app. cbn [length].
      replace (queueSizeLimit (w_in w) - length (queue (w_in w)))%nat
        with (S (queueSizeLimit (w_in w) - (length (queue (w_in w)) + 1)))
        by lia.
      cbn [firstn app]. rewrite <- app_assoc. split; reflexivity.
    + apply Nat.ltb_ge in Hroom.
      replace (queueSizeLimit (w_in w) - length (queue (w_in w)))%nat
        with 0%nat by lia.
      cbn [firstn app]. split; reflexivity.
Qed.

Lemma firstn_map {A B} (f : A -> B) (n : nat) (l : list A) :
  firstn n (map f l) = map f (firstn n l).
Proof.
  revert l. induction n as [|n IH]; intros [|a l]; cbn; try reflexivity.
  rewrite IH. reflexivity.
Qed.

(** One run of [jackProcessIn] with a port open and the continue-sysex
    flag clear.  With a user callback installed, the callback receives one
    message per event of the port buffer, in the order of the buffer, with
    the bytes of the event; the first carries timestamp zero when the
    first-message flag is set, every other one the time since the event
    before it; the queue is left alone.  Without a callback the same
    messages go to the end of the queue, in order, as long as the queue has
    room: the first [room] events are queued and the remaining ones are
    dropped. *)
Theorem input_run (nframes : Z) (w : world) (p : jack_port_t) :
  port (w_data w) = Some p ->
  continueSysex (w_in w) = false ->
  let events := srv_inbuf (w_srv w) in
  let w' := exec (midi_in_jack.jackProcessIn nframes) w in
  let run := delivered (new_trace w w') in
  let msgs := stamped (firstMessage (w_in w)) (lastTime (w_data w))
                (srv_clock (w_srv w)) events in
  map bytes msgs = events
  /\ (userCallback (w_in w) = true ->
      run = msgs /\ queue (w_in w') = queue (w_in w))
  /\ (userCallback (w_in w) = false ->
      run = firstn (room (w_in w)) msgs
      /\ map bytes run = firstn (room (w_in w)) events
      /\ queue (w_in w') = queue (w_in w) ++ run).
Proof.
  intros Hp Hcs. cbv zeta.
  rewrite jackProcessIn_new_trace. unfold exec. rewrite jackProcessIn_spec.
  rewrite Hp. cbn [snd].
  split; [apply map_bytes_stamped|]. split.
  - intros Hcb.
    destruct (run_log_callback (srv_inbuf (w_srv w)) (log (PortGetBuffer p nframes) w)
                Hcs Hcb) as [H1 H2].
    split; [exact H1 | exact H2].
  - intros Hcb.
    destruct (run_log_queue (srv_inbuf (w_srv w)) (log (PortGetBuffer p nframes) w)
                Hcs Hcb) as [H1 H2].
    split; [exact H1|]. split; [|exact H2].
    rewrite H1. rewrite <- firstn_map, map_bytes_stamped. reflexivity.
Qed.

Lemma input_run_witness :
  let w := with_srv (set_srv_inbuf [note_on; control_change]) in_open in
  let events := srv_inbuf (w_srv w) in
  let w' := exec (midi_in_jack.jackProcessIn 64) w in
  let run := delivered (new_trace w w') in
  let msgs := stamped (firstMessage (w_in w)) (lastTime (w_data w))
                (srv_clock (w_srv w)) events in
  map bytes msgs = events
  /\ (userCallback (w_in w) = true ->
      run = msgs /\ queue (w_in w') = queue (w_in w))
  /\ (userCallback (w_in w) = false ->
      run = firstn (room (w_in w)) msgs
      /\ map bytes run = firstn (room (w_in w)) events
      /\ queue (w_in w') = queue (w_in w) ++ run).
Proof.
  intros w.
  apply (input_run 64 w 2%nat); vm_compute; reflexivity.
Defined.

(* ================================================================= *)
(** ** Messages sent before a port is open *)

Lemma open_virtual_port_of_spec (b : backend) (name : string) (w : world)
    (c : jack_client_t) :
  client (w_data w) = Some c ->
  port (w_data w) = None ->
  registered w = [] ->
  srv_accept (w_srv w) name = true ->
  open_virtual_port_of b name w = (Ok tt, port_registered b c name w).
Proof.
  intros Hc Hp Hr Ha.
  destruct b; cbn [open_virtual_port_of open_op];
    [ unfold midi_in_jack.open_virtual_port
    | unfold midi_out_jack.open_virtual_port ];
    unfold bind at 1;
    [rewrite (in_connect_connected w c Hc) | rewrite (out_connect_connected w c Hc)];
    unfold bind at 1; unfold gets at 1; rewrite Hp, Hc;
    unfold bind at 1; unfold bind at 1;
    rewrite (jack_port_register_ok c name _ w Ha Hr);
    reflexivity.
Qed.

Lemma on_rt_thread_ret {A} (a : A) (w : world) : on_rt_thread (ret a) w = (Ok a, w).
Proof. destruct w. reflexivity. Qed.

(** Without a port the callbacks return at once. *)
Lemma process_cycle_no_port (nframes : Z) (w : world) :
  port (w_data w) = None ->
  midi_out_jack.process_cycle nframes w = (Ok tt, w).
Proof.
  intros Hp. unfold midi_out_jack.process_cycle, bind at 1. unfold gets at 1.
  destruct (srv_active (w_srv w)); [|reflexivity].
  destruct (srv_callback (w_srv w)) as [[|]|]; [| |reflexivity].
  - unfold bind.
    replace (on_rt_thread (midi_in_jack.jackProcessIn nframes) w)
      with (on_rt_thread (ret 0) w); [rewrite on_rt_thread_ret; reflexivity|].
    unfold on_rt_thread, midi_in_jack.jackProcessIn, bind, gets.
    cbn [with_thread w_data]. rewrite Hp. reflexivity.
  - unfold bind.
    replace (on_rt_thread (midi_out_jack.jackProcessOut nframes) w)
      with (on_rt_thread (ret 0) w); [rewrite on_rt_thread_ret; reflexivity|].
    unfold on_rt_thread, midi_out_jack.jackProcessOut, bind, gets.
    cbn [with_thread w_data]. rewrite Hp. reflexivity.
Qed.

Lemma process_cycles_no_port (cycles : list Z) (w : world) :
  port (w_data w) = None -> process_cycles cycles w = (Ok tt, w).
Proof.
  intros Hp. induction cycles as [|n rest IH]; [reflexivity|].
  cbn [process_cycles]. unfold bind. rewrite (process_cycle_no_port n w Hp).
  exact IH.
Qed.

(** On an instance that is not connected, with the server running,
    [open_virtual_port] connects first and registers its port on the
    instance [connect] leaves. *)
Lemma open_virtual_port_of_late (b : backend) (name : string) (w : world) :
  client (w_data w) = None ->
  srv_running (w_srv w) = true ->
  port (w_data w) = None ->
  registered w = [] ->
  srv_accept (w_srv w) name = true ->
  open_virtual_port_of b name w =
  (Ok tt, port_registered b (srv_next (w_srv w)) name (connected b w)).
Proof.
  intros Hc Hrun Hp Hr Ha.
  rewrite <- (open_virtual_port_of_spec b name (connected b w) (srv_next (w_srv w)));
    try (destruct b; assumption).
  - destruct b; cbn [open_virtual_port_of open_op];
      [ unfold midi_in_jack.open_virtual_port
      | unfold midi_out_jack.open_virtual_port ];
      unfold bind at 1.
    + rewrite (connect_of_running Input w Hrun Hc : midi_in_jack.connect w = _).
      symmetry. unfold bind at 1.
      rewrite (in_connect_connected (connected Input w) (srv_next (w_srv w)));
        reflexivity.
    + rewrite (connect_of_running Output w Hrun Hc : midi_out_jack.connect w = _).
      symmetry. unfold bind at 1.
      rewrite (out_connect_connected (connected Output w) (srv_next (w_srv w)));
        reflexivity.
  - destruct b; reflexivity.
Qed.

(** Messages sent on an output instance before any port is open are
    written to the ringbuffers, and the process cycles that run meanwhile
    emit nothing and leave them there.  On a connected instance the first
    run of the callback after [open_virtual_port] emits them all, in the
    order they were sent.  On an instance that is not connected, with the
    server running by then, [open_virtual_port] connects first, which
    creates both ringbuffers anew: the messages are lost, and the first
    run of the callback emits nothing. *)
Theorem sent_before_open (msgs : list (list byte)) (cycles : list Z)
    (name : string) (nframes : Z) (w : world) :
  port (w_data w) = None ->
  registered w = [] ->
  srv_accept (w_srv w) name = true ->
  buffSize (w_data w) = Some (jack_ringbuffer_create_pure ringbuffer_size) ->
  buffMessage (w_data w) = Some (jack_ringbuffer_create_pure ringbuffer_size) ->
  total_bytes msgs <= ringbuffer_size ->
  4 * Z.of_nat (length msgs) <= ringbuffer_size ->
  exists w1,
    send_messages msgs w = (Ok tt, w1)
    /\ buffSize (w_data w1) =
       Some {| rb_size := ringbuffer_size;
               rb_data := concat (map size_record msgs) |}
    /\ buffMessage (w_data w1) =
       Some {| rb_size := ringbuffer_size; rb_data := concat msgs |}
    /\ process_cycles cycles w1 = (Ok tt, w1)
    /\ (forall c,
           client (w_data w) = Some c ->
           exists w2 w3,
             midi_out_jack.open_virtual_port name w1 = (Ok tt, w2)
             /\ port (w_data w2) = Some (srv_next (w_srv w))
             /\ midi_out_jack.jackProcessOut nframes w2 = (Ok 0, w3)
             /\ srv_outbuf (w_srv w3) = map event_of msgs
             /\ buffSize (w_data w3) =
                Some (jack_ringbuffer_create_pure ringbuffer_size)
             /\ buffMessage (w_data w3) =
                Some (jack_ringbuffer_create_pure ringbuffer_size))
    /\ (client (w_data w) = None ->
        srv_running (w_srv w) = true ->
        exists w2 w3,
          midi_out_jack.open_virtual_port name w1 = (Ok tt, w2)
          /\ client (w_data w2) = Some (srv_next (w_srv w))
          /\ port (w_data w2) = Some (S (srv_next (w_srv w)))
          /\ buffSize (w_data w2) =
             Some (jack_ringbuffer_create_pure ringbuffer_size)
          /\ buffMessage (w_data w2) =
             Some (jack_ringbuffer_create_pure ringbuffer_size)
          /\ midi_out_jack.jackProcessOut nframes w2 = (Ok 0, w3)
          /\ srv_outbuf (w_srv w3) = []).
Proof.
  intros Hp Hr Ha Hs Hm Hfit Hfit4.
  assert (Hlt : total_bytes msgs < 2 ^ 31) by (unfold ringbuffer_size in Hfit; lia).
  eexists. split.
  { apply (send_messages_spec msgs w _ _ Hs Hm Hlt);
      unfold rb_read_space, jack_ringbuffer_create_pure;
      cbn [rb_size rb_data length]; lia. }
  split; [reflexivity|]. split; [reflexivity|].
  split; [apply process_cycles_no_port; exact Hp|].
  split.
  - intros c Hc. eexists. eexists. split.
    { apply (open_virtual_port_of_spec Output name _ c);
        [exact Hc | exact Hp | exact Hr | exact Ha]. }
    split; [reflexivity|].
    split.
    { eapply (jackProcessOut_framing msgs nframes _ _ _ _ []).
      - reflexivity.
      - reflexivity.
      - reflexivity.
      - reflexivity.
      - cbn. rewrite app_nil_r. reflexivity.
      - exact Hlt. }
    split; [reflexivity|]. split; reflexivity.
  - intros Hc Hrun. eexists. eexists. split.
    { apply (open_virtual_port_of_late Output name);
        [exact Hc | exact Hrun | exact Hp | exact Hr | exact Ha]. }
    split; [reflexivity|]. split; [reflexivity|].
    split; [reflexivity|]. split; [reflexivity|].
    split.
    { eapply (jackProcessOut_framing [] nframes _ _ _ _ []).
      - reflexivity.
      - reflexivity.
      - reflexivity.
      - reflexivity.
      - reflexivity.
      - cbn. lia. }
    reflexivity.
Qed.

Lemma sent_before_open_witness :
  (exists w1 w2 w3,
      send_messages [note_on; control_change] out_created = (Ok tt, w1)
      /\ process_cycles [64; 64] w1 = (Ok tt, w1)
      /\ midi_out_jack.open_virtual_port "out" w1 = (Ok tt, w2)
      /\ midi_out_jack.jackProcessOut 64 w2 = (Ok 0, w3)
      /\ srv_outbuf (w_srv w3) = map event_of [note_on; control_change])
  /\ (let w := with_srv (fun _ => jack_running) out_orphan in
      exists w1 w2 w3,
        send_messages [note_on; control_change] w = (Ok tt, w1)
        /\ process_cycles [64; 64] w1 = (Ok tt, w1)
        /\ midi_out_jack.open_virtual_port "out" w1 = (Ok tt, w2)
        /\ midi_out_jack.jackProcessOut 64 w2 = (Ok 0, w3)
        /\ srv_outbuf (w_srv w3) = []).
Proof.
  assert (Hfit : total_bytes [note_on; control_change] <= ringbuffer_size)
    by (vm_compute; discriminate).
  assert (Hfit4 : 4 * Z.of_nat (length [note_on; control_change]) <= ringbuffer_size)
    by (vm_compute; discriminate).
  split.
  - destruct (sent_before_open [note_on; control_change] [64; 64] "out" 64
                out_created eq_refl eq_refl eq_refl eq_refl eq_refl Hfit Hfit4)
      as (w1 & Hsend & _ & _ & Hcyc & Hconn & _).
    destruct (Hconn 1%nat eq_refl) as (w2 & w3 & Hopen & _ & Hrun & Hout & _).
    exists w1, w2, w3. repeat split; assumption.
  - intros w.
    destruct (sent_before_open [note_on; control_change] [64; 64] "out" 64
                w eq_refl eq_refl eq_refl eq_refl eq_refl Hfit Hfit4)
      as (w1 & Hsend & _ & _ & Hcyc & _ & Hlate).
    destruct (Hlate eq_refl eq_refl)
      as (w2 & w3 & Hopen & _ & _ & _ & _ & Hrun & Hout).
    exists w1, w2, w3. repeat split; assumption.
Defined.

(* ================================================================= *)
(** ** A message larger than the payload ringbuffer *)

Lemma jack_ringbuffer_write_short (r : ring_id) (src : list byte) (w : world)
    (rb : jack_ringbuffer_t) :
  ring r (w_data w) = Some rb ->
  0 <= rb_size rb - rb_read_space rb <= Z.of_nat (length src) ->
  jack_ringbuffer_write r src (Z.of_nat (length src)) w =
  (Ok (rb_size rb - rb_read_space rb),
   log (RingbufferWrite r src (Z.of_nat (length src)))
     (with_data
        (set_ring r
           (Some {| rb_size := rb_size rb;
                    rb_data := rb_data rb
                               ++ firstn (Z.to_nat (rb_size rb - rb_read_space rb)) src |}))
        w)).
Proof.
  intros Hr Hfree.
  unfold jack_ringbuffer_write, bind, gets. rewrite Hr.
  unfold rb_write, rb_write_space.
  rewrite Z.max_r by lia. rewrite Z.min_r by lia.
  replace (Z.of_nat (length src) <? rb_size rb - rb_read_space rb) with false
    by (symmetry; apply Z.ltb_ge; lia).
  reflexivity.
Qed.

Lemma size_record_read (m : list byte) :
  Z.of_nat (length m) < 2 ^ 31 ->
  uint64 (int_of_bytes (size_record m)) = Z.of_nat (length m).
Proof.
  intros Hlt. unfold size_record.
  rewrite int_of_bytes_int_to_bytes by lia. apply uint64_small. lia.
Qed.

Lemma drain_short (m : list byte) (k : nat) (fuel : nat) (w : world)
    (rs rm : jack_ringbuffer_t) :
  buffSize (w_data w) = Some rs ->
  rb_data rs = size_record m ->
  buffMessage (w_data w) = Some rm ->
  rb_data rm = firstn k m ->
  Z.of_nat (length m) < 2 ^ 31 ->
  midi_out_jack.drain (S (S fuel)) w =
  (Ok tt,
   rt_world w
     (Some {| rb_size := rb_size rs; rb_data := [] |})
     (Some {| rb_size := rb_size rm; rb_data := [] |})
     (sem_cleanup (w_data w)) (sem_needpost (w_data w))
     (srv_outbuf (w_srv w)
      ++ [{| ev_time := 0; ev_size := Z.of_nat (length m); ev_data := firstn k m |}])
     (drain_log (w_thread w) m)).
Proof.
  intros Hs Hds Hm Hdm Hlt.
  cbn [midi_out_jack.drain]. unfold bind at 1.
  rewrite (jack_ringbuffer_read_space_spec BuffSize w rs Hs).
  unfold rb_read_space at 1. rewrite Hds.
  change (0 <? Z.of_nat (length (size_record m))) with true. cbv iota.
  unfold bind at 1. rewrite (drain_one_gen w rs rm Hs Hm). cbv zeta.
  unfold rb_read. rewrite Hds, Hdm. unfold rb_read_space. rewrite Hds, Hdm.
  change (Z.to_nat (Z.min 4 (Z.of_nat (length (size_record m))))) with 4%nat.
  change (firstn 4 (size_record m)) with (size_record m).
  change (skipn 4 (size_record m)) with (@nil byte).
  cbn [fst snd]. rewrite (size_record_read m Hlt).
  assert (Hk : Z.to_nat (Z.min (Z.of_nat (length m))
                           (Z.of_nat (length (firstn k m))))
               = length (firstn k m)).
  { rewrite length_firstn. lia. }
  rewrite Hk, firstn_all, skipn_all.
  unfold bind at 1.
  erewrite (jack_ringbuffer_read_space_spec BuffSize) by reflexivity.
  cbn [rb_read_space rb_data length Z.of_nat Z.ltb Z.compare]. unfold ret.
  reflexivity.
Qed.

(** A message longer than the payload ringbuffer (and shorter than 2^31
    bytes), sent with both ringbuffers empty: [send_message] returns as for
    any other message, the payload ringbuffer takes the first 16384 bytes
    only, and the length record carries the full length.  The next run of
    [jackProcessOut] reserves an event of the full length and copies the
    first 16384 bytes of the message into it; the rest of the message is
    lost. *)
Theorem oversized_message (m : list byte) (w : world) (p : jack_port_t)
    (nframes : Z) :
  port (w_data w) = Some p ->
  buffSize (w_data w) = Some (jack_ringbuffer_create_pure ringbuffer_size) ->
  buffMessage (w_data w) = Some (jack_ringbuffer_create_pure ringbuffer_size) ->
  ringbuffer_size < Z.of_nat (length m) < 2 ^ 31 ->
  exists w1 w2,
    midi_out_jack.send_message m w = (Ok tt, w1)
    /\ w_trace w1 = w_trace w ++ send_log (w_thread w) m
    /\ buffMessage (w_data w1) =
       Some {| rb_size := ringbuffer_size;
               rb_data := firstn (Z.to_nat ringbuffer_size) m |}
    /\ midi_out_jack.jackProcessOut nframes w1 = (Ok 0, w2)
    /\ srv_outbuf (w_srv w2) =
       [{| ev_time := 0; ev_size := Z.of_nat (length m);
           ev_data := firstn (Z.to_nat ringbuffer_size) m |}]
    /\ buffSize (w_data w2) = Some (jack_ringbuffer_create_pure ringbuffer_size)
    /\ buffMessage (w_data w2) = Some (jack_ringbuffer_create_pure ringbuffer_size).
Proof.
  intros Hp Hs Hm Hlen.
  assert (Hsend :
    midi_out_jack.send_message m w =
    (Ok tt,
     add_trace (send_log (w_thread w) m)
       (with_data (fun d =>
          set_ring BuffSize
            (Some {| rb_size := ringbuffer_size; rb_data := size_record m |})
            (set_ring BuffMessage
               (Some {| rb_size := ringbuffer_size;
                        rb_data := firstn (Z.to_nat ringbuffer_size) m |}) d)) w))).
  { unfold midi_out_jack.send_message, bind.
    rewrite int32_small by lia. rewrite uint64_small by lia.
    rewrite (jack_ringbuffer_write_short BuffMessage m w _ Hm)
      by (unfold ringbuffer_size in *; cbn; lia).
    change 4 with (Z.of_nat (length (int_to_bytes (Z.of_nat (length m))))) at 1.
    erewrite (jack_ringbuffer_write_spec BuffSize)
      by (simpl; first [exact Hs | unfold ringbuffer_size; cbn; lia]).
    unfold ret, add_trace, log, with_data, send_log, size_record. cbn.
    rewrite <- app_assoc. reflexivity. }
  match type of Hsend with _ = (_, ?w') => set (w1 := w') in * end.
  exists w1. eexists. split; [exact Hsend|].
  split; [reflexivity|]. split; [reflexivity|].
  split.
  { eapply (jackProcessOut_after_drain nframes w1 p
              {| rb_size := ringbuffer_size; rb_data := size_record m |});
      [exact Hp | reflexivity |].
    cbn [rb_data]. change (length (size_record m)) with 4%nat.
    rewrite (drain_short m (Z.to_nat ringbuffer_size) 3 (entered w1 p nframes)
               {| rb_size := ringbuffer_size; rb_data := size_record m |}
               {| rb_size := ringbuffer_size;
                  rb_data := firstn (Z.to_nat ringbuffer_size) m |});
      [reflexivity | reflexivity | reflexivity | reflexivity | reflexivity | lia]. }
  split; [reflexivity|]. split; reflexivity.
Qed.

Lemma oversized_message_witness :
  let m := repeat Byte.x00 (Z.to_nat 16385) in
  exists w1 w2,
    midi_out_jack.send_message m out_open = (Ok tt, w1)
    /\ w_trace w1 = w_trace out_open ++ send_log (w_thread out_open) m
    /\ buffMessage (w_data w1) =
       Some {| rb_size := ringbuffer_size;
               rb_data := firstn (Z.to_nat ringbuffer_size) m |}
    /\ midi_out_jack.jackProcessOut 64 w1 = (Ok 0, w2)
    /\ srv_outbuf (w_srv w2) =
       [{| ev_time := 0; ev_size := Z.of_nat (length m);
           ev_data := firstn (Z.to_nat ringbuffer_size) m |}]
    /\ buffSize (w_data w2) = Some (jack_ringbuffer_create_pure ringbuffer_size)
    /\ buffMessage (w_data w2) = Some (jack_ringbuffer_create_pure ringbuffer_size).
Proof.
  intros m.
  apply (oversized_message m out_open 2%nat 64);
    first [reflexivity | vm_compute; split; reflexivity].
Defined.

(* ================================================================= *)
(** ** An ack left over from an earlier request *)

Lemma close_port_after_wait_spec (w : world) (c : jack_client_t) (p : jack_port_t)
    (r : bool) (w3 : world) :
  port (w_data w) = Some p ->
  wait_cycles midi_out_jack.process_cycle SemCleanup (next_cycles w) (requested w)
  = (Ok r, w3) ->
  port (w_data w3) = Some p ->
  client (w_data w3) = Some c ->
  midi_out_jack.close_port w = (Ok tt, closed c p r w3).
Proof.
  intros Hp Hwait Hp3 Hc3.
  unfold midi_out_jack.close_port, sem_notify, sem_wait_for, emit, modify,
    bind, gets, ret.
  rewrite Hp. cbv beta iota.
  change (hd [] (srv_cycles (w_srv
            (log (SemNotify SemNeedpost) (with_data (set_sem SemNeedpost true) w)))))
    with (next_cycles w).
  change (srv_cycles (w_srv
            (log (SemNotify SemNeedpost) (with_data (set_sem SemNeedpost true) w))))
    with (srv_cycles (w_srv w)).
  fold (requested w). rewrite Hwait. cbv beta iota.
  change (w_data (log (SemWaitFor SemCleanup 1000 r) w3)) with (w_data w3).
  rewrite Hp3, Hc3. reflexivity.
Qed.

(** A wait on a semaphore that is signalled already ends at once: no
    process cycle runs. *)
Lemma wait_cycles_signalled (rt : Z -> M unit) (s : sem_id) (cycles : list Z)
    (w : world) :
  sem s (w_data w) = true ->
  wait_cycles rt s cycles w = (Ok true, with_data (set_sem s false) w).
Proof.
  intros Hs. destruct cycles; cbn [wait_cycles]; unfold bind, gets, modify, ret;
    rewrite Hs; reflexivity.
Qed.

(** [close_port] of the output backend does not reset the ack before it
    waits.  Called with a port open while the ack is signalled already, it
    signals the request, finds the ack at once and unregisters the port:
    no process cycle runs in between, the real-time thread logs nothing,
    and the request is left signalled when [close_port] returns. *)
Theorem close_port_ack_pending (w : world) (c : jack_client_t) (p : jack_port_t) :
  port (w_data w) = Some p ->
  client (w_data w) = Some c ->
  sem_cleanup (w_data w) = true ->
  exists w',
    midi_out_jack.close_port w = (Ok tt, w')
    /\ w_trace w' =
       w_trace w
       ++ [ (w_thread w, SemNotify SemNeedpost);
            (w_thread w, SemWaitFor SemCleanup 1000 true);
            (w_thread w, PortUnregister (Some c) (Some p)) ]
    /\ port (w_data w') = None
    /\ sem_needpost (w_data w') = true
    /\ sem_cleanup (w_data w') = false
    /\ srv_outbuf (w_srv w') = srv_outbuf (w_srv w)
    /\ buffSize (w_data w') = buffSize (w_data w)
    /\ buffMessage (w_data w') = buffMessage (w_data w).
Proof.
  intros Hp Hc Hack.
  exists (closed c p true (with_data (set_sem SemCleanup false) (requested w))).
  split.
  - apply close_port_after_wait_spec; [exact Hp | | exact Hp | exact Hc].
    apply wait_cycles_signalled. exact Hack.
  - split.
    + cbn [closed requested w_trace with_data with_srv log w_thread].
      rewrite <- !app_assoc. reflexivity.
    + repeat split.
Qed.

Lemma close_port_ack_pending_witness :
  let w := with_data (set_sem SemCleanup true) out_open in
  exists w',
    midi_out_jack.close_port w = (Ok tt, w')
    /\ w_trace w' =
       w_trace w
       ++ [ (w_thread w, SemNotify SemNeedpost);
            (w_thread w, SemWaitFor SemCleanup 1000 true);
            (w_thread w, PortUnregister (Some 1%nat) (Some 2%nat)) ]
    /\ port (w_data w') = None
    /\ sem_needpost (w_data w') = true
    /\ sem_cleanup (w_data w') = false
    /\ srv_outbuf (w_srv w') = srv_outbuf (w_srv w)
    /\ buffSize (w_data w') = buffSize (w_data w)
    /\ buffMessage (w_data w') = buffMessage (w_data w).
Proof.
  intros w.
  apply (close_port_ack_pending w 1%nat 2%nat); reflexivity.
Defined.

(** A [close_port] whose wait times out leaves its request signalled.
    The request outlives the port: when a port is opened again, the first
    run of [jackProcessOut] consumes it and signals the ack, although no
    [close_port] is waiting. *)
Theorem request_outlives_timeout (w : world) (c : jack_client_t)
    (p : jack_port_t) (rs rm : jack_ringbuffer_t) (name : string) (nframes : Z) :
  port (w_data w) = Some p ->
  client (w_data w) = Some c ->
  handles w = [p] ->
  buffSize (w_data w) = Some rs ->
  buffMessage (w_data w) = Some rm ->
  sem_cleanup (w_data w) = false ->
  srv_active (w_srv w) && negb (is_nil (next_cycles w)) = false ->
  srv_accept (w_srv w) name = true ->
  exists w1 w2 w3,
    midi_out_jack.close_port w = (Ok tt, w1)
    /\ port (w_data w1) = None
    /\ sem_needpost (w_data w1) = true
    /\ midi_out_jack.open_virtual_port name w1 = (Ok tt, w2)
    /\ port (w_data w2) = Some (srv_next (w_srv w))
    /\ midi_out_jack.jackProcessOut nframes w2 = (Ok 0, w3)
    /\ sem_needpost (w_data w3) = false
    /\ sem_cleanup (w_data w3) = true
    /\ port (w_data w3) = Some (srv_next (w_srv w)).
Proof.
  intros Hp Hc Hh Hs Hm Hack Hno Ha.
  pose proof (wait_timeout w Hack Hno) as Hwait.
  pose proof (close_port_after_wait_spec w c p false (requested w) Hp Hwait Hp Hc)
    as Hclose.
  set (w1 := closed c p false (requested w)) in *.
  assert (Hr1 : registered w1 = []).
  { unfold w1, closed, registered. cbn. apply filter_only_handle. exact Hh. }
  assert (Hopen : open_virtual_port_of Output name w1 = (Ok tt, port_registered Output c name w1)).
  { apply open_virtual_port_of_spec; [exact Hc | reflexivity | exact Hr1 | exact Ha]. }
  set (w2 := port_registered Output c name w1) in *.
  destruct (jackProcessOut_shape nframes w2 (srv_next (w_srv w)) rs rm)
    as (rm' & ob & l & Hrun & _); [reflexivity | exact Hs | exact Hm |].
  exists w1, w2. eexists.
  split; [exact Hclose|]. split; [reflexivity|]. split; [reflexivity|].
  split; [exact Hopen|]. split; [reflexivity|].
  split; [exact Hrun|]. repeat split.
Qed.

Lemma request_outlives_timeout_witness :
  let w := with_srv (set_srv_cycles []) out_open in
  exists w1 w2 w3,
    midi_out_jack.close_port w = (Ok tt, w1)
    /\ port (w_data w1) = None
    /\ sem_needpost (w_data w1) = true
    /\ midi_out_jack.open_virtual_port "again" w1 = (Ok tt, w2)
    /\ port (w_data w2) = Some (srv_next (w_srv w))
    /\ midi_out_jack.jackProcessOut 64 w2 = (Ok 0, w3)
    /\ sem_needpost (w_data w3) = false
    /\ sem_cleanup (w_data w3) = true
    /\ port (w_data w3) = Some (srv_next (w_srv w)).
Proof.
  intros w.
  apply (request_outlives_timeout w 1%nat 2%nat
           (jack_ringbuffer_create_pure ringbuffer_size)
           (jack_ringbuffer_create_pure ringbuffer_size) "again" 64);
    reflexivity.
Defined.

(* ================================================================= *)
(** ** Defined behaviour *)

Section Safe.

Variable I : world -> Prop.

Lemma outcome_bind {A B} (m : M A) (k : A -> M B) (w : world) :
  outcome (bind m k) w =
  match m w with
  | (Ok a, w') => outcome (k a) w'
  | (Raise e, _) => Raise e
  | (Undefined, _) => Undefined
  end.
Proof.
  unfold outcome, bind. destruct (m w) as [[a|e|] w']; reflexivity.
Qed.

Lemma safe_ret {A} (a : A) : safe I (ret a).
Proof. intros w H. split; [discriminate | exact H]. Qed.

Lemma safe_gets {A} (f : world -> A) : safe I (gets f).
Proof. intros w H. split; [discriminate | exact H]. Qed.

Lemma safe_raise {A} (e : exception) : safe I (@raise A e).
Proof. intros w H. split; [discriminate | exact H]. Qed.

Lemma safe_modify (f : world -> world) :
  (forall w, I w -> I (f w)) -> safe I (modify f).
Proof. intros Hf w H. split; [discriminate | apply Hf, H]. Qed.

Lemma safe_bind {A B} (m : M A) (k : A -> M B) :
  safe I m -> (forall a, safe I (k a)) -> safe I (bind m k).
Proof.
  intros Hm Hk w H. rewrite outcome_bind, exec_bind.
  destruct (Hm w H) as [Ho Hi]. unfold outcome, exec in Ho, Hi.
  destruct (m w) as [[a|e|] w']; cbn [fst snd] in Ho, Hi.
  - apply Hk, Hi.
  - split; [discriminate | exact Hi].
  - contradiction.
Qed.

(** The continuation may rely on what [I] says about the value read. *)
Lemma safe_gets_bind {A B} (f : world -> A) (k : A -> M B) :
  (forall w, I w -> outcome (k (f w)) w <> Undefined /\ I (exec (k (f w)) w)) ->
  safe I (bind (gets f) k).
Proof.
  intros Hk w H. rewrite outcome_bind, exec_bind. unfold gets. apply Hk, H.
Qed.

End Safe.

Section Sound.

Variable b : backend.
Variable peers : direction -> list string.

Lemma safe_emit (c : call) : safe (sound b peers) (emit c).
Proof.
  apply safe_modify. intros w [Hp Hb]. split; [exact Hp | destruct b; exact Hb].
Qed.

Lemma safe_on_rt_thread {A} (m : M A) :
  safe (sound b peers) m -> safe (sound b peers) (on_rt_thread m).
Proof.
  intros Hm w H.
  assert (H' : sound b peers (with_thread RtThread w)).
  { destruct H as [Hp Hb]. split; [exact Hp | destruct b; exact Hb]. }
  destruct (Hm _ H') as [Ho [Hp Hb]]. unfold outcome, exec, on_rt_thread in *.
  destruct (m (with_thread RtThread w)) as [r w']. cbn [fst snd] in *.
  split; [exact Ho|]. split; [exact Hp | destruct b; exact Hb].
Qed.

End Sound.

Create HintDb safe.
#[export] Hint Resolve safe_ret safe_gets safe_raise safe_emit
  safe_on_rt_thread : safe.

Ltac sound_same :=
  let w := fresh "w" in
  let Hp := fresh "Hp" in
  let Hb := fresh "Hb" in
  intros w [Hp Hb]; split;
  [ exact Hp
  | match goal with
    | |- match ?b with Input => _ | Output => _ end => destruct b; exact Hb
    | _ => exact Hb
    end ].

Ltac safe_step :=
  match goal with
  | |- safe _ (bind _ _) => apply safe_bind; [|intro]
  | |- safe _ (modify _) => apply safe_modify; sound_same
  | |- safe _ (match ?x with _ => _ end) => destruct x
  | |- safe _ (let '(_, _) := ?x in _) => destruct x
  | |- safe _ _ => solve [auto with safe]
  end.

Ltac safe_tac := repeat safe_step.

Section SoundPrimitives.

Variable b : backend.
Variable peers : direction -> list string.

Lemma safe_warning (msg : string) : safe (sound b peers) (warning msg).
Proof. unfold warning. safe_tac. Qed.

Lemma safe_error (msg : string) : safe (sound b peers) (error msg).
Proof. unfold error. safe_tac. Qed.

Lemma safe_jack_client_open (name : string) :
  safe (sound b peers) (jack_client_open name).
Proof. unfold jack_client_open. safe_tac. Qed.

Lemma safe_jack_activate (c : jack_client_t) : safe (sound b peers) (jack_activate c).
Proof. unfold jack_activate. safe_tac. Qed.

Lemma safe_jack_port_register (c : option jack_client_t) (name : string)
    (d : direction) :
  safe (sound b peers) (jack_port_register c name d).
Proof. unfold jack_port_register. safe_tac. Qed.

Lemma safe_jack_port_unregister (c : option jack_client_t) (p : option jack_port_t) :
  safe (sound b peers) (jack_port_unregister c p).
Proof. unfold jack_port_unregister. safe_tac. Qed.

Lemma safe_rename_port (p : option jack_port_t) (name : string) :
  safe (sound b peers) (rename_port p name).
Proof. unfold rename_port. safe_tac. Qed.

Lemma safe_jack_port_name (p : jack_port_t) : safe (sound b peers) (jack_port_name p).
Proof. unfold jack_port_name. safe_tac. Qed.

Lemma safe_jack_connect (c : option jack_client_t) (src dst : string) :
  safe (sound b peers) (jack_connect c src dst).
Proof. unfold jack_connect. safe_tac. Qed.

Lemma safe_jack_free : safe (sound b peers) jack_free.
Proof. unfold jack_free. safe_tac. Qed.

Lemma safe_jack_get_time : safe (sound b peers) jack_get_time.
Proof. unfold jack_get_time. safe_tac. Qed.

Lemma safe_jack_port_get_buffer (p : jack_port_t) (nframes : Z) :
  safe (sound b peers) (jack_port_get_buffer p nframes).
Proof. unfold jack_port_get_buffer. safe_tac. Qed.

Lemma safe_jack_midi_clear_buffer : safe (sound b peers) jack_midi_clear_buffer.
Proof. unfold jack_midi_clear_buffer. safe_tac. Qed.

Lemma safe_jack_midi_event_reserve (time size : Z) :
  safe (sound b peers) (jack_midi_event_reserve time size).
Proof. unfold jack_midi_event_reserve. safe_tac. Qed.

Lemma safe_push_event (e : midi_event) : safe (sound b peers) (push_event e).
Proof. unfold push_event. safe_tac. Qed.

Lemma safe_sem_notify (s : sem_id) : safe (sound b peers) (sem_notify s).
Proof. unfold sem_notify. safe_tac. Qed.

Lemma safe_sem_try_wait (s : sem_id) : safe (sound b peers) (sem_try_wait s).
Proof. unfold sem_try_wait. safe_tac. Qed.

Lemma safe_queue_push (m : message) : safe (sound b peers) (midi_in_jack.queue_push m).
Proof. unfold midi_in_jack.queue_push. safe_tac. Qed.

End SoundPrimitives.

#[export] Hint Resolve safe_warning safe_error safe_jack_client_open
  safe_jack_activate safe_jack_port_register safe_jack_port_unregister
  safe_rename_port safe_jack_port_name safe_jack_connect safe_jack_free
  safe_jack_get_time safe_jack_port_get_buffer safe_jack_midi_clear_buffer
  safe_jack_midi_event_reserve safe_push_event safe_sem_notify
  safe_sem_try_wait safe_queue_push : safe.

Lemma safe_jack_set_process_callback (b : backend) (peers : direction -> list string)
    (c : jack_client_t) :
  safe (sound b peers) (jack_set_process_callback c (callback_of b)).
Proof.
  unfold jack_set_process_callback. apply safe_bind; [|intro; auto with safe].
  apply safe_modify. intros w [Hp Hb]. split; [exact Hp|].
  destruct b; [cbn; discriminate | exact Hb].
Qed.

Lemma safe_jack_client_close (b : backend) (peers : direction -> list string)
    (c : jack_client_t) :
  safe (sound b peers) (jack_client_close c).
Proof.
  unfold jack_client_close. apply safe_bind; [|intro; auto with safe].
  apply safe_modify. intros w [Hp Hb]. split; [exact Hp|].
  destruct b; [cbn; discriminate | exact Hb].
Qed.

Lemma safe_array_at (b : backend) (peers : direction -> list string)
    (ports : list string) (i : nat) :
  (i <= length ports)%nat -> safe (sound b peers) (array_at ports i).
Proof.
  intros Hi. unfold array_at.
  destruct (nth_error ports i) eqn:Hn; [auto with safe|].
  apply nth_error_None in Hn.
  replace (Nat.eqb i (length ports)) with true
    by (symmetry; apply Nat.eqb_eq; lia).
  auto with safe.
Qed.

(** The list [jack_get_ports] returns is null or the peer ports of the
    direction asked for. *)
Lemma safe_jack_get_ports_bind {A} (b : backend) (peers : direction -> list string)
    (c : option jack_client_t) (d : direction) (k : option (list string) -> M A) :
  safe (sound b peers) (k None) ->
  (peers d <> [] -> safe (sound b peers) (k (Some (peers d)))) ->
  safe (sound b peers) (bind (jack_get_ports c d) k).
Proof.
  intros Hnone Hsome w H. rewrite outcome_bind, exec_bind.
  assert (H' : sound b peers (log (GetPorts c d) w)).
  { destruct H as [Hp Hb]. split; [exact Hp | destruct b; exact Hb]. }
  unfold jack_get_ports, bind, gets, emit, modify, ret.
  destruct c as [c|]; [|apply Hnone, H'].
  destruct H as [Hp _]. cbn [w_srv log]. rewrite Hp.
  destruct (peers d) as [|x l] eqn:Hd; [apply Hnone, H'|].
  apply Hsome; [discriminate | exact H'].
Qed.

Lemma safe_jack_ringbuffer_create (b : backend) (peers : direction -> list string)
    (sz : Z) :
  safe (sound b peers) (jack_ringbuffer_create sz).
Proof. unfold jack_ringbuffer_create. safe_tac. Qed.

#[export] Hint Resolve safe_jack_set_process_callback safe_jack_client_close
  safe_jack_ringbuffer_create : safe.

(* ----------------------------------------------------------------- *)
(** *** The ringbuffers of an output instance *)

Section SoundOutput.

Variable peers : direction -> list string.

Lemma safe_jack_ringbuffer_read_space (r : ring_id) :
  safe (sound Output peers) (jack_ringbuffer_read_space r).
Proof.
  intros w H. pose proof H as [_ (rs & rm & Hs & Hm & _)].
  unfold outcome, exec, jack_ringbuffer_read_space, bind, gets.
  destruct r; cbn [ring]; [rewrite Hs | rewrite Hm];
    (split; [discriminate | exact H]).
Qed.

Lemma safe_jack_ringbuffer_read (r : ring_id) (cnt : Z) :
  safe (sound Output peers) (jack_ringbuffer_read r cnt).
Proof.
  intros w [Hp (rs & rm & Hs & Hm & Hsz)].
  unfold outcome, exec, jack_ringbuffer_read, bind, gets, emit, modify, ret.
  destruct r; cbn [ring]; [rewrite Hs | rewrite Hm]; cbn [rb_read fst snd];
    (split; [discriminate|]); (split; [exact Hp|]).
  - eexists. exists rm. split; [reflexivity|]. split; [exact Hm | exact Hsz].
  - exists rs. eexists. split; [exact Hs|]. split; [reflexivity | exact Hsz].
Qed.

(** The first write of [send_message] never reads past the message,
    whatever its length: a length that does not fit [int] turns into a
    count the payload ringbuffer cannot take. *)
Lemma safe_write_message (m : list byte) :
  safe (sound Output peers)
    (jack_ringbuffer_write BuffMessage m (uint64 (int32 (Z.of_nat (length m))))).
Proof.
  intros w [Hp (rs & rm & Hs & Hm & Hsz)].
  unfold outcome, exec, jack_ringbuffer_write, bind, gets, emit, modify, ret.
  cbn [ring]. rewrite Hm. unfold rb_write.
  set (n := Z.min _ _).
  assert (Hn : n <= Z.of_nat (length m)).
  { subst n. unfold rb_write_space, rb_read_space, uint64, int32.
    unfold ringbuffer_size in Hsz.
    pose proof (Z.mod_pos_bound (Z.of_nat (length m) + 2 ^ 31) (2 ^ 32) eq_refl)
      as Hmod.
    destruct (Z_lt_le_dec (Z.of_nat (length m)) (2 ^ 31)) as [Hsmall|Hbig].
    - rewrite (Z.mod_small (Z.of_nat (length m) + 2 ^ 31)) by lia.
      rewrite Z.mod_small by lia. lia.
    - lia. }
  replace (Z.of_nat (length m) <? n) with false
    by (symmetry; apply Z.ltb_ge; exact Hn).
  cbn [fst snd]. split; [discriminate|]. split; [exact Hp|].
  exists rs. eexists. split; [exact Hs|]. split; [reflexivity | exact Hsz].
Qed.

Lemma safe_write_size (n : Z) :
  safe (sound Output peers) (jack_ringbuffer_write BuffSize (int_to_bytes n) 4).
Proof.
  intros w [Hp (rs & rm & Hs & Hm & Hsz)].
  unfold outcome, exec, jack_ringbuffer_write, bind, gets, emit, modify, ret.
  cbn [ring]. rewrite Hs. unfold rb_write.
  set (k := Z.min _ _).
  assert (Hk : k <= 4) by (subst k; lia).
  replace (Z.of_nat (length (int_to_bytes n)) <? k) with false
    by (symmetry; apply Z.ltb_ge; exact Hk).
  cbn [fst snd]. split; [discriminate|]. split; [exact Hp|].
  eexists. exists rm. split; [reflexivity|]. split; [exact Hm | exact Hsz].
Qed.

Lemma safe_send_message (m : list byte) :
  safe (sound Output peers) (midi_out_jack.send_message m).
Proof.
  unfold midi_out_jack.send_message.
  apply safe_bind; [apply safe_write_message | intros _].
  apply safe_bind; [apply safe_write_size | intros _; auto with safe].
Qed.

Lemma safe_drain (fuel : nat) : safe (sound Output peers) (midi_out_jack.drain fuel).
Proof.
  induction fuel as [|fuel IH]; cbn [midi_out_jack.drain]; [auto with safe|].
  apply safe_bind; [apply safe_jack_ringbuffer_read_space | intros n].
  destruct (0 <? n); [|auto with safe].
  apply safe_bind; [|intros _; exact IH].
  unfold midi_out_jack.drain_one.
  apply safe_bind; [apply safe_jack_ringbuffer_read | intros record].
  apply safe_bind; [auto with safe | intros _].
  apply safe_bind; [apply safe_jack_ringbuffer_read | intros midiData].
  auto with safe.
Qed.

Lemma safe_jackProcessOut (nframes : Z) :
  safe (sound Output peers) (midi_out_jack.jackProcessOut nframes).
Proof.
  unfold midi_out_jack.jackProcessOut.
  apply safe_bind; [auto with safe | intros data].
  destruct (port data); [|auto with safe].
  apply safe_bind; [auto with safe | intros _].
  apply safe_bind; [auto with safe | intros _].
  apply safe_bind; [auto with safe | intros fuel].
  apply safe_bind; [apply safe_drain | intros _].
  safe_tac.
Qed.

End SoundOutput.

(* ----------------------------------------------------------------- *)
(** *** The callbacks and the waits *)

Section SoundOperations.

Variable b : backend.
Variable peers : direction -> list string.

Lemma safe_process_event (event : list byte) :
  safe (sound b peers) (midi_in_jack.process_event event).
Proof. unfold midi_in_jack.process_event. safe_tac. Qed.

Lemma safe_process_events (events : list (list byte)) :
  safe (sound b peers) (midi_in_jack.process_events events).
Proof.
  induction events as [|e rest IH]; cbn [midi_in_jack.process_events];
    [auto with safe|].
  apply safe_bind; [apply safe_process_event | intros _; exact IH].
Qed.

Lemma safe_jackProcessIn (nframes : Z) :
  safe (sound b peers) (midi_in_jack.jackProcessIn nframes).
Proof.
  unfold midi_in_jack.jackProcessIn.
  apply safe_bind; [auto with safe | intros data].
  destruct (port data); [|auto with safe].
  apply safe_bind; [auto with safe | intros _].
  apply safe_bind; [auto with safe | intros buff].
  apply safe_bind; [apply safe_process_events | intros _; auto with safe].
Qed.

(** The server runs the output callback for an output instance only. *)
Lemma safe_process_cycle (nframes : Z) :
  safe (sound b peers) (midi_out_jack.process_cycle nframes).
Proof.
  unfold midi_out_jack.process_cycle. apply safe_gets_bind. intros w H.
  destruct (srv_active (w_srv w)); [|apply safe_ret, H].
  destruct (srv_callback (w_srv w)) as [[|]|] eqn:Hcb; [| |apply safe_ret, H].
  - apply safe_bind; [|intros _; auto with safe | exact H].
    apply safe_on_rt_thread, safe_jackProcessIn.
  - destruct b.
    + destruct H as [_ Hb]. exfalso. apply Hb. exact Hcb.
    + apply safe_bind; [|intros _; auto with safe | exact H].
      apply safe_on_rt_thread, safe_jackProcessOut.
Qed.

Lemma safe_wait_cycles (rt : Z -> M unit) (s : sem_id) (cycles : list Z) :
  (forall n, safe (sound b peers) (rt n)) ->
  safe (sound b peers) (wait_cycles rt s cycles).
Proof.
  intros Hrt. induction cycles as [|n rest IH]; cbn [wait_cycles].
  - safe_tac.
  - apply safe_bind; [auto with safe | intros d].
    destruct (sem s d); [safe_tac|].
    apply safe_bind; [apply Hrt | intros _; exact IH].
Qed.

Lemma safe_sem_wait_for (rt : Z -> M unit) (s : sem_id) (ms : Z) :
  (forall n, safe (sound b peers) (rt n)) ->
  safe (sound b peers) (sem_wait_for rt s ms).
Proof.
  intros Hrt. unfold sem_wait_for.
  apply safe_bind; [auto with safe | intros srv].
  apply safe_bind; [safe_tac | intros _].
  apply safe_bind; [apply safe_wait_cycles, Hrt | intros r].
  safe_tac.
Qed.

End SoundOperations.

(* ----------------------------------------------------------------- *)
(** *** The public operations *)

Section SoundApi.

Variable b : backend.
Variable peers : direction -> list string.

Lemma safe_connect_of : safe (sound b peers) (connect_of b).
Proof.
  intros w H. unfold outcome, exec.
  destruct (client (w_data w)) as [c|] eqn:Hc.
  - rewrite (connect_of_connected b w c Hc). split; [discriminate | exact H].
  - destruct H as [Hp Hb]. destruct (srv_running (w_srv w)) eqn:Hrun.
    + rewrite (connect_of_running b w Hrun Hc). split; [discriminate|].
      split; [destruct b; exact Hp|].
      destruct b; [cbn; discriminate|].
      eexists. eexists. split; [reflexivity|]. split; [reflexivity|].
      cbn. lia.
    + destruct b; cbn [connect_of].
      * rewrite (in_connect_no_server w Hrun Hc). split; [discriminate|].
        split; [exact Hp | exact Hb].
      * rewrite (out_connect_no_server w Hrun Hc). split; [discriminate|].
        split; [exact Hp|].
        eexists. eexists. split; [reflexivity|]. split; [reflexivity|].
        cbn. lia.
Qed.

Lemma safe_get_port_count_of : safe (sound b peers) (get_port_count_of b).
Proof.
  pose proof safe_connect_of as Hc.
  destruct b; cbn [get_port_count_of connect_of] in *;
    [unfold midi_in_jack.get_port_count | unfold midi_out_jack.get_port_count];
    (apply safe_bind; [exact Hc | intros _]);
    (apply safe_bind; [auto with safe | intros data]);
    (destruct (client data); [|auto with safe]);
    (apply safe_jack_get_ports_bind; [auto with safe | intros _]);
    safe_tac.
Qed.

Lemma safe_get_port_name_of (i : nat) :
  in_range b peers i -> safe (sound b peers) (get_port_name_of b i).
Proof.
  intros Hi. pose proof safe_connect_of as Hc.
  assert (Hat : peers (peer_direction b) <> [] ->
                safe (sound b peers) (array_at (peers (peer_direction b)) i)).
  { intros Hne. apply safe_array_at. destruct Hi; [contradiction | assumption]. }
  destruct b; cbn [get_port_name_of connect_of peer_direction] in *;
    [unfold midi_in_jack.get_port_name | unfold midi_out_jack.get_port_name];
    (apply safe_bind; [exact Hc | intros _]);
    (apply safe_bind; [auto with safe | intros data]);
    (apply safe_jack_get_ports_bind; [safe_tac | intros Hne]);
    (apply safe_bind; [apply Hat, Hne | intros entry]);
    safe_tac.
Qed.

Lemma safe_open_port_of (i : nat) (name : string) :
  in_range b peers i -> safe (sound b peers) (open_port_of b i name).
Proof.
  intros Hi. pose proof safe_connect_of as Hc.
  pose proof (safe_get_port_name_of i Hi) as Hn.
  destruct b; cbn [open_port_of open_op connect_of get_port_name_of] in *;
    [unfold midi_in_jack.open_port | unfold midi_out_jack.open_port];
    (apply safe_bind; [exact Hc | intros _]);
    (apply safe_bind; [auto with safe | intros data]);
    (apply safe_bind; [safe_tac | intros _]);
    (apply safe_bind; [auto with safe | intros data']);
    (destruct (port data'); [|auto with safe]);
    (apply safe_bind; [exact Hn | intros peer]);
    safe_tac.
Qed.

Lemma safe_open_virtual_port_of (name : string) :
  safe (sound b peers) (open_virtual_port_of b name).
Proof.
  pose proof safe_connect_of as Hc.
  destruct b; cbn [open_virtual_port_of open_op connect_of] in *;
    [ unfold midi_in_jack.open_virtual_port
    | unfold midi_out_jack.open_virtual_port ];
    (apply safe_bind; [exact Hc | intros _]);
    safe_tac.
Qed.

Lemma safe_close_port_of : safe (sound b peers) (close_port_of b).
Proof.
  destruct b; cbn [close_port_of];
    [unfold midi_in_jack.close_port | unfold midi_out_jack.close_port].
  - safe_tac.
  - apply safe_bind; [auto with safe | intros data].
    destruct (port data); [|auto with safe].
    apply safe_bind; [auto with safe | intros _].
    apply safe_bind; [apply safe_sem_wait_for, safe_process_cycle | intros _].
    safe_tac.
Qed.

Lemma safe_api_op (c : api_call) :
  call_in_range b peers c -> safe (sound b peers) (api_op b c).
Proof.
  intros Hr. destruct c; cbn [api_op call_in_range] in *.
  - apply safe_open_port_of, Hr.
  - apply safe_open_virtual_port_of.
  - apply safe_close_port_of.
  - destruct b;
      [unfold midi_in_jack.set_client_name | unfold midi_out_jack.set_client_name];
      auto with safe.
  - destruct b;
      [unfold midi_in_jack.set_port_name | unfold midi_out_jack.set_port_name];
      unfold jack_port_rename, jack_port_set_name; safe_tac.
  - apply safe_bind; [apply safe_get_port_count_of | intros _; auto with safe].
  - apply safe_bind; [apply safe_get_port_name_of, Hr | intros _; auto with safe].
  - destruct b; [auto with safe | apply safe_send_message].
  - apply safe_process_cycle.
Qed.

Lemma safe_destroy_of : safe (sound b peers) (destroy_of b).
Proof.
  pose proof safe_close_port_of as Hcl.
  destruct b; cbn [destroy_of close_port_of] in *;
    [unfold midi_in_jack.destroy | unfold midi_out_jack.destroy].
  - apply safe_bind; [exact Hcl | intros _]. safe_tac.
  - apply safe_bind; [exact Hcl | intros _].
    apply safe_gets_bind. intros w H.
    pose proof H as [_ (rs & rm & Hs & Hm & _)]. rewrite Hs, Hm.
    assert (Hfree : forall rb, safe (sound Output peers)
                                 (jack_ringbuffer_free (Some rb))).
    { intros rb. unfold jack_ringbuffer_free. auto with safe. }
    refine ((_ : safe (sound Output peers) _) w H).
    apply safe_bind; [apply Hfree | intros _].
    apply safe_bind; [apply Hfree | intros _].
    safe_tac.
Qed.

End SoundApi.

Lemma defined_run_api (b : backend) (peers : direction -> list string)
    (cs : list api_call) :
  Forall (call_in_range b peers) cs ->
  forall w, sound b peers w -> defined b cs w /\ sound b peers (run_api b cs w).
Proof.
  induction 1 as [|c cs Hc _ IH]; intros w H; cbn [defined run_api].
  - split; [exact I | exact H].
  - destruct (safe_api_op b peers c Hc w H) as [Ho Hi].
    destruct (IH _ Hi) as [Hd Hs].
    split; [split; [exact Ho | exact Hd] | exact Hs].
Qed.

Lemma sound_create_of (b : backend) (cname : string) (limit : nat) (s : server) :
  srv_callback s = None ->
  fst (create_of b cname limit s) <> Undefined
  /\ sound b (srv_peers s) (snd (create_of b cname limit s)).
Proof.
  intros Hcb.
  assert (Hcreate : exists w0,
             create_of b cname limit s = connect_of b w0
             /\ client (w_data w0) = None
             /\ w_srv w0 = s).
  { destruct b; eexists; (split; [reflexivity|]); split; reflexivity. }
  destruct Hcreate as (w0 & -> & Hc & Hsrv).
  destruct b.
  - apply (safe_connect_of Input (srv_peers s)).
    split; [rewrite Hsrv; reflexivity|]. rewrite Hsrv, Hcb. discriminate.
  - destruct (srv_running (w_srv w0)) eqn:Hrun.
    + rewrite (connect_of_running Output w0 Hrun Hc).
      split; [discriminate|]. split; [cbn; rewrite Hsrv; reflexivity|].
      eexists. eexists. split; [reflexivity|]. split; [reflexivity|]. cbn. lia.
    + cbn [connect_of]. rewrite (out_connect_no_server w0 Hrun Hc).
      split; [discriminate|]. split; [cbn; rewrite Hsrv; reflexivity|].
      eexists. eexists. split; [reflexivity|]. split; [reflexivity|]. cbn. lia.
Qed.

(** An instance of either backend, made on a server that has no process
    callback registered for it yet, whether the server runs or not.  From
    the constructor through any sequence of public operations and process
    cycles to the destructor, no call leaves defined behaviour, provided
    every port number passed to [open_port] and [get_port_name] is at most
    the number of peer ports: the array of port names is never read past
    its terminator, no ringbuffer is used before it has been created or
    freed as a null pointer, and [send_message] never reads past the end
    of the message, whatever its length.  These are the ways the backend
    itself can leave defined behaviour; what the server library does on
    null handles and on a reservation is as modelled above. *)
Theorem defined_behaviour (b : backend) (cname : string) (limit : nat)
    (s : server) (cs : list api_call) :
  srv_callback s = None ->
  Forall (call_in_range b (srv_peers s)) cs ->
  fst (create_of b cname limit s) <> Undefined
  /\ defined b cs (snd (create_of b cname limit s))
  /\ outcome (destroy_of b) (run_api b cs (snd (create_of b cname limit s)))
     <> Undefined.
Proof.
  intros Hcb Hcs.
  destruct (sound_create_of b cname limit s Hcb) as [Ho Hs].
  split; [exact Ho|].
  destruct (defined_run_api b (srv_peers s) cs Hcs _ Hs) as [Hd Hs'].
  split; [exact Hd|].
  apply (safe_destroy_of b (srv_peers s) _ Hs').
Qed.

Lemma defined_behaviour_witness :
  let cs := [ call_send_message note_on; call_get_port_name 1;
              call_open_port 0 "out"; call_process_cycle 64;
              call_set_port_name false "renamed"; call_close_port;
              call_get_port_count ] in
  fst (create_of Output "t1" 0 jack_running) <> Undefined
  /\ defined Output cs (snd (create_of Output "t1" 0 jack_running))
  /\ outcome (destroy_of Output)
       (run_api Output cs (snd (create_of Output "t1" 0 jack_running)))
     <> Undefined.
Proof.
  intros cs.
  apply (defined_behaviour Output "t1" 0 jack_running cs).
  - reflexivity.
  - repeat constructor; right; cbn; lia.
Defined.

(* ================================================================= *)
(** ** The destructor *)

Lemma close_port_of_returns (b : backend) (peers : direction -> list string)
    (w : world) :
  sound b peers w ->
  exists w1,
    close_port_of b w = (Ok tt, w1)
    /\ port (w_data w1) = None
    /\ sound b peers w1.
Proof.
  intros H.
  destruct (safe_close_port_of b peers w H) as [Ho Hs].
  unfold outcome, exec in Ho, Hs.
  destruct (close_port_of b w) as [[[]|e|] w1] eqn:Hcl; cbn [fst snd] in Ho, Hs.
  - exists w1. split; [reflexivity|]. split; [|exact Hs].
    apply (close_port_of_closes b w w1 Hcl).
  - exfalso. destruct b; cbn [close_port_of] in Hcl.
    + destruct (in_close_port_ok w) as (w2 & Hw2 & _). congruence.
    + apply (no_raise_out_close_port w e). rewrite Hcl. reflexivity.
  - contradiction.
Qed.

(** The destructor of either backend always returns: no exception leaves
    it.  It closes the port as [close_port] does, the output backend then
    frees its two ringbuffers, and a connected instance closes its client
    last, which leaves the server with no port, no process callback and no
    active client for it; an instance that is not connected does not call
    [jack_client_close] and leaves the server as [close_port] left it. *)
Theorem destructor_returns (b : backend) (peers : direction -> list string)
    (w : world) :
  sound b peers w ->
  exists w1 w',
    close_port_of b w = (Ok tt, w1)
    /\ destroy_of b w = (Ok tt, w')
    /\ port (w_data w') = None
    /\ (forall c,
           client (w_data w1) = Some c ->
           w_trace w' =
             w_trace w1 ++ frees b (w_thread w1) ++ [(w_thread w1, ClientClose c)]
           /\ registered w' = []
           /\ srv_callback (w_srv w') = None
           /\ srv_active (w_srv w') = false)
    /\ (client (w_data w1) = None ->
        w_trace w' = w_trace w1 ++ frees b (w_thread w1)
        /\ w_srv w' = w_srv w1).
Proof.
  intros H.
  destruct (close_port_of_returns b peers w H) as (w1 & Hcl & Hp1 & Hs1).
  exists w1.
  destruct b; cbn [close_port_of destroy_of frees] in *.
  - unfold midi_in_jack.destroy. unfold bind at 1. rewrite Hcl.
    unfold bind, gets, jack_client_close, modify, emit, ret.
    destruct (client (w_data w1)) as [c|] eqn:Hc.
    + eexists. split; [reflexivity|]. split; [reflexivity|].
      split; [exact Hp1|]. split; [|discriminate].
      intros c' Hc'. injection Hc' as <-. repeat split.
    + eexists. split; [reflexivity|]. split; [reflexivity|].
      split; [exact Hp1|]. split; [discriminate|].
      intros _. split; [symmetry; apply app_nil_r | reflexivity].
  - destruct Hs1 as [_ (rs & rm & Hrs & Hrm & _)].
    unfold midi_out_jack.destroy. unfold bind at 1. rewrite Hcl.
    unfold bind, gets, jack_ringbuffer_free, jack_client_close, modify, emit, ret.
    rewrite Hrs, Hrm.
    destruct (client (w_data w1)) as [c|] eqn:Hc.
    + eexists. split; [reflexivity|]. split; [reflexivity|].
      split; [exact Hp1|]. split; [|discriminate].
      intros c' Hc'. injection Hc' as <-.
      split; [|repeat split].
      cbn [w_trace log with_srv w_thread]. rewrite <- !app_assoc. reflexivity.
    + eexists. split; [reflexivity|]. split; [reflexivity|].
      split; [exact Hp1|]. split; [discriminate|].
      intros _. split; [|reflexivity].
      cbn [w_trace log w_thread]. rewrite <- !app_assoc. reflexivity.
Qed.

Lemma destructor_returns_witness :
  exists w1 w',
    close_port_of Output out_open = (Ok tt, w1)
    /\ destroy_of Output out_open = (Ok tt, w')
    /\ port (w_data w') = None
    /\ (forall c,
           client (w_data w1) = Some c ->
           w_trace w' =
             w_trace w1 ++ frees Output (w_thread w1)
             ++ [(w_thread w1, ClientClose c)]
           /\ registered w' = []
           /\ srv_callback (w_srv w') = None
           /\ srv_active (w_srv w') = false)
    /\ (client (w_data w1) = None ->
        w_trace w' = w_trace w1 ++ frees Output (w_thread w1)
        /\ w_srv w' = w_srv w1).
Proof.
  apply (destructor_returns Output sample_peers out_open).
  split; [reflexivity|].
  eexists. eexists. split; [reflexivity|]. split; [reflexivity|].
  vm_compute. discriminate.
Defined.

(* ================================================================= *)
(** ** Connecting late *)

Lemma bind_connect_of {A} (b : backend) (k : unit -> M A) (w : world) :
  srv_running (w_srv w) = true ->
  client (w_data w) = None ->
  bind (connect_of b) k w = bind (connect_of b) k (connected b w).
Proof.
  intros Hrun Hc. unfold bind.
  rewrite (connect_of_running b w Hrun Hc).
  rewrite (connect_of_connected b (connected b w) (srv_next (w_srv w)));
    [reflexivity | destruct b; reflexivity].
Qed.

(** An instance that is not connected, because the server was not running
    when it was made, connects at the first enumeration or open call made
    once the server runs: [get_port_count], [get_port_name], [open_port]
    and [open_virtual_port] then do what they do on the instance that
    [connect] leaves, the client opened under the server's next handle. *)
Theorem late_connect (b : backend) (c : api_call) (w : world) :
  client (w_data w) = None ->
  srv_running (w_srv w) = true ->
  connects_first c = true ->
  api_op b c w = api_op b c (connected b w)
  /\ client (w_data (connected b w)) = Some (srv_next (w_srv w)).
Proof.
  intros Hc Hrun Hfirst.
  split; [|destruct b; reflexivity].
  destruct c; try discriminate; cbn [api_op].
  - destruct b; cbn [open_port_of open_op];
      [unfold midi_in_jack.open_port | unfold midi_out_jack.open_port].
    + apply (bind_connect_of Input _ w Hrun Hc).
    + apply (bind_connect_of Output _ w Hrun Hc).
  - destruct b; cbn [open_virtual_port_of open_op];
      [ unfold midi_in_jack.open_virtual_port
      | unfold midi_out_jack.open_virtual_port ].
    + apply (bind_connect_of Input _ w Hrun Hc).
    + apply (bind_connect_of Output _ w Hrun Hc).
  - assert (E : get_port_count_of b w = get_port_count_of b (connected b w)).
    { destruct b; cbn [get_port_count_of];
        [unfold midi_in_jack.get_port_count | unfold midi_out_jack.get_port_count].
      - apply (bind_connect_of Input _ w Hrun Hc).
      - apply (bind_connect_of Output _ w Hrun Hc). }
    unfold bind. rewrite E. reflexivity.
  - assert (E : get_port_name_of b portNumber w
                = get_port_name_of b portNumber (connected b w)).
    { destruct b; cbn [get_port_name_of];
        [unfold midi_in_jack.get_port_name | unfold midi_out_jack.get_port_name].
      - apply (bind_connect_of Input _ w Hrun Hc).
      - apply (bind_connect_of Output _ w Hrun Hc). }
    unfold bind. rewrite E. reflexivity.
Qed.

Lemma late_connect_witness :
  let w := with_srv (fun _ => jack_running) out_orphan in
  api_op Output call_get_port_count w
  = api_op Output call_get_port_count (connected Output w)
  /\ client (w_data (connected Output w)) = Some (srv_next (w_srv w)).
Proof.
  intros w.
  apply (late_connect Output call_get_port_count w); reflexivity.
Defined.

(* ================================================================= *)
(** ** A port number past the number of peer ports *)

Lemma name_lookup_past_count (b : backend) (i : nat) (w : world) :
  srv_peers (w_srv w) (peer_direction b) <> [] ->
  (length (srv_peers (w_srv w) (peer_direction b)) < i)%nat ->
  name_lookup_result b i w = Undefined.
Proof.
  intros Hne Hlt. unfold name_lookup_result.
  destruct (srv_peers (w_srv w) (peer_direction b)) as [|p0 ps];
    [contradiction|].
  assert (Hnone : nth_error (p0 :: ps) i = None) by (apply nth_error_None; lia).
  rewrite Hnone.
  replace (Nat.eqb i (length (p0 :: ps))) with false
    by (symmetry; apply Nat.eqb_neq; lia).
  reflexivity.
Qed.

(** On a connected instance with at least one peer port, every port
    number above the number of peer ports makes [get_port_name] read the
    array of names past its terminator; the only entry it tests is the one
    at the port number.  [open_port] with such a port number does the same,
    after it has registered its port. *)
Theorem index_past_count (b : backend) (i : nat) (name : string) (w : world)
    (c : jack_client_t) :
  client (w_data w) = Some c ->
  srv_peers (w_srv w) (peer_direction b) <> [] ->
  (length (srv_peers (w_srv w) (peer_direction b)) < i)%nat ->
  outcome (get_port_name_of b i) w = Undefined
  /\ (port (w_data w) = None ->
      registered w = [] ->
      srv_accept (w_srv w) name = true ->
      outcome (open_port_of b i name) w = Undefined
      /\ In (w_thread w,
             PortRegister (Some c) name (own_direction b) (Some (srv_next (w_srv w))))
            (w_trace (exec (open_port_of b i name) w))).
Proof.
  intros Hc Hne Hlt.
  pose proof (name_lookup_past_count b i w Hne Hlt) as Hres.
  split.
  - unfold outcome. rewrite (get_port_name_of_spec b i w c Hc), Hres. reflexivity.
  - intros Hp Hr Ha.
    pose proof (open_port_of_spec b i name w c Hc Hp Hr Ha) as Hspec.
    cbv zeta in Hspec. rewrite Hres in Hspec.
    unfold outcome, exec. rewrite Hspec. split; [reflexivity|].
    cbn [snd add_trace port_registered w_trace with_data log with_srv w_thread].
    apply in_or_app. left. apply in_or_app. right. left. reflexivity.
Qed.

Lemma index_past_count_witness :
  outcome (get_port_name_of Input 5) in_created = Undefined
  /\ (port (w_data in_created) = None ->
      registered in_created = [] ->
      srv_accept (w_srv in_created) "in" = true ->
      outcome (open_port_of Input 5 "in") in_created = Undefined
      /\ In (w_thread in_created,
             PortRegister (Some 1%nat) "in" (own_direction Input)
               (Some (srv_next (w_srv in_created))))
            (w_trace (exec (open_port_of Input 5 "in") in_created))).
Proof.
  apply (index_past_count Input 5 "in" in_created 1%nat).
  - reflexivity.
  - vm_compute. discriminate.
  - vm_compute. lia.
Defined.
